(** * directionality: dynamics on directed graphs under arc removal

    A shallow embedding of [src/dynamics.py]: the integrate-and-fire
    simulator, the SIS epidemic simulator, the random walk, the
    connectivity-preserving arc removal and the pre-flight check of the
    experiment driver, together with the properties stated about them.

    Conventions of the embedding.
    - numpy integer arrays are [list Z], boolean masks are [list bool],
      two-dimensional arrays are lists of rows;
    - Python exceptions are values of [exn]; a computation that may raise
      returns a [result];
    - the process-wide numpy generator is an explicit [RandomState]: an
      arbitrary stream of raw words and a cursor.  Every statement below is
      quantified over all streams, hence holds for the Mersenne Twister
      output of any seed;
    - floating point numbers that carry probabilities are rationals, with
      exact arithmetic; the integer-valued arrays of the firing simulator
      (int64 at first, float64 from the first tick on) are integers, and
      the statements about them are made in the range in which 64-bit
      floats hold these integers exactly ([held_exactly],
      [threshold_in_range], [charges_in_range]). *)

From Stdlib Require Import String DecimalString.
From Stdlib Require Import List ZArith QArith Qpower Lia Lqa Bool Arith Permutation Sorted.
Import ListNotations.
Close Scope Q_scope.

Set Implicit Arguments.

(** ** Exceptions and the simulation monad *)

Inductive exn : Type :=
| ValueError
| IndexError
| AxisError
| UnboundLocalError (var : string)
| Exception (msg : string).

Inductive result (A : Type) : Type :=
| Ok (a : A)
| Raise (e : exn).

Arguments Ok {A} a.
Arguments Raise {A} e.

(** The numpy generator: [raw] is the stream of words it will produce and
    [cursor] the number of words consumed so far. *)
Record RandomState : Type := mkRandomState {
  raw : nat -> Z;
  cursor : nat
}.

(** The state threaded through the driver: the generator and the log of the
    simulator calls entered so far (most recent first). *)
Record World : Type := mkWorld {
  rng : RandomState;
  calls : list string
}.

Definition M (A : Type) : Type := World -> result A * World.

Definition ret {A} (a : A) : M A := fun w => (Ok a, w).

Definition raise {A} (e : exn) : M A := fun w => (Raise e, w).

Definition bind {A B} (m : M A) (k : A -> M B) : M B :=
  fun w =>
    match m w with
    | (Ok a, w') => k a w'
    | (Raise e, w') => (Raise e, w')
    end.

Definition lift {A} (r : result A) : M A := fun w => (r, w).

Declare Scope sim_scope.
Delimit Scope sim_scope with sim.
Notation "x <- m ;; k" := (bind m (fun x => k))
  (at level 61, m at next level, right associativity) : sim_scope.
Notation "' pat <- m ;; k" := (bind m (fun x => match x with pat => k end))
  (at level 61, pat pattern, m at next level, right associativity) : sim_scope.
Notation "m ;;; k" := (bind m (fun _ => k))
  (at level 61, right associativity) : sim_scope.
Open Scope sim_scope.

(** Entering a simulator is recorded in the call log. *)
Definition enter (name : string) : M unit :=
  fun w => (Ok tt, mkWorld (rng w) (name :: calls w)).

(** ** The random generator *)

(** One raw word. *)
Definition next_raw : M Z :=
  fun w =>
    let r := rng w in
    (Ok (raw r (cursor r)), mkWorld (mkRandomState (raw r) (S (cursor r))) (calls w)).

(** [random_sample()]: a double in [0, 1) with 53 bits of resolution. *)
Definition two53 : Z := 9007199254740992.

Definition random_sample : M Q :=
  r <- next_raw ;; ret (Qmake (r mod two53) (Z.to_pos two53)).

Fixpoint draws {A} (k : nat) (m : M A) : M (list A) :=
  match k with
  | O => ret []
  | S k' => x <- m ;; xs <- draws k' m ;; ret (x :: xs)
  end.

(** [np.random.rand(k)]: negative dimensions are refused. *)
Definition rand (k : Z) : M (list Q) :=
  if (k <? 0)%Z then raise ValueError else draws (Z.to_nat k) random_sample.

(** [np.random.randint(low, high)]: an integer of [low, high). *)
Definition randint (low high : Z) : M Z :=
  if (high <=? low)%Z then raise ValueError
  else r <- next_raw ;; ret (low + r mod (high - low))%Z.

(** The largest integer of numpy's default integer type. *)
Definition int64_max : Z := 2 ^ 63 - 1.

(** [np.random.randint(high, size=n)]: [n] integers of [0, high), of type
    int64.  An empty size returns the empty array before the range is looked
    at; otherwise the range must not be empty and its last integer
    [high - 1] must be an int64. *)
Definition randint_size (high : Z) (n : nat) : M (list Z) :=
  match n with
  | O => ret []
  | S _ =>
      if (high <=? 0)%Z then raise ValueError
      else if (int64_max <? high - 1)%Z then raise ValueError
      else draws n (r <- next_raw ;; ret (r mod high)%Z)
  end.

(** ** numpy helpers *)

Fixpoint np_sum (v : list Z) : Z :=
  match v with
  | [] => 0%Z
  | x :: r => (x + np_sum r)%Z
  end.

Definition zeros (n : nat) : list Z := repeat 0%Z n.

Definition ones (n : nat) : list Z := repeat 1%Z n.

Definition bool_to_Z (b : bool) : Z := if b then 1%Z else 0%Z.

(** [np.sum] of a boolean mask: the number of [True] entries. *)
Definition np_sum_bool (m : list bool) : Z := np_sum (map bool_to_Z m).

(** Element-wise operation on two arrays of the same shape. *)
Fixpoint zip_with {A B C} (f : A -> B -> C) (xs : list A) (ys : list B) : list C :=
  match xs, ys with
  | x :: xs', y :: ys' => f x y :: zip_with f xs' ys'
  | _, _ => []
  end.

(** The array [l] with position [i] replaced by [x]. *)
Fixpoint update {A} (i : nat) (x : A) (l : list A) : list A :=
  match l, i with
  | [], _ => []
  | _ :: t, O => x :: t
  | h :: t, S i' => h :: update i' x t
  end.

(** [v[i] = x] on a numpy array; [None] when [i] is out of range. *)
Definition set_nth {A} (i : nat) (x : A) (l : list A) : option (list A) :=
  if Nat.ltb i (length l) then Some (update i x l) else None.

(** [np.where(v)[0]]: the positions of the entries that are not zero. *)
Fixpoint where_from {A} (nz : A -> bool) (i : nat) (v : list A) : list nat :=
  match v with
  | [] => []
  | x :: r => if nz x then i :: where_from nz (S i) r else where_from nz (S i) r
  end.

Definition np_where {A} (nz : A -> bool) (v : list A) : list nat := where_from nz 0 v.

Definition nonzero (x : Z) : bool := negb (Z.eqb x 0).

Definition nonzeroQ (x : Q) : bool := negb (Qeq_bool x 0).

(** [x < y] on rationals. *)
Definition Qlt_bool (x y : Q) : bool := negb (Qle_bool y x).

(** Fancy indexing [v[idx]]. *)
Fixpoint take {A} (v : list A) (idx : list nat) : result (list A) :=
  match idx with
  | [] => Ok []
  | i :: r =>
      match nth_error v i with
      | None => Raise IndexError
      | Some x =>
          match take v r with
          | Ok xs => Ok (x :: xs)
          | Raise e => Raise e
          end
      end
  end.

(** [v[idx] = x] for an array [idx] of positions. *)
Fixpoint put {A} (v : list A) (idx : list nat) (x : A) : result (list A) :=
  match idx with
  | [] => Ok v
  | i :: r =>
      match set_nth i x v with
      | None => Raise IndexError
      | Some v' => put v' r x
      end
  end.

(** [v[z:]] with Python's treatment of a negative bound. *)
Definition slice_from {A} (z : Z) (v : list A) : list A :=
  if (z <? 0)%Z then skipn (length v - Z.to_nat (- z)) v else skipn (Z.to_nat z) v.

(** ** Graphs (igraph) *)

(** A directed multigraph: vertices are [0 .. vcount-1], edge [k] of
    [get_edgelist] has identifier [k]. *)
Record Graph : Type := mkGraph {
  vcount : nat;
  get_edgelist : list (nat * nat)
}.

Definition ecount (g : Graph) : nat := length (get_edgelist g).

(** Every graph igraph can hold has its endpoints among its vertices. *)
Definition graph_wf (g : Graph) : Prop :=
  Forall (fun e => fst e < vcount g /\ snd e < vcount g) (get_edgelist g).

Definition edge_eqb (e1 e2 : nat * nat) : bool :=
  Nat.eqb (fst e1) (fst e2) && Nat.eqb (snd e1) (snd e2).

(** Number of edges of the list equal to [e]. *)
Definition count_edges (es : list (nat * nat)) (e : nat * nat) : Z :=
  Z.of_nat (length (filter (edge_eqb e) es)).

(** [g.get_adjacency().data]: entry [(i, j)] counts the edges from [i] to [j]. *)
Definition get_adjacency (g : Graph) : list (list Z) :=
  map (fun i => map (fun j => count_edges (get_edgelist g) (i, j)) (seq 0 (vcount g)))
      (seq 0 (vcount g)).

(** ** SparsePropagator: the incoming-adjacency operator (lines 43-46) *)

(** [zip( *edges )] on the [m x 2] array of edges: the tuple of its columns,
    which has no element at all when the array has no row. *)
Definition zip_star (edges : list (nat * nat)) : list (list nat) :=
  match edges with
  | [] => []
  | _ :: _ => [map fst edges; map snd edges]
  end.

(** [a, b = xs]: exactly two values are expected. *)
Definition unpack2 {A} (xs : list A) : result (A * A) :=
  match xs with
  | [a; b] => Ok (a, b)
  | _ => Raise ValueError
  end.

(** [A[i, j] += x] on a dense matrix; [None] when [(i, j)] is out of range. *)
Definition add_entry (A : list (list Z)) (i j : nat) (x : Z) : option (list (list Z)) :=
  match nth_error A i with
  | None => None
  | Some row =>
      match nth_error row j with
      | None => None
      | Some a =>
          match set_nth j (a + x)%Z row with
          | None => None
          | Some row' => set_nth i row' A
          end
      end
  end.

Fixpoint csr_fill (A : list (list Z)) (entries : list (Z * (nat * nat)))
  : result (list (list Z)) :=
  match entries with
  | [] => Ok A
  | (x, (i, j)) :: rest =>
      match add_entry A i j x with
      | Some A' => csr_fill A' rest
      | None => Raise ValueError
      end
  end.

(** [spa.csr_matrix((h, (rows, cols)), shape=(n, n))]: duplicate coordinates
    are summed, a coordinate outside the shape is refused. *)
Definition csr_matrix (h : list Z) (rows cols : list nat) (n : nat)
  : result (list (list Z)) :=
  if Nat.eqb (length h) (length rows) && Nat.eqb (length rows) (length cols)
  then csr_fill (repeat (zeros n) n) (combine h (combine rows cols))
  else Raise ValueError.

Definition sparse_propagator (g : Graph) : result (list (list Z)) :=
  let n := vcount g in
  let edges := get_edgelist g in
  match unpack2 (zip_star edges) with
  | Raise e => Raise e
  | Ok (par, child) =>
      let h := ones (length edges) in
      csr_matrix h child par n
  end.

(** ** FiringSimulator: integrate-and-fire (lines 32-62) *)

Definition vadd (u v : list Z) : list Z := zip_with Z.add u v.
Definition vsub (u v : list Z) : list Z := zip_with Z.sub u v.
Definition vmul (u v : list Z) : list Z := zip_with Z.mul u v.

(** [A.dot(mask)]. *)
Definition dot (A : list (list Z)) (mask : list bool) : list Z :=
  map (fun row => np_sum (vmul row (map bool_to_Z mask))) A.

(** The body shared by the two loops (lines 51-53 and 57, 59-60): the mask
    of spiking vertices and the next charge vector.  The charges are
    integers; the code holds them in an int64 array before the first tick
    and in a float64 array afterwards, without rounding as long as they are
    in the range of [charges_in_range]. *)
Definition tick (A : list (list Z)) (threshold : Z) (acc : list Z)
  : list bool * list Z :=
  let is_spiking := map (fun a => (threshold <=? a)%Z) acc in
  let charge_gain := dot A is_spiking in
  (is_spiking, vadd (vsub acc (vmul acc (map bool_to_Z is_spiking))) charge_gain).

(** The burn-in loop.  The local variable [is_spiking] is unbound ([None])
    until the first iteration assigns it. *)
Fixpoint trim_loop (A : list (list Z)) (threshold : Z) (k : nat)
    (is_spiking : option (list bool)) (acc : list Z)
  : option (list bool) * list Z :=
  match k with
  | O => (is_spiking, acc)
  | S k' =>
      let '(sp, acc') := tick A threshold acc in
      trim_loop A threshold k' (Some sp) acc'
  end.

(** The measurement loop. *)
Fixpoint fire_loop (A : list (list Z)) (threshold : Z) (k : nat)
    (is_spiking : option (list bool)) (fires acc : list Z)
  : option (list bool) * list Z * list Z :=
  match k with
  | O => (is_spiking, fires, acc)
  | S k' =>
      let '(sp, acc') := tick A threshold acc in
      fire_loop A threshold k' (Some sp) (vadd fires (map bool_to_Z sp)) acc'
  end.

(** [int(threshold*1.3)]: the float product truncated toward zero, which is
    the quotient of [13*threshold] by 10 for a threshold of magnitude below
    2^49 (the range of [threshold_in_range]). *)
Definition charge_bound (threshold : Z) : Z := Z.quot (13 * threshold) 10.

Definition simu_intandfire (gin : Graph) (threshold tmax trimsz : Z)
  : M (list Z * Z) :=
  let g := gin in
  let n := vcount g in
  initial_charges <- randint_size (charge_bound threshold) n ;;
  A <- lift (sparse_propagator g) ;;
  let acc := initial_charges in
  let '(is_spiking, acc) := trim_loop A threshold (Z.to_nat trimsz) None acc in
  let fires := zeros n in
  let '(is_spiking, fires, acc) :=
    fire_loop A threshold (Z.to_nat (tmax - trimsz)) is_spiking fires acc in
  match is_spiking with
  | None => raise (UnboundLocalError "is_spiking")
  | Some sp => ret (fires, np_sum_bool sp)
  end.


(** ** Permutations and choices drawn from the generator *)

(** [x[i], x[j] = x[j], x[i]]. *)
Definition swap {A} (i j : nat) (x : list A) : list A :=
  match nth_error x i, nth_error x j with
  | Some a, Some b => update j a (update i b x)
  | _, _ => x
  end.

(** The loop of [np.random.shuffle]: for [i] from [k] down to [1], exchange
    position [i] with a position drawn in [0 .. i]. *)
Fixpoint shuffle_from {A} (k : nat) (x : list A) : M (list A) :=
  match k with
  | O => ret x
  | S k' =>
      r <- next_raw ;;
      let j := Z.to_nat (r mod Z.of_nat (S k)) in
      shuffle_from k' (swap k j x)
  end.

Definition shuffle {A} (x : list A) : M (list A) := shuffle_from (length x - 1) x.

(** [np.random.choice(range(n), size=size, replace=False)]: the first
    [size] entries of a random permutation of [range(n)]. *)
Definition choice_without_replacement (n : nat) (size : Z) : M (list nat) :=
  if (size <? 0)%Z then raise ValueError
  else if (Z.of_nat n <? size)%Z then raise ValueError
  else perm <- shuffle (seq 0 n) ;; ret (firstn (Z.to_nat size) perm).

Definition Qsum (p : list Q) : Q := fold_right Qplus 0%Q p.

(** [p.cumsum()], started from [acc]. *)
Fixpoint cumsum_from (acc : Q) (p : list Q) : list Q :=
  match p with
  | [] => []
  | x :: r => (acc + x)%Q :: cumsum_from (acc + x)%Q r
  end.

(** [cdf.searchsorted(u, side='right')] on a non-decreasing [cdf]: the
    first position whose entry exceeds [u]. *)
Fixpoint searchsorted_right (cdf : list Q) (u : Q) : nat :=
  match cdf with
  | [] => O
  | c :: r => if Qlt_bool u c then O else S (searchsorted_right r u)
  end.

(** The entries of an array of floats when all of them are finite; an entry
    [None] is a value that is not finite. *)
Fixpoint finite (p : list (option Q)) : option (list Q) :=
  match p with
  | [] => Some []
  | None :: _ => None
  | Some x :: r => option_map (cons x) (finite r)
  end.

(** [np.random.choice(range(n), p=p)]: [p] must have [n] finite,
    non-negative entries that sum to one. *)
Definition choice_p (n : nat) (p : list (option Q)) : M nat :=
  match n with
  | O => raise ValueError
  | S _ =>
      if negb (Nat.eqb (length p) n) then raise ValueError
      else
        match finite p with
        | None => raise ValueError
        | Some p =>
            if existsb (fun x => Qlt_bool x 0) p then raise ValueError
            else if negb (Qeq_bool (Qsum p) 1) then raise ValueError
            else u <- random_sample ;; ret (searchsorted_right (cumsum_from 0 p) u)
        end
  end.

(** ** EpidemicSimulator: SIS (lines 65-116) *)

Definition SUSCEPTIBLE : Z := 0.
Definition INFECTED : Z := 1.

(** [adj[mask, :]]: the rows selected by a boolean mask.  The empty array
    built from an empty adjacency list has one axis only. *)
Definition mask_rows (adj : list (list Z)) (mask : list bool) : result (list (list Z)) :=
  match adj with
  | [] => Raise IndexError
  | _ :: _ =>
      if Nat.eqb (length adj) (length mask)
      then Ok (map fst (filter snd (combine adj mask)))
      else Raise IndexError
  end.

(** [np.sum(rows, axis=0)] for rows of the given width. *)
Definition sum_axis0 (width : nat) (rows : list (list Z)) : list Z :=
  fold_right vadd (zeros width) rows.

(** [1 - np.power(q, kins)] for arrays of one shape, in exact arithmetic:
    a probability is zero exactly when [q] is 1 or the exponent is 0, and
    one exactly when [q] is 0 and the exponent is positive, as in floats. *)
Definition infection_probs (q : list Q) (kins : list Z) : result (list Q) :=
  if Nat.eqb (length q) (length kins)
  then Ok (zip_with (fun qi k => (1 - Qpower qi k)%Q) q kins)
  else Raise ValueError.

(** The recovery phase (lines 69-74): the status after recoveries. *)
Definition recovery (status0 : list Z) (gamma : Q) : M (list Z) :=
  let status1 := status0 in
  randvals <- rand (np_sum status0) ;;
  let lucky := map (fun r => Qlt_bool r gamma) randvals in
  let infinds := np_where nonzero status0 in
  recinds <- lift (take infinds (np_where (fun b : bool => b) lucky)) ;;
  lift (put status1 recinds 0%Z).

(** [kins] (lines 79-80): the number of arcs reaching each vertex from the
    vertices infected after the recovery phase. *)
Definition infected_in_neighbors (adj : list (list Z)) (status1 : list Z)
  : result (list Z) :=
  match mask_rows adj (map nonzero status1) with
  | Raise e => Raise e
  | Ok aux => Ok (sum_axis0 (length (hd [] adj)) aux)
  end.

(** The infection phase (lines 77-86). *)
Definition infection (adj : list (list Z)) (status1 : list Z) (beta : Q)
  : M (list Z) :=
  let status2 := status1 in
  let q := map (fun _ => (1 - beta)%Q) adj in
  kins <- lift (infected_in_neighbors adj status1) ;;
  probs <- lift (infection_probs q kins) ;;
  let posprobids := np_where nonzeroQ probs in
  posprobs <- lift (take probs posprobids) ;;
  randvals <- rand (Z.of_nat (length posprobs)) ;;
  let relinds := np_where (fun b : bool => b) (zip_with Qlt_bool randvals posprobs) in
  newids <- lift (take posprobids relinds) ;;
  lift (put status2 newids 1%Z).

Definition infection_step (adj : list (list Z)) (status0 : list Z) (beta gamma : Q)
  : M (list Z * list Z) :=
  status1 <- recovery status0 gamma ;;
  status2 <- infection adj status1 beta ;;
  ret (status2, vsub status2 status1).

(** [set_initial_status] (lines 92-97).  On [range(0)] the sample is taken
    from [np.array(range(0))], an empty array of floats, and so is an array
    of floats itself: it is refused as an index (line 96). *)
Definition set_initial_status (n : nat) (i0 : Z) : M (list Z) :=
  let status := zeros n in
  choice <- choice_without_replacement n i0 ;;
  match n with
  | O => raise IndexError
  | S _ => lift (put status choice INFECTED)
  end.

(** The burn-in loop of [simu_sis]. *)
Fixpoint sis_trim_loop (adj : list (list Z)) (beta gamma : Q) (k : nat)
    (status : list Z) : M (list Z) :=
  match k with
  | O => ret status
  | S k' =>
      '(status', _) <- infection_step adj status beta gamma ;;
      sis_trim_loop adj beta gamma k' status'
  end.

(** The measurement loop of [simu_sis]; [newinf] is unbound ([None]) until
    the first iteration assigns it. *)
Fixpoint sis_count_loop (adj : list (list Z)) (beta gamma : Q) (k : nat)
    (status ninfec : list Z) (newinf : option (list Z))
  : M (list Z * list Z * option (list Z)) :=
  match k with
  | O => ret (status, ninfec, newinf)
  | S k' =>
      '(status', newinf') <- infection_step adj status beta gamma ;;
      sis_count_loop adj beta gamma k' status' (vadd ninfec newinf') (Some newinf')
  end.

Definition simu_sis (gin : Graph) (beta gamma : Q) (i0 trimsz tmax : Z)
  : M (list Z * Z) :=
  let adj := get_adjacency gin in
  let n := vcount gin in
  status <- set_initial_status n i0 ;;
  status <- sis_trim_loop adj beta gamma (Z.to_nat trimsz) status ;;
  let ninfec := zeros n in
  '(status, ninfec, newinf) <-
    sis_count_loop adj beta gamma (Z.to_nat (tmax - trimsz)) status ninfec None ;;
  match newinf with
  | None => raise (UnboundLocalError "newinf")
  | Some d => ret (ninfec, np_sum d)
  end.

(** ** WalkSimulator: random walk (lines 164-202) *)

(** [adj / np.sum(adj, axis=1).reshape(n, -1)]: each row divided by its sum.
    The quotient by a zero sum is not finite ([None]). *)
Definition transition_matrix (adj : list (list Z)) : list (list (option Q)) :=
  map (fun row =>
         let s := np_sum row in
         map (fun a => if Z.eqb s 0 then None else Some (inject_Z a / inject_Z s)%Q) row)
      adj.

(** The loop of [randomwalk]: the [k] vertices visited after [cur]. *)
Fixpoint walk_loop (n : nat) (trans : list (list (option Q))) (k : nat) (cur : nat)
  : M (list nat) :=
  match k with
  | O => ret []
  | S k' =>
      match nth_error trans cur with
      | None => raise IndexError
      | Some row =>
          nxt <- choice_p n row ;;
          rest <- walk_loop n trans k' nxt ;;
          ret (nxt :: rest)
      end
  end.

(** [randomwalk(l, startnode, trans)]: an array of [l+1] vertices.  The
    filler [-1] of the array is overwritten at every position before that
    position is read, so the array is built here from its first entry on. *)
Definition randomwalk (l : Z) (startnode : nat) (trans : list (list (option Q)))
  : M (list nat) :=
  let n := length (hd [] trans) in
  if (l + 1 <? 0)%Z then raise ValueError
  else if (l + 1 =? 0)%Z then raise IndexError
  else
    rest <- walk_loop n trans (Z.to_nat l) startnode ;;
    ret (startnode :: rest).

(** One more occurrence of [v] in a list of (value, count) sorted by value. *)
Fixpoint bump (v : nat) (acl : list (nat * nat)) : list (nat * nat) :=
  match acl with
  | [] => [(v, 1)]
  | (k, c) :: r =>
      if Nat.ltb v k then (v, 1) :: acl
      else if Nat.eqb v k then (k, S c) :: r
      else (k, c) :: bump v r
  end.

(** [zip( *np.unique(a, return_counts=True))]: the distinct values of [a] in
    increasing order, each with its number of occurrences. *)
Definition np_unique_counts (a : list nat) : list (nat * nat) :=
  fold_right bump [] a.

(** The loop [for v, c in zip(vs, cs): visits[v] = c]. *)
Fixpoint store_counts (visits : list Z) (vcs : list (nat * nat)) : result (list Z) :=
  match vcs with
  | [] => Ok visits
  | (v, c) :: r =>
      match set_nth v (Z.of_nat c) visits with
      | None => Raise IndexError
      | Some visits' => store_counts visits' r
      end
  end.

Definition simu_walk (idx : nat) (g : Graph) (walklen trimsz : Z) : M (list Z) :=
  let adj := get_adjacency g in
  match adj with
  | [] => raise AxisError
  | _ :: _ =>
      let trans := transition_matrix adj in
      startnode <- randint 0 (Z.of_nat (vcount g)) ;;
      walk <- randomwalk walklen (Z.to_nat startnode) trans ;;
      let vcs := np_unique_counts (slice_from trimsz walk) in
      let visits := zeros (vcount g) in
      lift (store_counts visits vcs)
  end.

(** ** ConnectivityPreservingPruner (lines 175-187) *)

(** The list without its element of position [k]. *)
Fixpoint remove_nth {A} (k : nat) (l : list A) : list A :=
  match l, k with
  | [], _ => []
  | _ :: t, O => t
  | h :: t, S k' => h :: remove_nth k' t
  end.

(** [newg = g.copy(); newg.delete_edges([g.es[eid]])]. *)
Definition delete_edge (g : Graph) (eid : nat) : result Graph :=
  if Nat.ltb eid (ecount g)
  then Ok (mkGraph (vcount g) (remove_nth eid (get_edgelist g)))
  else Raise IndexError.

Definition mem (v : nat) (s : list nat) : bool := existsb (Nat.eqb v) s.

(** The heads of the edges that leave a vertex of [s]. *)
Definition successors (es : list (nat * nat)) (s : list nat) : list nat :=
  map snd (filter (fun e => mem (fst e) s) es).

(** The vertices reached from [s] by at most [k] edges. *)
Fixpoint expand (k : nat) (es : list (nat * nat)) (s : list nat) : list nat :=
  match k with
  | O => s
  | S k' => expand k' es (s ++ successors es s)
  end.

Definition covers (n : nat) (s : list nat) : bool :=
  forallb (fun v => mem v s) (seq 0 n).

Definition reverse_edges (es : list (nat * nat)) : list (nat * nat) :=
  map (fun e => (snd e, fst e)) es.

(** [g.is_connected(mode='strong')]: every vertex is reached from vertex 0
    and reaches vertex 0.  The graph without vertices is not connected. *)
Definition is_connected (g : Graph) : bool :=
  match vcount g with
  | O => false
  | S _ =>
      covers (vcount g) (expand (vcount g) (get_edgelist g) [0])
      && covers (vcount g) (expand (vcount g) (reverse_edges (get_edgelist g)) [0])
  end.

(** The loop over the shuffled edge identifiers (lines 180-187). *)
Fixpoint try_remove (g : Graph) (edgeids : list nat) (ntries : Z)
  : result (Graph * Z) :=
  match edgeids with
  | [] => Raise (Exception EmptyString)
  | eid :: rest =>
      match delete_edge g eid with
      | Raise e => Raise e
      | Ok newg =>
          if is_connected newg then Ok (newg, ntries)
          else try_remove g rest (ntries + 1)%Z
      end
  end.

Definition remove_arc_conn (g : Graph) : M (Graph * Z) :=
  edgeids <- shuffle (seq 0 (ecount g)) ;;
  lift (try_remove g edgeids 1%Z).

(** ** ExperimentDriver (lines 209-315) *)

(** [initial_check]: the comparison [nbatches * batchsz > 0.75 * ecount] of
    an integer with a float is exact, and is taken here on integers. *)
Definition initial_check (nbatches batchsz : Z) (g : Graph) : result unit :=
  if (3 * Z.of_nat (ecount g) <? 4 * (nbatches * batchsz))%Z
  then Raise (Exception "Too may arcs to be removed.")
  else if negb (is_connected g)
  then Raise (Exception "Initial graph is not strongly connected.")
  else Ok tt.

(** [g.to_directed()]: every edge becomes a pair of opposite arcs. *)
Definition to_directed (g : Graph) : Graph :=
  mkGraph (vcount g) (get_edgelist g ++ reverse_edges (get_edgelist g)).

Inductive degmode : Type := DegIn | DegOut | DegAll.

Definition count_where (f : nat * nat -> bool) (es : list (nat * nat)) : Z :=
  Z.of_nat (length (filter f es)).

(** [g.degree(mode=degmode)]. *)
Definition degree (g : Graph) (mode : degmode) : list Z :=
  map (fun v =>
         let dout := count_where (fun e => Nat.eqb (fst e) v) (get_edgelist g) in
         let din := count_where (fun e => Nat.eqb (snd e) v) (get_edgelist g) in
         match mode with
         | DegIn => din
         | DegOut => dout
         | DegAll => (din + dout)%Z
         end)
      (seq 0 (vcount g)).

(** [int(x)] of a float: truncation toward zero. *)
Definition int_of (x : Q) : Z := Z.quot (Qnum x) (Zpos (Qden x)).

(** The statistics of one snapshot: one row of each saved array. *)
Record BatchStatistics : Type := mkBatchStatistics {
  degrees : list Z;
  vvisit : list Z;
  vfires : list Z;
  vinfec : list Z;
  lfires : Z;
  linfec : Z;
  nattempts : Z
}.

(** [try: m  except: raise e]. *)
Definition try_except {A} (m : M A) (e : exn) : M A :=
  fun w =>
    match m w with
    | (Ok a, w') => (Ok a, w')
    | (Raise _, w') => (Raise e, w')
    end.

Section Driver.

(** The topology generators of igraph are outside of the source; an
    undirected graph is given by the list of its edges. *)
Variable generate_data : string -> nat -> Z -> M Graph.

Variables (top : string) (n : nat) (k : Z) (mode : degmode).
Variables (nbatches batchsz : Z).
Variables (trimrel : Q) (wepochs fepochs fthesh eepochs : Z).
Variables (ei0 ebeta egamma : Q).

Definition maxtries : Z := 100.

(** The loop of lines 227-232.  It leaves after at most 102 rounds, which
    is the fuel it is started with. *)
Fixpoint generate_loop (fuel : nat) (tries : Z) : M (Graph * Z) :=
  match fuel with
  | O => raise (Exception "Could not find strongly connected graph")
  | S fuel' =>
      gorig <- generate_data top n k ;;
      let stronglyconn := is_connected (to_directed gorig) in
      if (maxtries <? tries)%Z
      then raise (Exception "Could not find strongly connected graph")
      else if stronglyconn then ret (gorig, (tries + 1)%Z)
      else generate_loop fuel' (tries + 1)%Z
  end.

(** Lines 257-260 and 269-272: the measurements on one snapshot.  The
    trimmed lengths and the number of initial infections are truncated
    products; the products are exact here, where the code rounds them to
    a float first, and no statement below depends on their values. *)
Definition measure (i : nat) (g : Graph) (attempts : Z) : M BatchStatistics :=
  let wtrim := int_of (inject_Z wepochs * trimrel) in
  let ftrim := int_of (inject_Z fepochs * trimrel) in
  let etrim := int_of (inject_Z eepochs * trimrel) in
  let i0 := int_of (ei0 * inject_Z (Z.of_nat n)) in
  let deg := degree g mode in
  enter "simu_walk" ;;;
  visits <- simu_walk i g wepochs wtrim ;;
  enter "simu_intandfire" ;;;
  '(fires, lastfires) <- simu_intandfire g fthesh fepochs ftrim ;;
  enter "simu_sis" ;;;
  '(infec, lastinfec) <- simu_sis g ebeta egamma i0 etrim eepochs ;;
  ret (mkBatchStatistics deg visits fires infec lastfires lastinfec attempts).

(** Lines 265-268: [j] removals of step [i]. *)
Fixpoint prune_batch (i : nat) (j : nat) (g : Graph) (attempts : Z) : M (Graph * Z) :=
  match j with
  | O => ret (g, attempts)
  | S j' =>
      '(g', m) <- try_except (remove_arc_conn g)
                    (Exception ("Could not remove arc in step "
                                ++ NilEmpty.string_of_uint (Nat.to_uint i))) ;;
      prune_batch i j' g' (attempts + m)%Z
  end.

(** Lines 262-272: the steps [i, i+1, ..] of the batch loop. *)
Fixpoint batch_loop (steps : nat) (i : nat) (g : Graph) : M (list BatchStatistics) :=
  match steps with
  | O => ret []
  | S steps' =>
      '(g', attempts) <- prune_batch i (Z.to_nat batchsz) g 0%Z ;;
      row <- measure (S i) g' attempts ;;
      rows <- batch_loop steps' (S i) g' ;;
      ret (row :: rows)
  end.

(** [run_experiment], from the seeded generator to the arrays it saves.
    Plotting, the files written and the correlations computed from the
    arrays are no part of the model. *)
Definition run_experiment : M (list BatchStatistics) :=
  '(gorig, tries) <- generate_loop 102 0%Z ;;
  (if (nbatches + 1 <? 0)%Z then raise ValueError
   else if (nbatches + 1 =? 0)%Z then raise IndexError
   else ret tt) ;;;
  let gorig := to_directed gorig in
  lift (initial_check nbatches batchsz gorig) ;;;
  let g := gorig in
  row0 <- measure 0 g tries ;;
  rows <- batch_loop (Z.to_nat nbatches) 0 g ;;
  ret (row0 :: rows).

End Driver.

(** ** Vocabulary of the statements *)

(** Entry [(i, j)] of a matrix. *)
Definition entry (A : list (list Z)) (i j : nat) : Z := nth j (nth i A []) 0%Z.

(** A matrix of [n] rows of [n] entries. *)
Definition square (n : nat) (A : list (list Z)) : Prop :=
  length A = n /\ Forall (fun row => length row = n) A.

(** The total weight that a list of entries puts on position [(i, j)]. *)
Definition weight (entries : list (Z * (nat * nat))) (i j : nat) : Z :=
  np_sum (map fst (filter (fun e => Nat.eqb (fst (snd e)) i && Nat.eqb (snd (snd e)) j)
                          entries)).

(** The mask of the vertices at or above the threshold. *)
Definition spiking (threshold : Z) (acc : list Z) : list bool :=
  map (fun a => (threshold <=? a)%Z) acc.

(** The number of arcs that enter [v] from a vertex of the mask. *)
Definition inflow (es : list (nat * nat)) (mask : list bool) (v : nat) : Z :=
  count_where (fun e => Nat.eqb (snd e) v && nth (fst e) mask false) es.

(** The charge vector after [t] ticks. *)
Fixpoint charge_at (A : list (list Z)) (threshold : Z) (acc : list Z) (t : nat)
  : list Z :=
  match t with
  | O => acc
  | S t' => charge_at A threshold (snd (tick A threshold acc)) t'
  end.

(** Whether vertex [v] spikes in tick [t] (ticks are numbered from 0). *)
Definition spikes_at (A : list (list Z)) (threshold : Z) (acc : list Z)
    (t v : nat) : bool :=
  nth v (spiking threshold (charge_at A threshold acc t)) false.

(** The number of ticks among [first, first+1, .., first+len-1] in which
    vertex [v] spikes. *)
Definition fire_count (A : list (list Z)) (threshold : Z) (acc : list Z)
    (first len v : nat) : Z :=
  Z.of_nat (length (filter (fun t => spikes_at A threshold acc t v) (seq first len))).

(** The mask bound to [is_spiking] when the two loops of the firing
    simulator have run [burn] and [len] times; [None] when no tick ran. *)
Definition final_mask (A : list (list Z)) (threshold : Z) (acc : list Z)
    (burn len : nat) : option (list bool) :=
  match len with
  | S l => Some (spiking threshold (charge_at A threshold acc (burn + l)))
  | O =>
      match burn with
      | S b => Some (spiking threshold (charge_at A threshold acc b))
      | O => None
      end
  end.

(** Every vertex has positive degree: an arc leaves each of them, so that
    no row of the adjacency matrix sums to zero. *)
Definition positive_degree (g : Graph) : Prop :=
  forall v, v < vcount g -> exists u, In (v, u) (get_edgelist g).

(** A status vector with entries in {0, 1}. *)
Definition binary (status : list Z) : Prop :=
  Forall (fun s => s = 0%Z \/ s = 1%Z) status.

(** The arcs between consecutive vertices of a sequence. *)
Fixpoint chain_edges (vs : list nat) : list (nat * nat) :=
  match vs with
  | x :: (y :: _) as r => (x, y) :: chain_edges r
  | _ => []
  end.

(** The arcs of the directed cycle that visits [vs] in order and returns to
    its first vertex. *)
Definition cycle_edges (vs : list nat) : list (nat * nat) :=
  match vs with
  | [] => []
  | v0 :: _ => chain_edges (vs ++ [v0])
  end.

(** [vs] is a directed cycle through all the vertices of a graph of [n]
    vertices: it lists each of them once. *)
Definition spanning_cycle (n : nat) (vs : list nat) : Prop :=
  0 < n /\ Permutation vs (seq 0 n).



(** The graph is one directed cycle through all its vertices. *)
Definition single_directed_cycle (g : Graph) : Prop :=
  exists vs,
    spanning_cycle (vcount g) vs /\
    Permutation (get_edgelist g) (cycle_edges vs).

(** A walk of [k] edges from one vertex to another. *)
Inductive walk (es : list (nat * nat)) : nat -> nat -> nat -> Prop :=
| walk_stay : forall u, walk es u u 0
| walk_step : forall u v w k, In (u, v) es -> walk es v w k -> walk es u w (S k).

(** ** The range in which the integers of the firing simulator are exact *)

(** The threshold is multiplied by the float 1.3, and from the first tick
    on the charges are held in 64-bit floats (the operator is an array of
    floats).  All of them are integers, and a 64-bit float holds every
    integer up to 2^53: below, the arithmetic of the code is the arithmetic
    of integers.  An integer is held exactly when its magnitude is at most
    2^53. *)
Definition held_exactly (x : Z) : Prop := (- 2 ^ 53 <= x <= 2 ^ 53)%Z.

(** For a positive threshold below 2^49 the float product [threshold*1.3]
    is within 0.09 of 13*threshold/10, so that [int(threshold*1.3)] is
    [charge_bound threshold]. *)
Definition threshold_in_range (threshold : Z) : Prop := (0 < threshold < 2 ^ 49)%Z.

Definition graph_in_range (g : Graph) : Prop := (Z.of_nat (ecount g) < 2 ^ 49)%Z.

(** A charge vector all of whose entries are held exactly, and still are
    when one unit has arrived along every arc of the graph. *)
Definition charges_in_range (g : Graph) (acc : list Z) : Prop :=
  Forall (fun a => (0 <= a /\ a + Z.of_nat (ecount g) <= 2 ^ 53)%Z) acc.

(** ** Lattice dimensions: [find_closest_factors] (lines 119-123) *)

(** The two ways in which the arithmetic of [find_closest_factors] fails. *)
Inductive arith_exn : Type :=
| ZeroDivisionError
| NanToInteger.

(** The loop [while n % m != 0: m -= 1], started at [m]: the divisor it
    stops at, or the division by zero it runs into at [m = 0]. *)
Fixpoint factor_search (m : nat) (n : Z) : arith_exn + Z :=
  match m with
  | O => inl ZeroDivisionError
  | S m' =>
      if (n mod Z.of_nat m =? 0)%Z then inr (Z.of_nat m)
      else factor_search m' n
  end.

(** [find_closest_factors(n)].  [int(np.sqrt(n))] is the integer square
    root for [n] below 2^52 (the float square root of such an [n] never
    rounds up to the next integer), and is not defined on a negative [n];
    the second component is the float [n / m], exact for a divisor [m] of
    an [n] below 2^52. *)
Definition find_closest_factors (n : Z) : arith_exn + (Z * Q) :=
  if (n <? 0)%Z then inl NanToInteger
  else
    match factor_search (Z.to_nat (Z.sqrt n)) n with
    | inl e => inl e
    | inr m => inr (m, (inject_Z n / inject_Z m)%Q)
    end.

(** The count stored for [v] in a list of (value, count). *)
Fixpoint count_of (v : nat) (acl : list (nat * nat)) : nat :=
  match acl with
  | [] => 0
  | (k, c) :: r => if Nat.eqb v k then c else count_of v r
  end.

(** The number of occurrences of [v] in an array. *)
Definition occurrences (v : nat) (a : list nat) : nat :=
  length (filter (Nat.eqb v) a).

(** The number of arcs that leave a vertex of the mask. *)
Definition outflow (es : list (nat * nat)) (mask : list bool) : Z :=
  count_where (fun e => nth (fst e) mask false) es.

(** What the measurement loop keeps about the last vector of new infections. *)
Definition last_delta_ok (n : nat) (newinf : option (list Z)) (ninfec : list Z) : Prop :=
  match newinf with
  | None => True
  | Some d => binary d /\ length d = n /\ (np_sum d <= np_sum ninfec)%Z
  end.



(** * Properties *)

Unset Implicit Arguments.

#[local] Arguments Z.add : simpl never.
#[local] Arguments Z.sub : simpl never.
#[local] Arguments Z.mul : simpl never.
#[local] Arguments Z.of_nat : simpl never.

(** ** Arrays *)

Lemma length_update {A} (i : nat) (x : A) (l : list A) :
  length (update i x l) = length l.
Proof.
  revert i; induction l as [|h t IH]; intros [|i]; simpl; auto.
Qed.

Lemma nth_error_update_eq {A} (i : nat) (x : A) (l : list A) :
  i < length l -> nth_error (update i x l) i = Some x.
Proof.
  revert i; induction l as [|h t IH]; intros [|i] H; simpl in *; try lia; auto.
  apply IH; lia.
Qed.

Lemma nth_error_update_neq {A} (i j : nat) (x : A) (l : list A) :
  i <> j -> nth_error (update i x l) j = nth_error l j.
Proof.
  revert i j; induction l as [|h t IH]; intros [|i] [|j] H; simpl; auto; try lia.
Qed.

Lemma nth_update_eq {A} (i : nat) (x d : A) (l : list A) :
  i < length l -> nth i (update i x l) d = x.
Proof.
  intros H. apply nth_error_nth. now apply nth_error_update_eq.
Qed.

Lemma nth_update_neq {A} (i j : nat) (x d : A) (l : list A) :
  i <> j -> nth j (update i x l) d = nth j l d.
Proof.
  revert i j; induction l as [|h t IH]; intros [|i] [|j] H; simpl; auto; try lia.
Qed.

Lemma set_nth_Some {A} (i : nat) (x : A) (l l' : list A) :
  set_nth i x l = Some l' -> i < length l /\ l' = update i x l.
Proof.
  unfold set_nth. destruct (Nat.ltb_spec i (length l)); intros E; inversion E; auto.
Qed.

Lemma set_nth_lt {A} (i : nat) (x : A) (l : list A) :
  i < length l -> set_nth i x l = Some (update i x l).
Proof.
  unfold set_nth. intros H. destruct (Nat.ltb_spec i (length l)); auto; lia.
Qed.

Lemma length_zip_with {A B C} (f : A -> B -> C) (xs : list A) (ys : list B) :
  length (zip_with f xs ys) = Nat.min (length xs) (length ys).
Proof.
  revert ys; induction xs as [|x xs IH]; intros [|y ys]; simpl; auto.
Qed.

Lemma nth_zip_with {A B C} (f : A -> B -> C) xs ys i (dc : C) (da : A) (db : B) :
  i < length xs -> i < length ys ->
  nth i (zip_with f xs ys) dc = f (nth i xs da) (nth i ys db).
Proof.
  revert ys i; induction xs as [|x xs IH]; intros [|y ys] [|i]; simpl; try lia; auto.
  intros; apply IH; lia.
Qed.

Lemma np_sum_app (u v : list Z) : np_sum (u ++ v) = (np_sum u + np_sum v)%Z.
Proof.
  induction u as [|x u IH]; simpl; auto. lia.
Qed.

Lemma np_sum_zeros (n : nat) : np_sum (zeros n) = 0%Z.
Proof.
  induction n; simpl; auto.
Qed.

Lemma length_zeros (n : nat) : length (zeros n) = n.
Proof. apply repeat_length. Qed.

Lemma length_ones (n : nat) : length (ones n) = n.
Proof. apply repeat_length. Qed.

Lemma nth_zeros (n i : nat) : nth i (zeros n) 0%Z = 0%Z.
Proof.
  revert i; induction n; intros [|i]; simpl; auto.
Qed.

(** ** SparsePropagator *)

Lemma square_zeros (n : nat) : square n (repeat (zeros n) n).
Proof.
  split; [apply repeat_length|].
  apply Forall_forall. intros row H. apply repeat_spec in H. subst.
  apply length_zeros.
Qed.

Lemma square_update (n i : nat) (row : list Z) (A : list (list Z)) :
  square n A -> length row = n -> square n (update i row A).
Proof.
  intros [HL HF] Hr. split; [now rewrite length_update|].
  clear HL. revert i. induction HF as [|r A Hr0 HF IH]; intros [|i]; simpl;
    constructor; auto.
Qed.

Lemma square_row (n i : nat) (A : list (list Z)) :
  square n A -> i < n -> exists row, nth_error A i = Some row /\ length row = n.
Proof.
  intros [HL HF] Hi.
  destruct (nth_error A i) as [row|] eqn:E.
  - exists row; split; auto.
    rewrite Forall_forall in HF. apply HF. eapply nth_error_In; eauto.
  - apply nth_error_None in E. lia.
Qed.

Lemma add_entry_ok (n i j : nat) (x : Z) (A : list (list Z)) :
  square n A -> i < n -> j < n ->
  exists row a,
    nth_error A i = Some row /\ length row = n /\ nth_error row j = Some a /\
    add_entry A i j x = Some (update i (update j (a + x)%Z row) A).
Proof.
  intros HA Hi Hj.
  destruct (square_row _ _ _ HA Hi) as (row & Er & Lr).
  destruct (nth_error row j) as [a|] eqn:Ea.
  2:{ apply nth_error_None in Ea. lia. }
  exists row, a. repeat split; auto.
  unfold add_entry. rewrite Er, Ea.
  rewrite set_nth_lt by lia.
  rewrite set_nth_lt by (destruct HA; lia).
  reflexivity.
Qed.

Lemma entry_update (A : list (list Z)) (i j : nat) (a x : Z) (row : list Z) :
  nth_error A i = Some row -> nth_error row j = Some a ->
  forall i' j',
    entry (update i (update j (a + x)%Z row) A) i' j'
    = (entry A i' j' + if Nat.eqb i i' && Nat.eqb j j' then x else 0)%Z.
Proof.
  intros Er Ea i' j'. unfold entry.
  assert (Hi : i < length A) by (apply nth_error_Some; congruence).
  assert (Hj : j < length row) by (apply nth_error_Some; congruence).
  destruct (Nat.eqb_spec i i') as [<-|Ni]; simpl.
  - rewrite nth_update_eq by auto.
    rewrite (nth_error_nth A i [] Er).
    destruct (Nat.eqb_spec j j') as [<-|Nj].
    + rewrite nth_update_eq by auto. now rewrite (nth_error_nth row j 0%Z Ea).
    + rewrite nth_update_neq by auto. lia.
  - rewrite nth_update_neq by auto. lia.
Qed.

Lemma csr_fill_entries (n : nat) (entries : list (Z * (nat * nat))) :
  Forall (fun e => fst (snd e) < n /\ snd (snd e) < n) entries ->
  forall A, square n A ->
  exists A', csr_fill A entries = Ok A' /\ square n A' /\
             forall i j, entry A' i j = (entry A i j + weight entries i j)%Z.
Proof.
  induction 1 as [|[x [i j]] rest [Hi Hj] HF IH]; intros A HA; simpl in *.
  - exists A. split; [reflexivity|]. split; [assumption|].
    intros. unfold weight; simpl. lia.
  - destruct (add_entry_ok _ _ _ x _ HA Hi Hj) as (row & a & Er & Lr & Ea & E).
    rewrite E.
    destruct (IH (update i (update j (a + x)%Z row) A)) as (A' & E' & S' & H').
    { apply square_update; auto. now rewrite length_update. }
    exists A'. split; [assumption|]. split; [assumption|].
    intros i' j'. rewrite H', (entry_update _ _ _ _ x _ Er Ea).
    unfold weight; simpl.
    destruct (Nat.eqb i i' && Nat.eqb j j'); simpl; lia.
Qed.

Lemma weight_edges (es : list (nat * nat)) (i j : nat) :
  weight (combine (ones (length es)) (combine (map snd es) (map fst es))) i j
  = count_edges es (j, i).
Proof.
  unfold weight, count_edges.
  induction es as [|[u v] es IH]; simpl; auto.
  unfold edge_eqb at 1; simpl. unfold ones in IH.
  destruct (Nat.eqb_spec v i), (Nat.eqb_spec u j), (Nat.eqb_spec j u),
    (Nat.eqb_spec i v); subst; try congruence;
    cbn [andb map fst np_sum length]; rewrite ?Nat2Z.inj_succ, ?IH; lia.
Qed.

Lemma zip_star_cons (e : nat * nat) (es : list (nat * nat)) :
  unpack2 (zip_star (e :: es)) = Ok (map fst (e :: es), map snd (e :: es)).
Proof. reflexivity. Qed.

(** The operator built from a non-empty edge list: entry [(i, j)] is the
    number of edges from [j] to [i]. *)
Lemma sparse_propagator_entries (g : Graph) :
  graph_wf g -> get_edgelist g <> [] ->
  exists A, sparse_propagator g = Ok A /\ square (vcount g) A /\
            forall i j, entry A i j = count_edges (get_edgelist g) (j, i).
Proof.
  intros WF NE. unfold sparse_propagator.
  destruct (get_edgelist g) as [|e es] eqn:Ees; [congruence|].
  rewrite zip_star_cons. rewrite <- Ees in *. clear Ees e es NE.
  unfold csr_matrix. rewrite !length_map, length_ones, Nat.eqb_refl. simpl.
  destruct (csr_fill_entries (vcount g)
              (combine (ones (length (get_edgelist g)))
                       (combine (map snd (get_edgelist g)) (map fst (get_edgelist g)))))
    with (A := repeat (zeros (vcount g)) (vcount g)) as (A & E & S & H).
  - unfold graph_wf in WF. revert WF. generalize (get_edgelist g).
    induction 1 as [|[u v] es [Hu Hv] HF IH]; simpl; constructor; auto.
  - apply square_zeros.
  - exists A. split; [assumption|]. split; [assumption|].
    intros i j. rewrite H, weight_edges.
    assert (Z0 : entry (repeat (zeros (vcount g)) (vcount g)) i j = 0%Z).
    { unfold entry. destruct (Nat.lt_ge_cases i (vcount g)) as [Hi|Hi].
      - rewrite nth_repeat_lt by auto. apply nth_zeros.
      - rewrite (nth_overflow (repeat _ _)) by (rewrite repeat_length; lia).
        now destruct j. }
    lia.
Qed.

Lemma np_sum_map_add {X} (f g : X -> Z) (l : list X) :
  np_sum (map (fun j => (f j + g j)%Z) l) = (np_sum (map f l) + np_sum (map g l))%Z.
Proof.
  induction l as [|x l IH]; simpl; lia.
Qed.

Lemma np_sum_map_ext {X} (f g : X -> Z) (l : list X) :
  (forall x, In x l -> f x = g x) -> np_sum (map f l) = np_sum (map g l).
Proof.
  induction l as [|x l IH]; simpl; intros H; auto.
  rewrite (H x), IH; auto.
Qed.

(** A sum over [first .. first+n-1] with one term that is not zero. *)
Lemma np_sum_indicator (x : Z) (a first n : nat) :
  np_sum (map (fun j => if Nat.eqb j a then x else 0%Z) (seq first n))
  = if Nat.leb first a && Nat.ltb a (first + n) then x else 0%Z.
Proof.
  revert first. induction n as [|n IH]; intros first; simpl.
  - destruct (Nat.leb_spec first a), (Nat.ltb_spec a (first + 0)); simpl; auto; lia.
  - rewrite IH.
    destruct (Nat.eqb_spec first a), (Nat.leb_spec first a),
      (Nat.leb_spec (S first) a), (Nat.ltb_spec a (S first + n)),
      (Nat.ltb_spec a (first + S n)); simpl; lia.
Qed.

Lemma np_sum_vmul_seq (row m : list Z) :
  length row = length m ->
  np_sum (vmul row m)
  = np_sum (map (fun j => (nth j row 0 * nth j m 0)%Z) (seq 0 (length row))).
Proof.
  revert m. induction row as [|a row IH]; intros [|b m] H; simpl in *; try lia.
  rewrite <- seq_shift, map_map. f_equal. apply IH. lia.
Qed.

Lemma nth_bool_to_Z (mask : list bool) (j : nat) :
  nth j (map bool_to_Z mask) 0%Z = bool_to_Z (nth j mask false).
Proof.
  change 0%Z with (bool_to_Z false). apply map_nth.
Qed.

Lemma length_dot (A : list (list Z)) (mask : list bool) :
  length (dot A mask) = length A.
Proof. apply length_map. Qed.

(** Row [v] of the product: the entries of row [v] at the positions of the
    mask. *)
Lemma dot_entries (n : nat) (A : list (list Z)) (mask : list bool) (v : nat) :
  square n A -> length mask = n -> v < n ->
  nth v (dot A mask) 0%Z
  = np_sum (map (fun j => (entry A v j * bool_to_Z (nth j mask false))%Z) (seq 0 n)).
Proof.
  intros HA Hm Hv. unfold dot.
  destruct (square_row _ _ _ HA Hv) as (row & Er & Lr).
  rewrite (nth_error_nth _ _ 0%Z (map_nth_error _ _ _ Er)).
  rewrite np_sum_vmul_seq by (rewrite length_map; lia).
  rewrite Lr. apply np_sum_map_ext. intros j _.
  unfold entry. rewrite (nth_error_nth _ _ [] Er), nth_bool_to_Z. reflexivity.
Qed.

Lemma count_edges_cons (e e' : nat * nat) (es : list (nat * nat)) :
  count_edges (e' :: es) e = (bool_to_Z (edge_eqb e e') + count_edges es e)%Z.
Proof.
  unfold count_edges. simpl. destruct (edge_eqb e e'); cbn [length bool_to_Z]; lia.
Qed.

Lemma inflow_cons (e : nat * nat) (es : list (nat * nat)) (mask : list bool) (v : nat) :
  inflow (e :: es) mask v
  = (bool_to_Z (Nat.eqb (snd e) v && nth (fst e) mask false) + inflow es mask v)%Z.
Proof.
  unfold inflow, count_where. simpl.
  destruct (Nat.eqb (snd e) v && nth (fst e) mask false); cbn [length bool_to_Z]; lia.
Qed.

(** Summing the activity of the sources of the edges that enter [v]. *)
Lemma sum_count_edges_inflow (n : nat) (es : list (nat * nat)) (mask : list bool) (v : nat) :
  Forall (fun e => fst e < n /\ snd e < n) es ->
  np_sum (map (fun j => (count_edges es (j, v) * bool_to_Z (nth j mask false))%Z) (seq 0 n))
  = inflow es mask v.
Proof.
  induction 1 as [|[a b] es [Ha Hb] HF IH].
  - unfold inflow, count_where, count_edges. simpl.
    induction (seq 0 n); simpl; auto.
  - rewrite inflow_cons, <- IH. simpl fst; simpl snd.
    rewrite (np_sum_map_ext _
      (fun j => ((if Nat.eqb j a then bool_to_Z (Nat.eqb b v && nth a mask false) else 0)
                 + count_edges es (j, v) * bool_to_Z (nth j mask false))%Z)).
    + rewrite np_sum_map_add, np_sum_indicator.
      simpl in Ha.
      destruct (Nat.leb_spec 0 a), (Nat.ltb_spec a (0 + n)); simpl; lia.
    + intros j _. rewrite count_edges_cons. unfold edge_eqb. simpl.
      rewrite (Nat.eqb_sym v b).
      destruct (Nat.eqb_spec j a); subst; simpl;
        destruct (Nat.eqb b v); simpl; try lia.
Qed.

(** [A.dot(mask)] sums, for each vertex, the activity of the vertices with
    an edge into it. *)
Lemma dot_inflow (g : Graph) (A : list (list Z)) (mask : list bool) (v : nat) :
  graph_wf g -> sparse_propagator g = Ok A ->
  length mask = vcount g -> v < vcount g ->
  nth v (dot A mask) 0%Z = inflow (get_edgelist g) mask v.
Proof.
  intros WF EA Hm Hv.
  assert (NE : get_edgelist g <> []).
  { intros E. unfold sparse_propagator in EA. rewrite E in EA. discriminate. }
  destruct (sparse_propagator_entries g WF NE) as (A' & EA' & SA & HA).
  rewrite EA in EA'. inversion EA'; subst A'.
  rewrite (dot_entries _ _ _ _ SA Hm Hv).
  rewrite <- (sum_count_edges_inflow (vcount g)) by exact WF.
  apply np_sum_map_ext. intros j _. now rewrite HA.
Qed.

Lemma propagator_square (g : Graph) (A : list (list Z)) :
  graph_wf g -> sparse_propagator g = Ok A -> square (vcount g) A.
Proof.
  intros WF EA.
  assert (NE : get_edgelist g <> []).
  { intros E. unfold sparse_propagator in EA. rewrite E in EA. discriminate. }
  destruct (sparse_propagator_entries g WF NE) as (A' & EA' & SA & HA).
  congruence.
Qed.

(** ** FiringSimulator *)

Lemma length_spiking (threshold : Z) (acc : list Z) :
  length (spiking threshold acc) = length acc.
Proof. apply length_map. Qed.

Lemma nth_spiking (threshold : Z) (acc : list Z) (v : nat) :
  v < length acc ->
  nth v (spiking threshold acc) false = (threshold <=? nth v acc 0)%Z.
Proof.
  intros H. unfold spiking.
  rewrite (nth_indep _ false ((threshold <=? 0)%Z)) by now rewrite length_map.
  apply (map_nth (fun a => (threshold <=? a)%Z)).
Qed.

Lemma tick_mask (A : list (list Z)) (threshold : Z) (acc : list Z) :
  fst (tick A threshold acc) = spiking threshold acc.
Proof. reflexivity. Qed.

Lemma length_tick (n : nat) (A : list (list Z)) (threshold : Z) (acc : list Z) :
  length A = n -> length acc = n -> length (snd (tick A threshold acc)) = n.
Proof.
  intros HA Hacc. unfold tick, vadd, vsub, vmul. simpl.
  rewrite !length_zip_with, !length_map, length_dot. lia.
Qed.

(** The next charge of a vertex: its charge, reset when it spikes, plus the
    gain received through the operator. *)
Lemma tick_charge (n : nat) (A : list (list Z)) (threshold : Z) (acc : list Z) (v : nat) :
  length A = n -> length acc = n -> v < n ->
  nth v (snd (tick A threshold acc)) 0%Z
  = (nth v acc 0 - nth v acc 0 * bool_to_Z (nth v (spiking threshold acc) false)
     + nth v (dot A (spiking threshold acc)) 0)%Z.
Proof.
  intros HA Hacc Hv. unfold tick, vadd, vsub, vmul. simpl.
  fold (spiking threshold acc).
  rewrite (nth_zip_with Z.add _ _ _ 0 0 0)%Z;
    [|rewrite !length_zip_with, ?length_map, ?length_spiking; lia
     |rewrite length_dot; lia].
  rewrite (nth_zip_with Z.sub _ _ _ 0 0 0)%Z;
    [|lia|rewrite !length_zip_with, ?length_map, ?length_spiking; lia].
  rewrite (nth_zip_with Z.mul _ _ _ 0 0 0)%Z;
    [|lia|rewrite ?length_map, ?length_spiking; lia].
  now rewrite nth_bool_to_Z.
Qed.

Lemma length_charge_at (n : nat) (A : list (list Z)) (threshold : Z) (t : nat) :
  length A = n -> forall acc, length acc = n ->
  length (charge_at A threshold acc t) = n.
Proof.
  intros HA. induction t as [|t IH]; intros acc Hacc; simpl; auto.
  apply IH. now apply length_tick.
Qed.

Lemma charge_at_add (A : list (list Z)) (threshold : Z) (a b : nat) (acc : list Z) :
  charge_at A threshold acc (a + b)
  = charge_at A threshold (charge_at A threshold acc a) b.
Proof.
  revert acc. induction a as [|a IH]; intros acc; simpl; auto.
Qed.

(** What the burn-in loop leaves: the mask of its last tick, if it had one,
    and the charge after [k] ticks. *)
Lemma trim_loop_spec (A : list (list Z)) (threshold : Z) (k : nat) :
  forall sp acc,
    trim_loop A threshold k sp acc
    = (match k with
       | O => sp
       | S k' => Some (spiking threshold (charge_at A threshold acc k'))
       end,
       charge_at A threshold acc k).
Proof.
  induction k as [|k IH]; intros sp acc; [reflexivity|].
  cbn [trim_loop]. destruct (tick A threshold acc) as [m acc'] eqn:E.
  rewrite IH.
  assert (Em : m = spiking threshold acc) by (rewrite <- tick_mask with (A := A), E; auto).
  assert (Ea : acc' = snd (tick A threshold acc)) by (now rewrite E).
  subst. destruct k; reflexivity.
Qed.

Lemma fire_count_step (A : list (list Z)) (threshold : Z) (acc : list Z) (k v : nat) :
  fire_count A threshold acc 0 (S k) v
  = (bool_to_Z (nth v (spiking threshold acc) false)
     + fire_count A threshold (snd (tick A threshold acc)) 0 k v)%Z.
Proof.
  unfold fire_count. cbn [seq filter].
  rewrite <- seq_shift.
  assert (E : filter (fun t => spikes_at A threshold acc t v) (map S (seq 0 k))
              = map S (filter (fun t => spikes_at A threshold (snd (tick A threshold acc)) t v)
                              (seq 0 k))).
  { induction (seq 0 k) as [|t l IH]; cbn [map filter]; auto.
    change (spikes_at A threshold acc (S t) v)
      with (spikes_at A threshold (snd (tick A threshold acc)) t v).
    destruct (spikes_at A threshold (snd (tick A threshold acc)) t v); cbn [map];
      now rewrite IH. }
  rewrite E.
  unfold spikes_at at 1. cbn [charge_at].
  destruct (nth v (spiking threshold acc) false);
    cbn [length bool_to_Z]; rewrite length_map; lia.
Qed.

(** What the measurement loop leaves. *)
Lemma fire_loop_spec (n : nat) (A : list (list Z)) (threshold : Z) (k : nat) :
  length A = n ->
  forall sp fires acc, length fires = n -> length acc = n ->
  exists fires',
    fire_loop A threshold k sp fires acc
    = (match k with
       | O => sp
       | S k' => Some (spiking threshold (charge_at A threshold acc k'))
       end,
       fires', charge_at A threshold acc k)
    /\ length fires' = n
    /\ (k = 0 -> fires' = fires)
    /\ forall v, v < n ->
         nth v fires' 0%Z = (nth v fires 0 + fire_count A threshold acc 0 k v)%Z.
Proof.
  intros HA. induction k as [|k IH]; intros sp fires acc Hf Hacc.
  - exists fires. split; [reflexivity|]. split; [assumption|]. split; [reflexivity|].
    intros v _. unfold fire_count. simpl. lia.
  - cbn [fire_loop]. destruct (tick A threshold acc) as [m acc'] eqn:E.
    assert (Em : m = spiking threshold acc) by (rewrite <- tick_mask with (A := A), E; auto).
    assert (Ea : acc' = snd (tick A threshold acc)) by (now rewrite E).
    subst m acc'.
    destruct (IH (Some (spiking threshold acc))
                (vadd fires (map bool_to_Z (spiking threshold acc)))
                (snd (tick A threshold acc))) as (fires' & E' & L' & _ & H').
    { unfold vadd. rewrite length_zip_with, length_map, length_spiking. lia. }
    { now apply length_tick. }
    exists fires'. split; [|split; [|split]]; auto.
    + rewrite E'. destruct k; reflexivity.
    + discriminate.
    + intros v Hv. rewrite (H' v Hv), fire_count_step. unfold vadd.
      rewrite (nth_zip_with Z.add _ _ _ 0 0 0)%Z
        by (rewrite ?length_map, ?length_spiking; lia).
      rewrite nth_bool_to_Z. lia.
Qed.

Lemma fire_count_shift (A : list (list Z)) (threshold : Z) (acc : list Z)
    (first len v : nat) :
  fire_count A threshold acc first len v
  = fire_count A threshold (charge_at A threshold acc first) 0 len v.
Proof.
  unfold fire_count. apply f_equal.
  replace (seq first len) with (map (fun t => first + t) (seq 0 len)).
  2:{ clear. revert first. induction len as [|len IH]; intros first; simpl; auto.
      rewrite Nat.add_0_r. f_equal. rewrite <- seq_shift, map_map.
      rewrite <- (IH (S first)). apply map_ext. intros; lia. }
  induction (seq 0 len) as [|t l IH]; cbn [map filter]; auto.
  assert (E : spikes_at A threshold acc (first + t) v
              = spikes_at A threshold (charge_at A threshold acc first) t v).
  { unfold spikes_at. now rewrite charge_at_add. }
  rewrite E.
  destruct (spikes_at A threshold (charge_at A threshold acc first) t v);
    cbn [length]; now rewrite IH.
Qed.

(** ** The random generator *)

Lemma draws_ok {X} (m : M X) :
  (forall w, exists x w', m w = (Ok x, w')) ->
  forall k w, exists xs w', draws k m w = (Ok xs, w') /\ length xs = k.
Proof.
  intros Hm. induction k as [|k IH]; intros w; simpl.
  - exists [], w. split; reflexivity.
  - unfold bind. destruct (Hm w) as (x & w1 & E1). rewrite E1.
    destruct (IH w1) as (xs & w2 & E2 & L). rewrite E2.
    exists (x :: xs), w2. split; simpl; auto.
Qed.

Lemma randint_size_ok (high : Z) (n : nat) (w : World) :
  (0 < high <= int64_max + 1)%Z ->
  exists acc w', randint_size high n w = (Ok acc, w') /\ length acc = n.
Proof.
  intros H. unfold randint_size.
  destruct n as [|n]; [exists [], w; split; reflexivity|].
  destruct (Z.leb_spec high 0); [lia|].
  destruct (Z.ltb_spec int64_max (high - 1)); [lia|].
  apply draws_ok. intros w1. unfold bind, next_raw, ret. eauto.
Qed.

Lemma pow_2_49 : (2 ^ 49 = 562949953421312)%Z.
Proof. reflexivity. Qed.

Lemma pow_2_53 : (2 ^ 53 = 9007199254740992)%Z.
Proof. reflexivity. Qed.

Lemma int64_max_value : int64_max = 9223372036854775807%Z.
Proof. reflexivity. Qed.

(** The bound of the initial charges for a threshold in range. *)
Lemma charge_bound_in_range (threshold : Z) :
  threshold_in_range threshold ->
  (0 < charge_bound threshold <= threshold + threshold)%Z /\
  (charge_bound threshold < 2 ^ 50)%Z /\
  (charge_bound threshold <= int64_max + 1)%Z.
Proof.
  unfold threshold_in_range, charge_bound. rewrite pow_2_49, int64_max_value.
  change (2 ^ 50)%Z with 1125899906842624%Z. intros H.
  rewrite Z.quot_div_nonneg by lia.
  pose proof (Z.div_mod (13 * threshold) 10 ltac:(lia)) as E.
  pose proof (Z.mod_pos_bound (13 * threshold) 10 ltac:(lia)) as B.
  lia.
Qed.

Lemma draws_inv {X} (m : M X) (P : X -> Prop) :
  (forall w x w', m w = (Ok x, w') -> P x) ->
  forall k w xs w', draws k m w = (Ok xs, w') -> Forall P xs /\ length xs = k.
Proof.
  intros Hm. induction k as [|k IH]; intros w xs w' E; simpl in E.
  - inversion E. split; [constructor|reflexivity].
  - unfold bind in E.
    destruct (m w) as [[x|e] w1] eqn:E1; [|discriminate].
    destruct (draws k m w1) as [[ys|e] w2] eqn:E2; [|discriminate].
    inversion E; subst. destruct (IH _ _ _ E2) as [HF L].
    split; [constructor; eauto|simpl; lia].
Qed.

Lemma randint_size_inv (high : Z) (n : nat) (w w' : World) (acc : list Z) :
  randint_size high n w = (Ok acc, w') ->
  Forall (fun a => 0 <= a < high)%Z acc /\ length acc = n.
Proof.
  unfold randint_size.
  destruct n as [|n]; [intros E; inversion E; split; [constructor|reflexivity]|].
  destruct (Z.leb_spec high 0); [discriminate|].
  destruct (Z.ltb_spec int64_max (high - 1)); [discriminate|].
  apply draws_inv. intros w0 x w1 E. unfold bind, next_raw, ret in E.
  inversion E; subst. apply Z.mod_pos_bound. lia.
Qed.

Lemma Forall_of_nth (P : Z -> Prop) (l : list Z) :
  (forall v, v < length l -> P (nth v l 0%Z)) -> Forall P l.
Proof.
  intros H. apply Forall_forall. intros a Ha.
  destruct (In_nth _ _ 0%Z Ha) as (v & Hv & <-). auto.
Qed.

Lemma inflow_nonneg (es : list (nat * nat)) (mask : list bool) (v : nat) :
  (0 <= inflow es mask v)%Z.
Proof. unfold inflow, count_where. lia. Qed.

Lemma inflow_quiet (es : list (nat * nat)) (mask : list bool) (v : nat) :
  (forall u, In (u, v) es -> nth u mask false = false) -> inflow es mask v = 0%Z.
Proof.
  intros H. unfold inflow, count_where.
  replace (filter (fun e => Nat.eqb (snd e) v && nth (fst e) mask false) es) with
    (@nil (nat * nat)); [reflexivity|].
  symmetry. induction es as [|[a b] es IH]; simpl; auto.
  destruct (Nat.eqb_spec b v) as [->|N]; simpl.
  - rewrite (H a) by (now left). apply IH. intros u Hu. apply H. now right.
  - apply IH. intros u Hu. apply H. now right.
Qed.

(** The next charge of a vertex in terms of the graph. *)
Lemma tick_charge_inflow (g : Graph) (A : list (list Z)) (threshold : Z)
    (acc : list Z) (v : nat) :
  graph_wf g -> sparse_propagator g = Ok A -> length acc = vcount g -> v < vcount g ->
  nth v (snd (tick A threshold acc)) 0%Z
  = ((if (threshold <=? nth v acc 0)%Z then 0 else nth v acc 0)
     + inflow (get_edgelist g) (spiking threshold acc) v)%Z.
Proof.
  intros WF EA La Hv.
  assert (SA := propagator_square g A WF EA). destruct SA as [LA _].
  assert (Hin := dot_inflow g A (spiking threshold acc) v WF EA).
  rewrite length_spiking in Hin. specialize (Hin La Hv).
  rewrite (tick_charge (vcount g)) by assumption.
  rewrite Hin, nth_spiking by lia.
  destruct (threshold <=? nth v acc 0)%Z; cbn [bool_to_Z]; lia.
Qed.

Lemma tick_nonneg (g : Graph) (A : list (list Z)) (threshold : Z) (acc : list Z) :
  graph_wf g -> sparse_propagator g = Ok A -> length acc = vcount g ->
  Forall (fun a => 0 <= a)%Z acc ->
  Forall (fun a => 0 <= a)%Z (snd (tick A threshold acc)).
Proof.
  intros WF EA La Hpos.
  assert (SA := propagator_square g A WF EA). destruct SA as [LA _].
  apply Forall_of_nth. intros v Hv.
  rewrite (length_tick (vcount g)) in Hv by assumption.
  rewrite (tick_charge_inflow g) by assumption.
  pose proof (inflow_nonneg (get_edgelist g) (spiking threshold acc) v).
  assert (0 <= nth v acc 0)%Z.
  { rewrite Forall_forall in Hpos. apply Hpos, nth_In. lia. }
  destruct (threshold <=? nth v acc 0)%Z; lia.
Qed.

Lemma inflow_le_ecount (g : Graph) (mask : list bool) (v : nat) :
  (inflow (get_edgelist g) mask v <= Z.of_nat (ecount g))%Z.
Proof.
  unfold inflow, count_where, ecount.
  apply inj_le. induction (get_edgelist g) as [|e es IH]; simpl; [lia|].
  destruct (Nat.eqb (snd e) v && nth (fst e) mask false); simpl; lia.
Qed.

(** The charges of a run are bounded: a charge below the threshold grows by
    at most one unit per arc, a charge at the threshold is reset. *)
Lemma tick_bounded (g : Graph) (A : list (list Z)) (threshold : Z) (acc : list Z)
    (m : Z) :
  graph_wf g -> sparse_propagator g = Ok A -> length acc = vcount g ->
  (0 < threshold)%Z -> (threshold - 1 + Z.of_nat (ecount g) <= m)%Z ->
  Forall (fun a => 0 <= a <= m)%Z acc ->
  Forall (fun a => 0 <= a <= m)%Z (snd (tick A threshold acc)).
Proof.
  intros WF EA La Ht Hm Hb.
  assert (SA := propagator_square g A WF EA). destruct SA as [LA _].
  apply Forall_of_nth. intros v Hv.
  rewrite (length_tick (vcount g)) in Hv by assumption.
  rewrite (tick_charge_inflow g) by assumption.
  pose proof (inflow_nonneg (get_edgelist g) (spiking threshold acc) v).
  pose proof (inflow_le_ecount g (spiking threshold acc) v).
  assert (0 <= nth v acc 0 <= m)%Z.
  { rewrite Forall_forall in Hb. apply Hb, nth_In. lia. }
  destruct (Z.leb_spec threshold (nth v acc 0%Z)); lia.
Qed.

Lemma charge_at_bounded (g : Graph) (A : list (list Z)) (threshold : Z) (m : Z) :
  graph_wf g -> sparse_propagator g = Ok A ->
  (0 < threshold)%Z -> (threshold - 1 + Z.of_nat (ecount g) <= m)%Z ->
  forall t acc, length acc = vcount g ->
    Forall (fun a => 0 <= a <= m)%Z acc ->
    Forall (fun a => 0 <= a <= m)%Z (charge_at A threshold acc t).
Proof.
  intros WF EA Ht Hm.
  assert (SA := propagator_square g A WF EA). destruct SA as [LA _].
  induction t as [|t IH]; intros acc La Hb; cbn [charge_at]; [assumption|].
  apply IH; [now apply length_tick|now apply (tick_bounded g)].
Qed.

(** With the threshold and the graph in range, every charge of a run is
    held exactly, at every tick. *)
Lemma run_charges_in_range (g : Graph) (A : list (list Z)) (threshold : Z)
    (acc0 : list Z) (w w' : World) :
  graph_wf g -> sparse_propagator g = Ok A ->
  threshold_in_range threshold -> graph_in_range g ->
  randint_size (charge_bound threshold) (vcount g) w = (Ok acc0, w') ->
  forall t,
    Forall (fun a => 0 <= a <= Z.max (charge_bound threshold - 1)
                                 (threshold - 1 + Z.of_nat (ecount g)))%Z
      (charge_at A threshold acc0 t) /\
    charges_in_range g (charge_at A threshold acc0 t).
Proof.
  intros WF EA Ht Hg Er t.
  destruct (randint_size_inv _ _ _ _ _ Er) as [Hr L0].
  destruct (charge_bound_in_range threshold Ht) as (Hc1 & Hc2 & _).
  assert (Hb : Forall (fun a => 0 <= a <= Z.max (charge_bound threshold - 1)
                                       (threshold - 1 + Z.of_nat (ecount g)))%Z
                 (charge_at A threshold acc0 t)).
  { apply (charge_at_bounded g); try assumption.
    - unfold threshold_in_range in Ht. lia.
    - lia.
    - eapply Forall_impl; [|exact Hr]. cbv beta. intros a Ha. lia. }
  split; [assumption|].
  unfold charges_in_range. eapply Forall_impl; [|exact Hb]. cbv beta. intros a Ha.
  unfold threshold_in_range, graph_in_range in *.
  rewrite pow_2_49 in *. rewrite pow_2_53.
  change (2 ^ 50)%Z with 1125899906842624%Z in Hc2. lia.
Qed.

(** The run of [simu_intandfire] on a graph with at least one edge and a
    threshold for which initial charges can be drawn. *)
Lemma simu_intandfire_run (g : Graph) (threshold tmax trimsz : Z) (w : World) :
  graph_wf g -> get_edgelist g <> [] ->
  (0 < charge_bound threshold <= int64_max + 1)%Z ->
  exists A acc0 w' fires,
    sparse_propagator g = Ok A /\
    randint_size (charge_bound threshold) (vcount g) w = (Ok acc0, w') /\
    length acc0 = vcount g /\
    length fires = vcount g /\
    (Z.to_nat (tmax - trimsz) = 0 -> fires = zeros (vcount g)) /\
    (forall v, v < vcount g ->
       nth v fires 0%Z
       = fire_count A threshold acc0 (Z.to_nat trimsz) (Z.to_nat (tmax - trimsz)) v) /\
    simu_intandfire g threshold tmax trimsz w
    = match final_mask A threshold acc0 (Z.to_nat trimsz) (Z.to_nat (tmax - trimsz)) with
      | None => (Raise (UnboundLocalError "is_spiking"), w')
      | Some sp => (Ok (fires, np_sum_bool sp), w')
      end.
Proof.
  intros WF NE Hb.
  destruct (sparse_propagator_entries g WF NE) as (A & EA & SA & _).
  destruct (randint_size_ok (charge_bound threshold) (vcount g) w Hb)
    as (acc0 & w' & Er & L0).
  destruct SA as [LA _].
  set (burn := Z.to_nat trimsz). set (len := Z.to_nat (tmax - trimsz)).
  destruct (fire_loop_spec (vcount g) A threshold len LA
              (match burn with
               | O => None
               | S k' => Some (spiking threshold (charge_at A threshold acc0 k'))
               end)
              (zeros (vcount g)) (charge_at A threshold acc0 burn))
    as (fires & Ef & Lf & Hz & Hf).
  { apply length_zeros. }
  { now apply length_charge_at. }
  exists A, acc0, w', fires.
  split; [assumption|]. split; [assumption|]. split; [assumption|].
  split; [assumption|]. split; [exact Hz|]. split.
  - intros v Hv.
    rewrite (Hf v Hv), nth_zeros, (fire_count_shift A threshold acc0). fold burn. lia.
  - unfold simu_intandfire, bind. rewrite Er. unfold lift. rewrite EA.
    fold burn len. rewrite trim_loop_spec, Ef.
    unfold final_mask.
    destruct len; [destruct burn|]; rewrite ?charge_at_add; reflexivity.
Qed.

(** C2 (failing input).  On a graph without edges the construction of the
    operator does not return the zero operator: unpacking [zip( *edges )]
    into [par, child] raises [ValueError], and so does the simulator that
    starts with this construction. *)
Theorem C2_empty_edge_list_raises (n : nat) (threshold tmax trimsz : Z) (w : World) :
  sparse_propagator (mkGraph n []) = Raise ValueError /\
  exists w', simu_intandfire (mkGraph n []) threshold tmax trimsz w = (Raise ValueError, w').
Proof.
  split; [reflexivity|].
  unfold simu_intandfire, bind, randint_size. cbn [vcount].
  destruct n as [|n]; [exists w; reflexivity|].
  destruct (Z.leb_spec (charge_bound threshold) 0); [exists w; reflexivity|].
  destruct (Z.ltb_spec int64_max (charge_bound threshold - 1)); [exists w; reflexivity|].
  destruct (draws_ok (fun w0 => bind next_raw
               (fun r => ret (r mod charge_bound threshold)%Z) w0))
    with (k := S n) (w := w) as (acc & w' & E & _).
  { intros w1. unfold bind, next_raw, ret. eauto. }
  exists w'. unfold bind in E |- *. rewrite E. reflexivity.
Qed.



(** C9.  A vertex below the threshold does not lose charge in a tick, and
    keeps exactly its charge when none of its in-neighbors spikes.  The
    threshold and the charges are integers that the floats of the code hold
    exactly, and so is the next charge. *)
Theorem C9_charge_only_drops_at_own_spike
    (g : Graph) (A : list (list Z)) (threshold : Z) (acc : list Z) (v : nat) :
  graph_wf g -> sparse_propagator g = Ok A ->
  length acc = vcount g -> v < vcount g ->
  held_exactly threshold -> charges_in_range g acc ->
  (nth v acc 0 < threshold)%Z ->
  (nth v acc 0 <= nth v (snd (tick A threshold acc)) 0)%Z /\
  ((forall u, In (u, v) (get_edgelist g) -> (nth u acc 0 < threshold)%Z) ->
   nth v (snd (tick A threshold acc)) 0%Z = nth v acc 0%Z) /\
  held_exactly (nth v (snd (tick A threshold acc)) 0%Z).
Proof.
  intros WF EA La Hv _ Hr Hlow.
  assert (SA := propagator_square g A WF EA). destruct SA as [LA _].
  assert (Hin := dot_inflow g A (spiking threshold acc) v WF EA).
  rewrite length_spiking in Hin. specialize (Hin La Hv).
  rewrite (tick_charge (vcount g)) by assumption.
  rewrite Hin, nth_spiking by lia.
  destruct (Z.leb_spec threshold (nth v acc 0%Z)) as [|_]; [lia|].
  cbn [bool_to_Z].
  pose proof (inflow_nonneg (get_edgelist g) (spiking threshold acc) v) as I0.
  pose proof (inflow_le_ecount g (spiking threshold acc) v) as I1.
  split; [lia|]. split.
  - intros Hq. rewrite inflow_quiet; [lia|].
    intros u Hu.
    assert (Hu' : u < vcount g).
    { unfold graph_wf in WF. rewrite Forall_forall in WF.
      apply (WF (u, v) Hu). }
    rewrite nth_spiking by lia.
    specialize (Hq u Hu). destruct (Z.leb_spec threshold (nth u acc 0%Z)); [lia|auto].
  - assert (Ha : (0 <= nth v acc 0 /\ nth v acc 0 + Z.of_nat (ecount g) <= 2 ^ 53)%Z).
    { unfold charges_in_range in Hr. rewrite Forall_forall in Hr.
      apply (Hr (nth v acc 0%Z)). apply nth_In. lia. }
    unfold held_exactly. rewrite pow_2_53 in *. lia.
Qed.

Lemma C9_charge_only_drops_at_own_spike_witness :
  (nth 1 [5; 1; 0] 0 <= nth 1 (snd (tick [[0; 0; 1]; [1; 0; 0]; [0; 1; 0]] 3 [5; 1; 0])) 0)%Z /\
  nth 2 (snd (tick [[0; 0; 1]; [1; 0; 0]; [0; 1; 0]]%Z 3%Z [5; 1; 0]%Z)) 0%Z
  = nth 2 [5; 1; 0]%Z 0%Z.
Proof.
  assert (WF : graph_wf (mkGraph 3 [(0, 1); (1, 2); (2, 0)])) by (repeat constructor).
  assert (Ht : held_exactly 3) by (unfold held_exactly; rewrite pow_2_53; lia).
  assert (Hr : charges_in_range (mkGraph 3 [(0, 1); (1, 2); (2, 0)]) [5; 1; 0]%Z).
  { unfold charges_in_range, ecount. rewrite pow_2_53. cbn [get_edgelist length].
    repeat (constructor; [lia|]). constructor. }
  split.
  - apply (C9_charge_only_drops_at_own_spike
             (mkGraph 3 [(0, 1); (1, 2); (2, 0)]) [[0; 0; 1]; [1; 0; 0]; [0; 1; 0]]%Z
             3 [5; 1; 0]%Z 1 WF eq_refl eq_refl); [simpl; lia|assumption|assumption|].
    simpl. lia.
  - apply (C9_charge_only_drops_at_own_spike
             (mkGraph 3 [(0, 1); (1, 2); (2, 0)]) [[0; 0; 1]; [1; 0; 0]; [0; 1; 0]]%Z
             3 [5; 1; 0]%Z 2 WF eq_refl eq_refl); [simpl; lia|assumption|assumption| |].
    + simpl. lia.
    + intros u [Hu|[Hu|[Hu|[]]]]; inversion Hu; subst; simpl; lia.
Defined.

(** ** Indexing *)

Lemma where_from_In {X} (nz : X -> bool) (v : list X) :
  forall i j,
    In j (where_from nz i v) <->
    i <= j /\ exists x, nth_error v (j - i) = Some x /\ nz x = true.
Proof.
  induction v as [|x v IH]; intros i j; simpl.
  - split; [tauto|]. intros (_ & y & E & _). destruct (j - i); discriminate.
  - assert (Hrec : In j (where_from nz (S i) v) <->
                   S i <= j /\ exists y, nth_error v (j - S i) = Some y /\ nz y = true)
      by apply IH.
    destruct (nz x) eqn:Ex; simpl; rewrite Hrec; clear Hrec IH; split.
    + intros [<-|(Hle & y & E & Hy)].
      * split; [lia|]. exists x. rewrite Nat.sub_diag. auto.
      * split; [lia|]. exists y. replace (j - i) with (S (j - S i)) by lia. auto.
    + intros (Hle & y & E & Hy).
      destruct (Nat.eq_dec i j) as [->|N]; [now left|right].
      split; [lia|]. exists y. replace (j - i) with (S (j - S i)) in E by lia. auto.
    + intros (Hle & y & E & Hy).
      split; [lia|]. exists y. replace (j - i) with (S (j - S i)) by lia. auto.
    + intros (Hle & y & E & Hy).
      destruct (Nat.eq_dec i j) as [->|N].
      * rewrite Nat.sub_diag in E. simpl in E. congruence.
      * split; [lia|]. exists y. replace (j - i) with (S (j - S i)) in E by lia. auto.
Qed.

Lemma np_where_In {X} (nz : X -> bool) (v : list X) (j : nat) :
  In j (np_where nz v) <-> exists x, nth_error v j = Some x /\ nz x = true.
Proof.
  unfold np_where. rewrite where_from_In, Nat.sub_0_r. split.
  - intros [_ H]; exact H.
  - intros H; split; [lia|exact H].
Qed.

Lemma np_where_lt {X} (nz : X -> bool) (v : list X) :
  Forall (fun j => j < length v) (np_where nz v).
Proof.
  apply Forall_forall. intros j Hj. apply np_where_In in Hj.
  destruct Hj as (x & E & _). apply nth_error_Some. congruence.
Qed.

Lemma take_ok {X} (v : list X) (idx : list nat) :
  Forall (fun i => i < length v) idx ->
  exists xs, take v idx = Ok xs /\ length xs = length idx /\
             Forall (fun x => In x v) xs.
Proof.
  induction 1 as [|i idx Hi HF IH]; simpl.
  - exists []. auto.
  - destruct (nth_error v i) as [x|] eqn:E.
    2:{ apply nth_error_None in E. lia. }
    destruct IH as (xs & -> & L & Hin).
    exists (x :: xs). split; [reflexivity|]. split; [simpl; lia|].
    constructor; auto. eapply nth_error_In; eauto.
Qed.

Lemma take_In {X} (v : list X) (idx : list nat) (xs : list X) :
  take v idx = Ok xs -> Forall (fun x => In x v) xs.
Proof.
  revert xs. induction idx as [|i idx IH]; simpl; intros xs E.
  - inversion E. constructor.
  - destruct (nth_error v i) as [x|] eqn:Ex; [|discriminate].
    destruct (take v idx) as [ys|]; [|discriminate].
    inversion E; subst. constructor; auto. eapply nth_error_In; eauto.
Qed.

(** What [v[idx] = x] leaves at every position. *)
Lemma put_spec {X} (x d : X) (idx : list nat) :
  forall v v', put v idx x = Ok v' ->
    length v' = length v /\
    Forall (fun i => i < length v) idx /\
    forall i, i < length v -> nth i v' d = if mem i idx then x else nth i v d.
Proof.
  induction idx as [|i0 idx IH]; simpl; intros v v' E.
  - inversion E; subst. auto.
  - destruct (set_nth i0 x v) as [v1|] eqn:E1; [|discriminate].
    apply set_nth_Some in E1. destruct E1 as [H0 ->].
    destruct (IH _ _ E) as (L & HF & Hn). rewrite length_update in *.
    split; [assumption|]. split; [constructor; assumption|].
    intros i Hi. rewrite (Hn i Hi).
    destruct (mem i idx); [now rewrite orb_true_r|]. rewrite orb_false_r.
    destruct (Nat.eqb_spec i i0) as [->|N].
    + now apply nth_update_eq.
    + apply nth_update_neq. auto.
Qed.

Lemma put_ok {X} (x : X) (idx : list nat) :
  forall v, Forall (fun i => i < length v) idx -> exists v', put v idx x = Ok v'.
Proof.
  induction idx as [|i0 idx IH]; simpl; intros v HF.
  - eauto.
  - inversion HF; subst. rewrite set_nth_lt by assumption.
    apply IH. now rewrite length_update.
Qed.

Lemma random_sample_ok (w : World) : exists x w', random_sample w = (Ok x, w').
Proof. unfold random_sample, bind, next_raw, ret. eauto. Qed.

Lemma rand_ok (k : Z) (w : World) :
  (0 <= k)%Z -> exists xs w', rand k w = (Ok xs, w') /\ length xs = Z.to_nat k.
Proof.
  intros H. unfold rand. destruct (Z.ltb_spec k 0); [lia|].
  apply draws_ok. apply random_sample_ok.
Qed.

(** ** EpidemicSimulator *)

Lemma binary_count (status : list Z) :
  binary status -> np_sum status = Z.of_nat (length (np_where nonzero status)).
Proof.
  intros B. unfold np_where. generalize 0.
  induction B as [|s status [->| ->] HF IH]; intros i; simpl; auto;
    rewrite (IH (S i)); cbn [length]; lia.
Qed.

Lemma binary_nth (status : list Z) (v : nat) :
  binary status -> nth v status 0%Z = 0%Z \/ nth v status 0%Z = 1%Z.
Proof.
  intros H. destruct (Nat.lt_ge_cases v (length status)) as [Hv|Hv].
  - unfold binary in H. rewrite Forall_forall in H. apply H. now apply nth_In.
  - left. now apply nth_overflow.
Qed.

Lemma binary_of_nth (status : list Z) :
  (forall v, v < length status -> nth v status 0%Z = 0%Z \/ nth v status 0%Z = 1%Z) ->
  binary status.
Proof.
  intros H. apply Forall_forall. intros s Hs.
  destruct (In_nth _ _ 0%Z Hs) as (v & Hv & <-). auto.
Qed.

Lemma binary_sum_bounds (status : list Z) :
  binary status -> (0 <= np_sum status <= Z.of_nat (length status))%Z.
Proof.
  induction 1 as [|s status [->| ->] HF IH]; simpl; lia.
Qed.

Lemma mem_In (v : nat) (s : list nat) : mem v s = true <-> In v s.
Proof.
  unfold mem. rewrite existsb_exists. split.
  - intros (x & Hx & E). apply Nat.eqb_eq in E. now subst.
  - intros H. exists v. split; [assumption|apply Nat.eqb_refl].
Qed.

(** The recovery phase never fails on a binary status, and leaves every
    entry as it was or sets it to zero. *)
Lemma recovery_inv (status0 : list Z) (gamma : Q) (w w1 : World) (status1 : list Z) :
  recovery status0 gamma w = (Ok status1, w1) ->
  length status1 = length status0 /\
  forall v, nth v status1 0%Z = nth v status0 0%Z \/ nth v status1 0%Z = 0%Z.
Proof.
  unfold recovery, bind, lift. intros E.
  destruct (rand (np_sum status0) w) as [[randvals|e] w'] eqn:Er; [|discriminate].
  destruct (take (np_where nonzero status0)
              (np_where (fun b : bool => b) (map (fun r => Qlt_bool r gamma) randvals)))
    as [recinds|e] eqn:Et; [|discriminate].
  destruct (put status0 recinds 0%Z) as [s1|e] eqn:Ep; inversion E; subst.
  destruct (put_spec 0%Z 0%Z recinds _ _ Ep) as (L & _ & Hn).
  split; [assumption|]. intros v.
  destruct (Nat.lt_ge_cases v (length status0)) as [Hv|Hv].
  - rewrite (Hn v Hv). destruct (mem v recinds); auto.
  - left. rewrite !nth_overflow; auto; lia.
Qed.

Lemma recovery_ok (status0 : list Z) (gamma : Q) (w : World) :
  binary status0 -> exists status1 w1, recovery status0 gamma w = (Ok status1, w1).
Proof.
  intros B. unfold recovery, bind, lift.
  destruct (rand_ok (np_sum status0) w) as (randvals & w1 & Er & Lr).
  { apply binary_sum_bounds; assumption. }
  rewrite Er.
  destruct (take_ok (np_where nonzero status0)
              (np_where (fun b : bool => b) (map (fun r => Qlt_bool r gamma) randvals)))
    as (recinds & Et & _ & Hin).
  { eapply Forall_impl; [|apply np_where_lt].
    intros j Hj. rewrite length_map, Lr in Hj.
    rewrite (binary_count _ B), Nat2Z.id in Hj. exact Hj. }
  rewrite Et.
  destruct (put_ok 0%Z recinds status0) as (status1 & Ep).
  { rewrite Forall_forall in Hin |- *. intros i Hi.
    pose proof (np_where_lt nonzero status0) as Hlt. rewrite Forall_forall in Hlt.
    apply Hlt. auto. }
  rewrite Ep. eauto.
Qed.

Lemma length_sum_axis0 (k : nat) (rows : list (list Z)) :
  Forall (fun r => length r = k) rows -> length (sum_axis0 k rows) = k.
Proof.
  induction 1 as [|r rows Hr HF IH]; simpl.
  - apply length_zeros.
  - unfold vadd. rewrite length_zip_with. fold (sum_axis0 k rows). lia.
Qed.

Lemma infected_in_neighbors_ok (n : nat) (adj : list (list Z)) (status1 : list Z) :
  0 < n -> square n adj -> length status1 = n ->
  exists kins, infected_in_neighbors adj status1 = Ok kins /\ length kins = n.
Proof.
  intros Hn [LA HF] L1. unfold infected_in_neighbors, mask_rows.
  destruct adj as [|row0 adj]; [simpl in LA; lia|].
  rewrite length_map, LA, L1, Nat.eqb_refl.
  eexists; split; [reflexivity|].
  assert (L0 : length (hd [] (row0 :: adj)) = n) by (inversion HF; auto).
  rewrite L0. apply length_sum_axis0.
  apply Forall_forall. intros r Hr.
  apply in_map_iff in Hr. destruct Hr as ([r' b] & <- & Hr).
  apply filter_In in Hr. destruct Hr as [Hr _].
  apply in_combine_l in Hr. rewrite Forall_forall in HF. auto.
Qed.

(** The infection phase leaves every entry as it was or sets it to one, and
    the latter only where the probability of infection is not zero. *)
Lemma infection_inv (adj : list (list Z)) (status1 : list Z) (beta : Q)
    (w1 w2 : World) (status2 : list Z) :
  infection adj status1 beta w1 = (Ok status2, w2) ->
  exists kins probs,
    infected_in_neighbors adj status1 = Ok kins /\
    infection_probs (map (fun _ => (1 - beta)%Q) adj) kins = Ok probs /\
    length status2 = length status1 /\
    forall v, nth v status2 0%Z = nth v status1 0%Z \/
              (nth v status2 0%Z = 1%Z /\ exists p, nth_error probs v = Some p /\
                                                   nonzeroQ p = true).
Proof.
  unfold infection, bind, lift. intros E.
  destruct (infected_in_neighbors adj status1) as [kins|e] eqn:Ek; [|discriminate].
  destruct (infection_probs (map (fun _ => (1 - beta)%Q) adj) kins)
    as [probs|e] eqn:Epr; [|discriminate].
  destruct (take probs (np_where nonzeroQ probs)) as [posprobs|e] eqn:Et; [|discriminate].
  destruct (rand (Z.of_nat (length posprobs)) w1) as [[randvals|e] w'] eqn:Er;
    [|discriminate].
  destruct (take (np_where nonzeroQ probs)
              (np_where (fun b : bool => b) (zip_with Qlt_bool randvals posprobs)))
    as [newids|e] eqn:Et2; [|discriminate].
  destruct (put status1 newids 1%Z) as [s2|e] eqn:Ep; inversion E; subst.
  exists kins, probs. split; [reflexivity|]. split; [assumption|].
  destruct (put_spec 1%Z 0%Z newids _ _ Ep) as (L & _ & Hn).
  split; [assumption|]. intros v.
  destruct (Nat.lt_ge_cases v (length status1)) as [Hv|Hv].
  - rewrite (Hn v Hv). destruct (mem v newids) eqn:Em; auto.
    right. split; [reflexivity|].
    apply mem_In in Em. apply take_In in Et2. rewrite Forall_forall in Et2.
    apply np_where_In. auto.
  - left. rewrite !nth_overflow; auto; lia.
Qed.

Lemma infection_probs_ok (q : list Q) (kins : list Z) :
  length q = length kins ->
  exists probs, infection_probs q kins = Ok probs /\ length probs = length kins.
Proof.
  intros H. unfold infection_probs. rewrite H, Nat.eqb_refl.
  eexists; split; [reflexivity|]. rewrite length_zip_with. lia.
Qed.

Lemma infection_ok (n : nat) (adj : list (list Z)) (status1 : list Z) (beta : Q)
    (w1 : World) :
  0 < n -> square n adj -> length status1 = n ->
  exists status2 w2, infection adj status1 beta w1 = (Ok status2, w2).
Proof.
  intros Hn SA L1. unfold infection, bind, lift.
  destruct (infected_in_neighbors_ok n adj status1 Hn SA L1) as (kins & -> & Lk).
  destruct (infection_probs_ok (map (fun _ => (1 - beta)%Q) adj) kins)
    as (probs & -> & Lp).
  { rewrite length_map. destruct SA; lia. }
  destruct (take_ok probs (np_where nonzeroQ probs) (np_where_lt _ _))
    as (posprobs & -> & Lpp & _).
  destruct (rand_ok (Z.of_nat (length posprobs)) w1) as (randvals & w2 & -> & Lr);
    [lia|].
  rewrite Nat2Z.id in Lr.
  destruct (take_ok (np_where nonzeroQ probs)
              (np_where (fun b : bool => b) (zip_with Qlt_bool randvals posprobs)))
    as (newids & -> & _ & Hin).
  { eapply Forall_impl; [|apply np_where_lt].
    intros j Hj. rewrite length_zip_with in Hj. lia. }
  destruct (put_ok 1%Z newids status1) as (status2 & ->); [|eauto].
  rewrite Forall_forall in Hin |- *. intros i Hi.
  pose proof (np_where_lt nonzeroQ probs) as Hlt. rewrite Forall_forall in Hlt.
  specialize (Hlt i (Hin i Hi)). lia.
Qed.

(** ** Shuffling *)

Lemma update_perm {X} (a x : X) (l : list X) :
  forall i, nth_error l i = Some a -> Permutation (a :: update i x l) (x :: l).
Proof.
  induction l as [|h t IH]; intros [|i] E; simpl in *; try discriminate.
  - inversion E; subst. apply perm_swap.
  - eapply perm_trans; [apply perm_swap|].
    eapply perm_trans; [apply perm_skip, IH, E|]. apply perm_swap.
Qed.

Lemma swap_perm {X} (i j : nat) (l : list X) : Permutation (swap i j l) l.
Proof.
  unfold swap.
  destruct (nth_error l i) as [a|] eqn:Ea; [|reflexivity].
  destruct (nth_error l j) as [b|] eqn:Eb; [|reflexivity].
  assert (Hi : i < length l) by (apply nth_error_Some; congruence).
  assert (Eb' : nth_error (update i b l) j = Some b).
  { destruct (Nat.eq_dec i j) as [<-|N].
    - now apply nth_error_update_eq.
    - rewrite nth_error_update_neq by assumption. assumption. }
  apply (Permutation_cons_inv (a := b)).
  eapply perm_trans; [apply (update_perm b a _ j Eb')|].
  apply (update_perm a b l i Ea).
Qed.

(** The shuffle never fails and returns a permutation of its argument. *)
Lemma shuffle_from_perm {X} (k : nat) :
  forall (x : list X) (w : World),
  exists y w', shuffle_from k x w = (Ok y, w') /\ Permutation y x /\ calls w' = calls w.
Proof.
  induction k as [|k IH]; intros x w; simpl.
  - exists x, w. split; [reflexivity|]. split; reflexivity.
  - unfold bind, next_raw.
    match goal with |- context [shuffle_from k ?a ?b] =>
      destruct (IH a b) as (y & w' & E & P & C) end.
    exists y, w'. split; [exact E|]. split; [|exact C].
    eapply perm_trans; [exact P|apply swap_perm].
Qed.

Lemma shuffle_perm {X} (x : list X) (w : World) :
  exists y w', shuffle x w = (Ok y, w') /\ Permutation y x /\ calls w' = calls w.
Proof. apply shuffle_from_perm. Qed.

(** ** The initial status *)

Lemma binary_zeros (n : nat) : binary (zeros n).
Proof.
  apply Forall_forall. intros s Hs. apply repeat_spec in Hs. auto.
Qed.

Lemma binary_put (status status' : list Z) (idx : list nat) (x : Z) :
  binary status -> (x = 0 \/ x = 1)%Z -> put status idx x = Ok status' ->
  binary status'.
Proof.
  intros B Hx E. destruct (put_spec x 0%Z idx _ _ E) as (L & _ & Hn).
  apply binary_of_nth. intros v Hv. rewrite L in Hv. rewrite (Hn v Hv).
  destruct (mem v idx); [assumption|]. now apply binary_nth.
Qed.

Lemma set_initial_status_inv (n : nat) (i0 : Z) (w w' : World) (status : list Z) :
  set_initial_status n i0 w = (Ok status, w') ->
  binary status /\ length status = n.
Proof.
  unfold set_initial_status, bind, lift. intros E.
  destruct (choice_without_replacement n i0 w) as [[choice|e] w1]; [|discriminate].
  destruct n as [|n]; [discriminate|].
  destruct (put (zeros (S n)) choice INFECTED) as [s|e] eqn:Ep; inversion E; subst.
  split.
  - eapply binary_put; [apply binary_zeros| |exact Ep]. now right.
  - destruct (put_spec INFECTED 0%Z choice _ _ Ep) as (L & _). now rewrite L, length_zeros.
Qed.

Lemma set_initial_status_ok (n : nat) (i0 : Z) (w : World) :
  0 < n -> (0 <= i0 <= Z.of_nat n)%Z ->
  exists status w', set_initial_status n i0 w = (Ok status, w').
Proof.
  intros Hn H. unfold set_initial_status, choice_without_replacement, bind, lift.
  destruct (Z.ltb_spec i0 0); [lia|].
  destruct (Z.ltb_spec (Z.of_nat n) i0); [lia|].
  destruct (shuffle_perm (seq 0 n) w) as (perm & w' & -> & P & _).
  unfold ret. destruct n as [|n']; [lia|]. set (n := S n') in *.
  destruct (put_ok INFECTED (firstn (Z.to_nat i0) perm) (zeros n)) as (status & ->);
    [|eauto].
  apply Forall_forall. intros i Hi. rewrite length_zeros.
  assert (Hin : In i perm).
  { rewrite <- (firstn_skipn (Z.to_nat i0) perm). apply in_or_app. now left. }
  apply (Permutation_in _ P) in Hin. apply in_seq in Hin. lia.
Qed.

(** ** One tick of the epidemic *)

Lemma infection_step_inv (adj : list (list Z)) (status0 : list Z) (beta gamma : Q)
    (w w2 : World) (status2 delta : list Z) :
  infection_step adj status0 beta gamma w = (Ok (status2, delta), w2) ->
  exists status1 w1,
    recovery status0 gamma w = (Ok status1, w1) /\
    infection adj status1 beta w1 = (Ok status2, w2) /\
    delta = vsub status2 status1.
Proof.
  unfold infection_step, bind, ret. intros E.
  destruct (recovery status0 gamma w) as [[status1|e] w1] eqn:Er; [|discriminate].
  destruct (infection adj status1 beta w1) as [[s2|e] w2'] eqn:Ei; inversion E; subst.
  exists status1, w1. split; [reflexivity|]. split; [assumption|reflexivity].
Qed.

Lemma infection_step_binary (adj : list (list Z)) (status0 : list Z) (beta gamma : Q)
    (w w2 : World) (status2 delta : list Z) :
  binary status0 ->
  infection_step adj status0 beta gamma w = (Ok (status2, delta), w2) ->
  binary status2 /\ length status2 = length status0.
Proof.
  intros B E.
  destruct (infection_step_inv _ _ _ _ _ _ _ _ E) as (status1 & w1 & Er & Ei & _).
  destruct (recovery_inv _ _ _ _ _ Er) as (L1 & H1).
  destruct (infection_inv _ _ _ _ _ _ Ei) as (kins & probs & _ & _ & L2 & H2).
  split; [|congruence].
  apply binary_of_nth. intros v _.
  destruct (H2 v) as [->|[-> _]]; [|now right].
  destruct (H1 v) as [->| ->]; [|now left].
  now apply binary_nth.
Qed.

Lemma infection_step_ok (n : nat) (adj : list (list Z)) (status0 : list Z)
    (beta gamma : Q) (w : World) :
  0 < n -> square n adj -> length status0 = n -> binary status0 ->
  exists status2 delta w2,
    infection_step adj status0 beta gamma w = (Ok (status2, delta), w2).
Proof.
  intros Hn SA L0 B. unfold infection_step, bind, ret.
  destruct (recovery_ok status0 gamma w B) as (status1 & w1 & Er). rewrite Er.
  destruct (recovery_inv _ _ _ _ _ Er) as (L1 & _).
  destruct (infection_ok n adj status1 beta w1 Hn SA) as (status2 & w2 & ->);
    [congruence|eauto].
Qed.




(** ** The loops of the epidemic *)

Lemma sis_trim_loop_binary (adj : list (list Z)) (beta gamma : Q) (k : nat) :
  forall status w status' w',
    binary status ->
    sis_trim_loop adj beta gamma k status w = (Ok status', w') ->
    binary status' /\ length status' = length status.
Proof.
  induction k as [|k IH]; intros status w status' w' B E; simpl in E.
  - inversion E; subst. auto.
  - unfold bind in E.
    destruct (infection_step adj status beta gamma w) as [[[s d]|e] w1] eqn:Es;
      [|discriminate].
    destruct (infection_step_binary _ _ _ _ _ _ _ _ B Es) as [B1 L1].
    destruct (IH _ _ _ _ B1 E) as [B2 L2]. split; [assumption|congruence].
Qed.

Lemma sis_trim_loop_ok (n : nat) (adj : list (list Z)) (beta gamma : Q) (k : nat) :
  0 < n -> square n adj ->
  forall status w, binary status -> length status = n ->
  exists status' w', sis_trim_loop adj beta gamma k status w = (Ok status', w').
Proof.
  intros Hn SA. induction k as [|k IH]; intros status w B L; simpl.
  - unfold ret. eauto.
  - unfold bind.
    destruct (infection_step_ok n adj status beta gamma w Hn SA L B)
      as (s & d & w1 & Es).
    rewrite Es. destruct (infection_step_binary _ _ _ _ _ _ _ _ B Es) as [B1 L1].
    apply IH; [assumption|congruence].
Qed.

Lemma sis_count_loop_binary (adj : list (list Z)) (beta gamma : Q) (k : nat) :
  forall status ninfec newinf w status' ninfec' newinf' w',
    binary status ->
    sis_count_loop adj beta gamma k status ninfec newinf w
    = (Ok (status', ninfec', newinf'), w') ->
    binary status' /\ length status' = length status.
Proof.
  induction k as [|k IH]; intros status ninfec newinf w status' ninfec' newinf' w' B E;
    simpl in E.
  - inversion E; subst. auto.
  - unfold bind in E.
    destruct (infection_step adj status beta gamma w) as [[[s d]|e] w1] eqn:Es;
      [|discriminate].
    destruct (infection_step_binary _ _ _ _ _ _ _ _ B Es) as [B1 L1].
    destruct (IH _ _ _ _ _ _ _ _ B1 E) as [B2 L2]. split; [assumption|congruence].
Qed.

Lemma square_get_adjacency (g : Graph) : square (vcount g) (get_adjacency g).
Proof.
  unfold get_adjacency. split.
  - now rewrite length_map, length_seq.
  - apply Forall_forall. intros row Hr. apply in_map_iff in Hr.
    destruct Hr as (i & <- & _). now rewrite length_map, length_seq.
Qed.

(** C8.  A tick maps a status vector with entries in {0, 1} to one with
    entries in {0, 1}, and so does every number of ticks from the initial
    status: the number of infected vertices stays between 0 and [n]. *)
Theorem C8_status_stays_binary
    (adj : list (list Z)) (beta gamma : Q) (status0 : list Z) (w : World) :
  binary status0 ->
  (forall status2 delta w2,
     infection_step adj status0 beta gamma w = (Ok (status2, delta), w2) ->
     binary status2 /\ length status2 = length status0 /\
     (0 <= np_sum status2 <= Z.of_nat (length status0))%Z) /\
  (forall n, 0 < n -> square n adj -> length status0 = n ->
     exists status2 delta w2,
       infection_step adj status0 beta gamma w = (Ok (status2, delta), w2)) /\
  (forall n i0 k w0, 0 < n -> square n adj -> (0 <= i0 <= Z.of_nat n)%Z ->
     exists status w',
       (s0 <- set_initial_status n i0 ;; sis_trim_loop adj beta gamma k s0) w0
       = (Ok status, w') /\
       binary status /\ length status = n /\
       (0 <= np_sum status <= Z.of_nat n)%Z) /\
  (forall k ninfec newinf status' ninfec' newinf' w',
     sis_count_loop adj beta gamma k status0 ninfec newinf w
     = (Ok (status', ninfec', newinf'), w') ->
     binary status' /\ length status' = length status0 /\
     (0 <= np_sum status' <= Z.of_nat (length status0))%Z).
Proof.
  intros B. split; [|split; [|split]].
  4:{ intros k ninfec newinf status' ninfec' newinf' w' E.
      destruct (sis_count_loop_binary _ _ _ _ _ _ _ _ _ _ _ _ B E) as [B' L'].
      split; [assumption|]. split; [assumption|].
      rewrite <- L'. now apply binary_sum_bounds. }
  - intros status2 delta w2 E.
    destruct (infection_step_binary _ _ _ _ _ _ _ _ B E) as [B2 L2].
    split; [assumption|]. split; [assumption|].
    rewrite <- L2. now apply binary_sum_bounds.
  - intros n Hn SA L. now apply (infection_step_ok n).
  - intros n i0 k w0 Hn SA Hi. unfold bind.
    destruct (set_initial_status_ok n i0 w0 Hn Hi) as (s0 & w1 & E0). rewrite E0.
    destruct (set_initial_status_inv _ _ _ _ _ E0) as [B0 L0].
    destruct (sis_trim_loop_ok n adj beta gamma k Hn SA s0 w1 B0 L0)
      as (status & w' & E).
    destruct (sis_trim_loop_binary _ _ _ _ _ _ _ _ B0 E) as [B1 L1].
    exists status, w'. split; [assumption|]. split; [assumption|].
    split; [congruence|].
    replace n with (length status) by congruence. now apply binary_sum_bounds.
Qed.

Lemma C8_status_stays_binary_witness :
  (exists status2 delta w2,
     infection_step [[0; 1; 1]; [0; 0; 1]; [1; 0; 0]]%Z [1; 0; 1]%Z (1 # 2) (1 # 3)
       (mkWorld (mkRandomState (fun i => Z.of_nat (5 * i)) 0) [])
     = (Ok (status2, delta), w2)) /\
  (exists status w',
     (s0 <- set_initial_status 3 2 ;;
      sis_trim_loop [[0; 1; 1]; [0; 0; 1]; [1; 0; 0]]%Z (1 # 2) (1 # 3) 4 s0)
       (mkWorld (mkRandomState (fun i => Z.of_nat (5 * i)) 0) [])
     = (Ok status, w') /\
     binary status /\ length status = 3 /\ (0 <= np_sum status <= Z.of_nat 3)%Z).
Proof.
  destruct (C8_status_stays_binary
              [[0; 1; 1]; [0; 0; 1]; [1; 0; 0]]%Z (1 # 2) (1 # 3) [1; 0; 1]%Z
              (mkWorld (mkRandomState (fun i => Z.of_nat (5 * i)) 0) []))
    as (_ & H2 & H3 & _).
  - repeat (constructor; [auto|]). constructor.
  - split.
    + apply (H2 3); [lia| |reflexivity].
      split; [reflexivity|]. repeat (constructor; [reflexivity|]). constructor.
    + apply H3; [lia| |lia].
      split; [reflexivity|]. repeat (constructor; [reflexivity|]). constructor.
Defined.

(** ** The final-tick scalars *)

(** C10.  When [tmax <= trimsz] the measurement loops run zero times:
    [simu_sis] never returns, and fails on the unbound [newinf] as soon as
    the initial status and the burn-in succeed; [simu_intandfire] returns
    the spike count of the last burn-in tick with a zero fire vector, or
    fails on the unbound [is_spiking] when there is no burn-in either (for a
    threshold and a graph in the range in which the charges are exact). *)
Theorem C10_final_tick_needs_a_measured_tick
    (gin : Graph) (beta gamma : Q) (i0 threshold trimsz tmax : Z) (w : World) :
  (tmax <= trimsz)%Z ->
  (forall r w', simu_sis gin beta gamma i0 trimsz tmax w = (r, w') ->
                exists e, r = Raise e) /\
  (forall status w1,
     (s0 <- set_initial_status (vcount gin) i0 ;;
      sis_trim_loop (get_adjacency gin) beta gamma (Z.to_nat trimsz) s0) w
     = (Ok status, w1) ->
     simu_sis gin beta gamma i0 trimsz tmax w
     = (Raise (UnboundLocalError "newinf"), w1)) /\
  (graph_wf gin -> get_edgelist gin <> [] ->
   threshold_in_range threshold -> graph_in_range gin ->
   exists A acc0 w',
     sparse_propagator gin = Ok A /\
     randint_size (charge_bound threshold) (vcount gin) w = (Ok acc0, w') /\
     (forall t, charges_in_range gin (charge_at A threshold acc0 t)) /\
     ((0 < trimsz)%Z ->
      simu_intandfire gin threshold tmax trimsz w
      = (Ok (zeros (vcount gin),
             np_sum_bool (spiking threshold
                            (charge_at A threshold acc0 (Z.to_nat trimsz - 1)))),
         w')) /\
     ((trimsz <= 0)%Z ->
      simu_intandfire gin threshold tmax trimsz w
      = (Raise (UnboundLocalError "is_spiking"), w'))).
Proof.
  intros Ht.
  assert (Hlen : Z.to_nat (tmax - trimsz) = 0) by lia.
  assert (Hsis : forall status w1,
            (s0 <- set_initial_status (vcount gin) i0 ;;
             sis_trim_loop (get_adjacency gin) beta gamma (Z.to_nat trimsz) s0) w
            = (Ok status, w1) ->
            simu_sis gin beta gamma i0 trimsz tmax w
            = (Raise (UnboundLocalError "newinf"), w1)).
  { intros status w1 E. unfold simu_sis. rewrite Hlen. unfold bind in *.
    destruct (set_initial_status (vcount gin) i0 w) as [[s0|e] w0]; [|discriminate].
    rewrite E. reflexivity. }
  split; [|split; [exact Hsis|]].
  - intros r w' E.
    destruct ((s0 <- set_initial_status (vcount gin) i0 ;;
               sis_trim_loop (get_adjacency gin) beta gamma (Z.to_nat trimsz) s0) w)
      as [[status|e] w1] eqn:Ep.
    + rewrite (Hsis _ _ eq_refl) in E. inversion E. eauto.
    + unfold simu_sis, bind in *.
      destruct (set_initial_status (vcount gin) i0 w) as [[s0|e0] w0].
      * rewrite Ep in E. inversion E. eauto.
      * inversion E. eauto.
  - intros WF NE Hthr Hg.
    destruct (charge_bound_in_range threshold Hthr) as (Hc1 & _ & Hc3).
    destruct (simu_intandfire_run gin threshold tmax trimsz w WF NE ltac:(lia))
      as (A & acc0 & w' & fires & EA & Er & L0 & Lf & Hz & _ & Erun).
    exists A, acc0, w'. split; [assumption|]. split; [assumption|].
    split; [intros t; apply (run_charges_in_range gin A threshold acc0 w w'); assumption|].
    rewrite Erun, (Hz Hlen), Hlen. unfold final_mask. split; intros Hs.
    + destruct (Z.to_nat trimsz) as [|b] eqn:Eb; [lia|].
      replace (S b - 1) with b by lia. reflexivity.
    + replace (Z.to_nat trimsz) with 0 by lia. reflexivity.
Qed.

Lemma C10_final_tick_needs_a_measured_tick_witness :
  simu_sis (mkGraph 3 [(0, 1); (1, 2); (2, 0)]) (1 # 2) (1 # 3) 1 2 2
    (mkWorld (mkRandomState (fun i => Z.of_nat i) 0) [])
  = (Raise (UnboundLocalError "newinf"),
     snd ((s0 <- set_initial_status 3 1 ;;
           sis_trim_loop (get_adjacency (mkGraph 3 [(0, 1); (1, 2); (2, 0)]))
             (1 # 2) (1 # 3) 2 s0)
            (mkWorld (mkRandomState (fun i => Z.of_nat i) 0) []))) /\
  (exists w',
     simu_intandfire
       (mkGraph 3 [(0, 1); (0, 1); (0, 1); (0, 1); (1, 2); (1, 2); (1, 2); (1, 2);
                   (2, 0); (2, 0); (2, 0); (2, 0)]) 4 2 2
       (mkWorld (mkRandomState (fun i => Z.of_nat (3 * i + 4)) 0) [])
     = (Ok (zeros 3, 1%Z), w')) /\
  (exists w',
     simu_intandfire
       (mkGraph 3 [(0, 1); (0, 1); (0, 1); (0, 1); (1, 2); (1, 2); (1, 2); (1, 2);
                   (2, 0); (2, 0); (2, 0); (2, 0)]) 4 0 0
       (mkWorld (mkRandomState (fun i => Z.of_nat (3 * i + 4)) 0) [])
     = (Raise (UnboundLocalError "is_spiking"), w')).
Proof.
  split; [|split].
  - destruct (C10_final_tick_needs_a_measured_tick
                (mkGraph 3 [(0, 1); (1, 2); (2, 0)]) (1 # 2) (1 # 3) 1 2 2 2
                (mkWorld (mkRandomState (fun i => Z.of_nat i) 0) []))
      as (_ & H2 & _); [lia|].
    destruct ((s0 <- set_initial_status 3 1 ;;
               sis_trim_loop (get_adjacency (mkGraph 3 [(0, 1); (1, 2); (2, 0)]))
                 (1 # 2) (1 # 3) 2 s0)
                (mkWorld (mkRandomState (fun i => Z.of_nat i) 0) []))
      as [[status|e] w1] eqn:E.
    + apply (H2 status w1). exact E.
    + vm_compute in E. discriminate.
  - destruct (C10_final_tick_needs_a_measured_tick
                (mkGraph 3 [(0, 1); (0, 1); (0, 1); (0, 1); (1, 2); (1, 2); (1, 2); (1, 2);
                            (2, 0); (2, 0); (2, 0); (2, 0)]) (1 # 2) (1 # 3) 1 4 2 2
                (mkWorld (mkRandomState (fun i => Z.of_nat (3 * i + 4)) 0) []))
      as (_ & _ & H3); [lia|].
    destruct H3 as (A & acc0 & w' & HA & Hr & _ & Hpos & _).
    + repeat constructor.
    + discriminate.
    + split; reflexivity.
    + reflexivity.
    + exists w'. rewrite (Hpos ltac:(lia)).
      vm_compute in HA. vm_compute in Hr.
      assert (EA : A = [[0; 0; 4]; [4; 0; 0]; [0; 4; 0]]%Z)
        by exact (f_equal (fun r => match r with Ok a => a | Raise _ => A end)
                    (eq_sym HA)).
      assert (Ea : acc0 = [4; 2; 0]%Z)
        by exact (f_equal (fun r => match fst r with Ok a => a | Raise _ => acc0 end)
                    (eq_sym Hr)).
      rewrite EA, Ea. reflexivity.
  - destruct (C10_final_tick_needs_a_measured_tick
                (mkGraph 3 [(0, 1); (0, 1); (0, 1); (0, 1); (1, 2); (1, 2); (1, 2); (1, 2);
                            (2, 0); (2, 0); (2, 0); (2, 0)]) (1 # 2) (1 # 3) 1 4 0 0
                (mkWorld (mkRandomState (fun i => Z.of_nat (3 * i + 4)) 0) []))
      as (_ & _ & H3); [lia|].
    destruct H3 as (A & acc0 & w' & _ & _ & _ & _ & Hzero).
    + repeat constructor.
    + discriminate.
    + split; reflexivity.
    + reflexivity.
    + exists w'. apply Hzero. lia.
Defined.

(** ** Choices along the walk *)

Lemma Qlt_bool_iff (x y : Q) : Qlt_bool x y = true <-> (x < y)%Q.
Proof.
  unfold Qlt_bool. rewrite negb_true_iff. split.
  - intros H. apply Qnot_le_lt. intros Hle. apply Qle_bool_iff in Hle. congruence.
  - intros H. destruct (Qle_bool y x) eqn:E; [|reflexivity].
    apply Qle_bool_iff in E. exfalso. now apply (Qlt_not_le x y).
Qed.

Lemma Qlt_bool_false (x y : Q) : Qlt_bool x y = false <-> (y <= x)%Q.
Proof.
  unfold Qlt_bool. rewrite negb_false_iff. apply Qle_bool_iff.
Qed.

Lemma random_sample_spec (w : World) :
  exists u w', random_sample w = (Ok u, w') /\ (0 <= u)%Q /\ (u < 1)%Q /\
               calls w' = calls w.
Proof.
  unfold random_sample, bind, next_raw, ret.
  eexists; eexists. split; [reflexivity|].
  pose proof (Z.mod_pos_bound (raw (rng w) (cursor (rng w))) two53 eq_refl) as [H0 H1].
  split; [|split; [|reflexivity]].
  - unfold Qle; simpl. lia.
  - unfold Qlt; simpl. unfold two53 in *. lia.
Qed.

(** The position found in the cumulative sums lies inside the array as soon
    as the draw is below their total. *)
Lemma searchsorted_right_lt (p : list Q) (u : Q) :
  forall acc, (acc <= u)%Q -> (u < acc + Qsum p)%Q ->
  searchsorted_right (cumsum_from acc p) u < length p.
Proof.
  induction p as [|x p IH]; intros acc Hle Hlt; simpl in *.
  - exfalso. rewrite Qplus_0_r in Hlt. now apply (Qlt_not_le u acc).
  - destruct (Qlt_bool u (acc + x)) eqn:E; [lia|].
    apply Qlt_bool_false in E.
    apply -> Nat.succ_lt_mono. apply IH; [assumption|].
    now rewrite <- Qplus_assoc.
Qed.

Lemma Qsum_normalized (s : Z) (row : list Z) :
  (Qsum (map (fun a => inject_Z a / inject_Z s) row)
   == inject_Z (np_sum row) / inject_Z s)%Q.
Proof.
  induction row as [|a row IH]; simpl.
  - unfold Qdiv. now rewrite Qmult_0_l.
  - rewrite IH, inject_Z_plus. unfold Qdiv. now rewrite Qmult_plus_distr_l.
Qed.

Lemma finite_Some (p : list Q) : finite (map Some p) = Some p.
Proof.
  induction p as [|x p IH]; simpl; [reflexivity|]. now rewrite IH.
Qed.

(** The row of a vertex in the transition matrix. *)
Lemma transition_row (adj : list (list Z)) (v : nat) (row : list Z) :
  nth_error adj v = Some row -> (np_sum row <> 0)%Z ->
  nth_error (transition_matrix adj) v
  = Some (map Some (map (fun a => inject_Z a / inject_Z (np_sum row))%Q row)).
Proof.
  intros E Hs. unfold transition_matrix. rewrite nth_error_map, E. simpl.
  f_equal. rewrite map_map. apply map_ext. intros a.
  destruct (Z.eqb_spec (np_sum row) 0); [contradiction|reflexivity].
Qed.

Lemma choice_p_normalized (n : nat) (row : list Z) (w : World) :
  length row = n -> Forall (fun a => 0 <= a)%Z row -> (0 < np_sum row)%Z ->
  exists j w',
    choice_p n (map Some (map (fun a => inject_Z a / inject_Z (np_sum row))%Q row)) w
    = (Ok j, w') /\ j < n /\ calls w' = calls w.
Proof.
  intros L Hpos Hs.
  assert (Hn : n <> 0).
  { intros ->. destruct row; simpl in *; [lia|discriminate]. }
  unfold choice_p. destruct n as [|n']; [contradiction|].
  rewrite !length_map, L, Nat.eqb_refl. cbn [negb].
  rewrite finite_Some.
  set (p := map (fun a => inject_Z a / inject_Z (np_sum row))%Q row).
  assert (Hs' : (0 < inject_Z (np_sum row))%Q).
  { unfold Qlt; simpl. lia. }
  assert (Hneg : existsb (fun x => Qlt_bool x 0) p = false).
  { apply not_true_is_false. intros H. apply existsb_exists in H.
    destruct H as (x & Hx & Hlt). apply Qlt_bool_iff in Hlt.
    apply in_map_iff in Hx. destruct Hx as (a & <- & Ha).
    rewrite Forall_forall in Hpos. specialize (Hpos a Ha).
    apply (Qlt_not_le _ _ Hlt). unfold Qdiv.
    apply Qmult_le_0_compat.
    - unfold Qle; simpl. lia.
    - apply Qinv_le_0_compat. now apply Qlt_le_weak. }
  rewrite Hneg.
  assert (Hone : (Qsum p == 1)%Q).
  { unfold p. rewrite Qsum_normalized. unfold Qdiv. apply Qmult_inv_r.
    intros H. rewrite H in Hs'. now apply (Qlt_irrefl 0). }
  apply Qeq_bool_iff in Hone as Hone'. rewrite Hone'. cbn [negb].
  unfold bind. destruct (random_sample_spec w) as (u & w' & -> & H0 & H1 & C).
  unfold ret. eexists; eexists. split; [reflexivity|]. split; [|assumption].
  replace (S n') with (length p) by (unfold p; now rewrite length_map).
  apply searchsorted_right_lt; [assumption|].
  now rewrite Qplus_0_l, Hone.
Qed.

(** ** WalkSimulator *)

Lemma count_edges_nonneg (es : list (nat * nat)) (e : nat * nat) :
  (0 <= count_edges es e)%Z.
Proof. unfold count_edges. lia. Qed.

Lemma edge_eqb_refl (e : nat * nat) : edge_eqb e e = true.
Proof. unfold edge_eqb. now rewrite !Nat.eqb_refl. Qed.

Lemma count_edges_In (es : list (nat * nat)) (e : nat * nat) :
  In e es -> (1 <= count_edges es e)%Z.
Proof.
  intros H. unfold count_edges.
  assert (Hin : In e (filter (edge_eqb e) es)).
  { apply filter_In. split; [assumption|apply edge_eqb_refl]. }
  destruct (filter (edge_eqb e) es); [contradiction|]. cbn [length]. lia.
Qed.

Lemma np_sum_ge_In (l : list Z) (x : Z) :
  Forall (fun a => 0 <= a)%Z l -> In x l -> (x <= np_sum l)%Z.
Proof.
  induction 1 as [|a l Ha HF IH]; simpl; [tauto|].
  assert (0 <= np_sum l)%Z by (clear -HF; induction HF; simpl; lia).
  intros [->|Hx]; [lia|]. specialize (IH Hx). lia.
Qed.

(** The rows of the adjacency matrix of a graph whose vertices all have
    positive degree. *)
Lemma adjacency_row (g : Graph) (v : nat) :
  graph_wf g -> positive_degree g -> v < vcount g ->
  exists row,
    nth_error (get_adjacency g) v = Some row /\ length row = vcount g /\
    Forall (fun a => 0 <= a)%Z row /\ (0 < np_sum row)%Z.
Proof.
  intros WF PD Hv.
  exists (map (fun j => count_edges (get_edgelist g) (v, j)) (seq 0 (vcount g))).
  split; [|split; [|split]].
  - unfold get_adjacency.
    rewrite nth_error_map, (nth_error_nth' _ 0) by now rewrite length_seq.
    now rewrite seq_nth.
  - now rewrite length_map, length_seq.
  - apply Forall_forall. intros a Ha. apply in_map_iff in Ha.
    destruct Ha as (j & <- & _). apply count_edges_nonneg.
  - destruct (PD v Hv) as (u & Hu).
    assert (Hlt : u < vcount g).
    { unfold graph_wf in WF. rewrite Forall_forall in WF. apply (WF (v, u) Hu). }
    pose proof (count_edges_In _ _ Hu) as H1.
    eapply Z.lt_le_trans; [|apply np_sum_ge_In with (x := count_edges (get_edgelist g) (v, u))].
    + lia.
    + apply Forall_forall. intros a Ha. apply in_map_iff in Ha.
      destruct Ha as (j & <- & _). apply count_edges_nonneg.
    + apply in_map_iff. exists u. split; [reflexivity|]. apply in_seq. lia.
Qed.

(** The walk never leaves the vertices and never fails. *)
Lemma walk_loop_ok (g : Graph) (k : nat) :
  graph_wf g -> positive_degree g ->
  forall cur w, cur < vcount g ->
  exists walk w',
    walk_loop (vcount g) (transition_matrix (get_adjacency g)) k cur w = (Ok walk, w') /\
    length walk = k /\ Forall (fun v => v < vcount g) walk.
Proof.
  intros WF PD. induction k as [|k IH]; intros cur w Hc; simpl.
  - exists [], w. split; [reflexivity|]. split; [reflexivity|constructor].
  - destruct (adjacency_row g cur WF PD Hc) as (row & Er & Lr & Hpos & Hs).
    rewrite (transition_row _ _ _ Er) by lia.
    unfold bind.
    destruct (choice_p_normalized (vcount g) row w Lr Hpos Hs) as (j & w1 & -> & Hj & _).
    destruct (IH j w1 Hj) as (walk & w2 & -> & Lw & Hw).
    exists (j :: walk), w2. split; [reflexivity|]. split; [simpl; lia|].
    constructor; assumption.
Qed.

Lemma bump_keys (v : nat) (acl : list (nat * nat)) (k : nat) :
  In k (map fst (bump v acl)) -> k = v \/ In k (map fst acl).
Proof.
  induction acl as [|[k0 c] r IH]; simpl.
  - intros [<-|[]]. now left.
  - destruct (Nat.ltb v k0); [|destruct (Nat.eqb v k0)]; simpl.
    + intros [<-|[<-|H]]; auto.
    + intros [<-|H]; auto.
    + intros [<-|H]; auto. destruct (IH H); auto.
Qed.

Lemma bump_sorted (v : nat) (acl : list (nat * nat)) :
  StronglySorted lt (map fst acl) -> StronglySorted lt (map fst (bump v acl)).
Proof.
  induction acl as [|[k c] r IH]; simpl; intros HS.
  - constructor; constructor.
  - apply StronglySorted_inv in HS. destruct HS as [HS HF].
    destruct (Nat.ltb_spec v k) as [Hlt|Hge]; [|destruct (Nat.eqb_spec v k) as [->|Hne]];
      simpl.
    + constructor; [constructor; assumption|].
      constructor; [assumption|]. eapply Forall_impl; [|exact HF]. simpl. lia.
    + constructor; assumption.
    + constructor; [now apply IH|].
      apply Forall_forall. intros k' Hk'. apply bump_keys in Hk'.
      destruct Hk' as [->|Hk']; [lia|]. rewrite Forall_forall in HF. now apply HF.
Qed.

Lemma bump_total (v : nat) (acl : list (nat * nat)) :
  list_sum (map snd (bump v acl)) = S (list_sum (map snd acl)).
Proof.
  induction acl as [|[k c] r IH]; simpl; [reflexivity|].
  destruct (Nat.ltb v k); [|destruct (Nat.eqb v k)]; simpl; lia.
Qed.

(** The values are distinct and increasing, they occur in the array, and
    the counts add up to the length of the array. *)
Lemma np_unique_counts_spec (a : list nat) :
  StronglySorted lt (map fst (np_unique_counts a)) /\
  (forall k, In k (map fst (np_unique_counts a)) -> In k a) /\
  list_sum (map snd (np_unique_counts a)) = length a.
Proof.
  induction a as [|v a (HS & Hk & Ht)]; simpl.
  - split; [constructor|]. split; [tauto|reflexivity].
  - split; [now apply bump_sorted|]. split.
    + intros k H. apply bump_keys in H. destruct H; auto.
    + now rewrite bump_total, Ht.
Qed.

Lemma np_sum_update (x : Z) (l : list Z) :
  forall i, i < length l -> np_sum (update i x l) = (np_sum l - nth i l 0 + x)%Z.
Proof.
  induction l as [|h t IH]; intros [|i] H; simpl in *; try lia.
  rewrite IH by lia. lia.
Qed.

(** Storing counts at distinct positions of an array that is zero there adds
    the counts to its sum. *)
Lemma store_counts_sum (vcs : list (nat * nat)) :
  forall visits,
    StronglySorted lt (map fst vcs) ->
    Forall (fun k => k < length visits /\ nth k visits 0%Z = 0%Z) (map fst vcs) ->
    exists visits',
      store_counts visits vcs = Ok visits' /\ length visits' = length visits /\
      np_sum visits' = (np_sum visits + Z.of_nat (list_sum (map snd vcs)))%Z.
Proof.
  induction vcs as [|[v c] r IH]; intros visits HS HF; simpl in *.
  - exists visits. split; [reflexivity|]. split; [reflexivity|lia].
  - apply StronglySorted_inv in HS. destruct HS as [HS Hgt].
    inversion HF as [|? ? [Hv Hz] HF']; subst.
    rewrite set_nth_lt by assumption.
    destruct (IH (update v (Z.of_nat c) visits) HS) as (visits' & E & L & Hsum).
    { rewrite Forall_forall in *. intros k Hk.
      destruct (HF' k Hk) as [Hk1 Hk2]. specialize (Hgt k Hk).
      rewrite length_update, nth_update_neq by lia. auto. }
    exists visits'. split; [assumption|]. split; [now rewrite L, length_update|].
    rewrite Hsum, np_sum_update, Hz by assumption. lia.
Qed.

Lemma length_slice_from (z : Z) (walk : list nat) :
  (0 <= z <= Z.of_nat (length walk))%Z ->
  Z.of_nat (length (slice_from z walk)) = (Z.of_nat (length walk) - z)%Z.
Proof.
  intros H. unfold slice_from. destruct (Z.ltb_spec z 0); [lia|].
  rewrite length_skipn. lia.
Qed.

Lemma randint_ok (high : Z) (w : World) :
  (0 < high)%Z ->
  exists r w', randint 0 high w = (Ok r, w') /\ (0 <= r < high)%Z.
Proof.
  intros H. unfold randint, bind, next_raw, ret.
  destruct (Z.leb_spec high 0); [lia|].
  eexists; eexists. split; [reflexivity|].
  rewrite Z.sub_0_r.
  pose proof (Z.mod_pos_bound (raw (rng w) (cursor (rng w))) high H). lia.
Qed.

Lemma In_slice_from (z : Z) (walk : list nat) (v : nat) :
  In v (slice_from z walk) -> In v walk.
Proof.
  unfold slice_from. destruct (z <? 0)%Z; intros H;
    match type of H with In _ (skipn ?k _) =>
      rewrite <- (firstn_skipn k walk); apply in_or_app; now right end.
Qed.

(** C1 (amended).  On a graph with at least one vertex in which every
    vertex has positive degree, and for [0 <= trimsz <= walklen], the walk
    simulator returns a vector of [n] visit counts whose sum is
    [walklen + 1 - trimsz]: the walk holds its start vertex and the
    [walklen] vertices reached after it. *)
Theorem C1_walk_visits_total (idx : nat) (g : Graph) (walklen trimsz : Z) (w : World) :
  graph_wf g -> 0 < vcount g -> positive_degree g ->
  (0 <= trimsz <= walklen)%Z ->
  exists visits w',
    simu_walk idx g walklen trimsz w = (Ok visits, w') /\
    length visits = vcount g /\
    np_sum visits = (walklen + 1 - trimsz)%Z.
Proof.
  intros WF Hn PD Ht. unfold simu_walk.
  destruct (get_adjacency g) as [|row0 rows] eqn:Eadj.
  { pose proof (square_get_adjacency g) as [L _]. rewrite Eadj in L. simpl in L. lia. }
  rewrite <- Eadj. unfold bind.
  destruct (randint_ok (Z.of_nat (vcount g)) w) as (r & w1 & -> & Hr); [lia|].
  unfold randomwalk.
  destruct (Z.ltb_spec (walklen + 1) 0); [lia|].
  destruct (Z.eqb_spec (walklen + 1) 0); [lia|].
  assert (Hw : length (hd [] (transition_matrix (get_adjacency g))) = vcount g).
  { rewrite Eadj. simpl. rewrite length_map.
    pose proof (square_get_adjacency g) as [_ HF]. rewrite Eadj in HF.
    now inversion HF. }
  rewrite Hw. unfold bind.
  destruct (walk_loop_ok g (Z.to_nat walklen) WF PD (Z.to_nat r) w1) as
    (rest & w2 & -> & Lrest & Hrest); [lia|].
  unfold ret, lift.
  set (walk := Z.to_nat r :: rest).
  assert (Lwalk : Z.of_nat (length walk) = (walklen + 1)%Z) by (unfold walk; simpl; lia).
  assert (Hwalk : Forall (fun v => v < vcount g) walk).
  { constructor; [lia|assumption]. }
  destruct (np_unique_counts_spec (slice_from trimsz walk)) as (HS & Hk & Hsum).
  destruct (store_counts_sum (np_unique_counts (slice_from trimsz walk))
              (zeros (vcount g)) HS) as (visits & -> & Lv & Hv).
  { apply Forall_forall. intros k Hin. rewrite length_zeros, nth_zeros.
    split; [|reflexivity].
    rewrite Forall_forall in Hwalk. apply Hwalk.
    apply (In_slice_from trimsz). now apply Hk. }
  exists visits, w2. split; [reflexivity|]. split; [now rewrite Lv, length_zeros|].
  rewrite Hv, np_sum_zeros, Hsum, length_slice_from by lia. lia.
Qed.

Lemma C1_walk_visits_total_witness :
  exists visits w',
    simu_walk 0 (mkGraph 3 [(0, 1); (1, 2); (2, 0); (0, 2)]) 10 3
      (mkWorld (mkRandomState (fun i => Z.of_nat i) 0) []) = (Ok visits, w') /\
    length visits = 3 /\
    np_sum visits = (10 + 1 - 3)%Z.
Proof.
  apply (C1_walk_visits_total 0 (mkGraph 3 [(0, 1); (1, 2); (2, 0); (0, 2)]) 10 3).
  - repeat constructor.
  - simpl; lia.
  - intros v Hv. simpl in Hv.
    destruct v as [|[|[|v]]]; [exists 1|exists 2|exists 0|lia]; simpl; auto.
  - lia.
Defined.

(** C1 (as stated) fails: a walk of length 10 trimmed by 3 on a graph of
    three vertices of positive degree counts 8 visits, not 7. *)
Lemma C1_sum_is_not_walklen_minus_trimsz :
  ~ (forall (g : Graph) (walklen trimsz : Z) (w : World) (visits : list Z) (w' : World),
       graph_wf g -> positive_degree g -> (0 <= trimsz <= walklen)%Z ->
       simu_walk 0 g walklen trimsz w = (Ok visits, w') ->
       np_sum visits = (walklen - trimsz)%Z).
Proof.
  intros H.
  specialize (H (mkGraph 3 [(0, 1); (1, 2); (2, 0); (0, 2)]) 10%Z 3%Z
                (mkWorld (mkRandomState (fun i => Z.of_nat i) 0) [])).
  destruct (simu_walk 0 (mkGraph 3 [(0, 1); (1, 2); (2, 0); (0, 2)]) 10 3
              (mkWorld (mkRandomState (fun i => Z.of_nat i) 0) []))
    as [[visits|e] w'] eqn:E; [|vm_compute in E; discriminate].
  specialize (H visits w').
  assert (Hsum : np_sum visits = 8%Z).
  { vm_compute in E. inversion E. reflexivity. }
  rewrite Hsum in H. 
  assert (8 = 10 - 3)%Z; [|lia].
  apply H; [repeat constructor| |lia|reflexivity].
  intros v Hv. simpl in Hv.
  destruct v as [|[|[|v]]]; [exists 1|exists 2|exists 0|lia]; simpl; auto.
Qed.

(** ** Reachability *)



(** Soundness of [expand]: what is found beyond [s] is the head of an edge. *)
Lemma expand_heads (es : list (nat * nat)) (k : nat) :
  forall s v, In v (expand k es s) -> In v s \/ exists a, In (a, v) es.
Proof.
  induction k as [|k IH]; intros s v H; simpl in H; [now left|].
  destruct (IH _ _ H) as [Hin|Hex]; [|now right].
  apply in_app_or in Hin. destruct Hin as [Hin|Hin]; [now left|right].
  unfold successors in Hin. apply in_map_iff in Hin.
  destruct Hin as ([a b] & <- & Hf). apply filter_In in Hf. exists a. apply Hf.
Qed.

(** Nothing is found from a set of vertices that no edge leaves. *)
Lemma expand_sink (es : list (nat * nat)) (k : nat) (s : list nat) :
  (forall u, In u s -> ~ In u (map fst es)) ->
  forall v, In v (expand k es s) -> In v s.
Proof.
  intros Hs. induction k as [|k IH]; intros v H; simpl in H; [assumption|].
  assert (E : successors es s = []).
  { unfold successors.
    destruct (filter (fun e => mem (fst e) s) es) as [|e l] eqn:Ef; [reflexivity|].
    assert (He : In e (filter (fun e => mem (fst e) s) es)) by (rewrite Ef; now left).
    apply filter_In in He. destruct He as [He Hm]. apply mem_In in Hm.
    exfalso. apply (Hs _ Hm). now apply in_map. }
  rewrite E, app_nil_r in H. now apply IH.
Qed.

Lemma covers_spec (n : nat) (s : list nat) :
  covers n s = true <-> forall v, v < n -> In v s.
Proof.
  unfold covers. rewrite forallb_forall. split.
  - intros H v Hv. apply mem_In, H, in_seq. lia.
  - intros H v Hv. apply mem_In, H. apply in_seq in Hv. lia.
Qed.

Lemma walk_app (es : list (nat * nat)) (a b c j k : nat) :
  walk es a b j -> walk es b c k -> walk es a c (j + k).
Proof.
  induction 1 as [|u v w0 j0 He W IH]; intros W2; simpl; [assumption|].
  econstructor; eauto.
Qed.


Lemma walk_reverse (es : list (nat * nat)) (a b j : nat) :
  walk es a b j -> walk (reverse_edges es) b a j.
Proof.
  induction 1 as [|u v w0 j0 He W IH]; [constructor|].
  replace (S j0) with (j0 + 1) by lia.
  apply (walk_app _ _ v); [assumption|].
  econstructor; [|constructor].
  unfold reverse_edges. apply in_map_iff. exists (u, v). auto.
Qed.

(** ** Cycles *)

Lemma chain_edges_cons (a b : nat) (l : list nat) :
  chain_edges (a :: b :: l) = (a, b) :: chain_edges (b :: l).
Proof. reflexivity. Qed.

Lemma map_fst_chain_edges (l : list nat) (x : nat) :
  map fst (chain_edges (l ++ [x])) = l.
Proof.
  induction l as [|a l IH]; [reflexivity|].
  destruct l as [|b l]; [reflexivity|].
  change ((a :: b :: l) ++ [x]) with (a :: b :: (l ++ [x])).
  rewrite chain_edges_cons. simpl map. f_equal. exact IH.
Qed.

Lemma map_fst_cycle_edges (vs : list nat) : map fst (cycle_edges vs) = vs.
Proof.
  destruct vs as [|v0 t]; [reflexivity|]. apply map_fst_chain_edges.
Qed.





(** ** ConnectivityPreservingPruner *)

Lemma remove_nth_perm {X} (l : list X) :
  forall k e, nth_error l k = Some e -> Permutation l (e :: remove_nth k l).
Proof.
  induction l as [|h t IH]; intros [|k] e E; simpl in *; try discriminate.
  - inversion E. reflexivity.
  - eapply perm_trans; [apply perm_skip, (IH _ _ E)|]. apply perm_swap.
Qed.

Lemma delete_edge_ok (g : Graph) (eid : nat) :
  eid < ecount g ->
  exists e,
    nth_error (get_edgelist g) eid = Some e /\
    delete_edge g eid = Ok (mkGraph (vcount g) (remove_nth eid (get_edgelist g))) /\
    Permutation (get_edgelist g) (e :: remove_nth eid (get_edgelist g)).
Proof.
  intros H. unfold delete_edge. destruct (Nat.ltb_spec eid (ecount g)); [|lia].
  destruct (nth_error (get_edgelist g) eid) as [e|] eqn:E.
  - exists e. split; [reflexivity|]. split; [reflexivity|]. now apply remove_nth_perm.
  - apply nth_error_None in E. unfold ecount in H. lia.
Qed.

Lemma delete_edge_ecount (g newg : Graph) (eid : nat) :
  delete_edge g eid = Ok newg ->
  ecount newg + 1 = ecount g /\ vcount newg = vcount g.
Proof.
  unfold delete_edge. destruct (Nat.ltb_spec eid (ecount g)) as [H|H]; [|discriminate].
  intros E. inversion E; subst; clear E.
  destruct (delete_edge_ok g eid H) as (e & _ & _ & P).
  apply Permutation_length in P. unfold ecount in *. simpl in *. lia.
Qed.


(** The loop is exhausted when no removal keeps the graph strongly
    connected. *)
Lemma try_remove_none (g : Graph) (eids : list nat) :
  forall ntries,
    Forall (fun e => exists g', delete_edge g e = Ok g' /\ is_connected g' = false) eids ->
    try_remove g eids ntries = Raise (Exception EmptyString).
Proof.
  induction eids as [|e eids IH]; intros ntries HF; simpl; [reflexivity|].
  inversion HF as [|? ? (g' & Hd' & Hc') HF']; subst.
  rewrite Hd', Hc'. now apply IH.
Qed.





(** On a directed cycle of at least two vertices, no removal keeps the
    graph strongly connected. *)
Lemma every_removal_disconnects (g : Graph) (eid : nat) :
  single_directed_cycle g -> 2 <= vcount g -> eid < ecount g ->
  exists newg, delete_edge g eid = Ok newg /\ is_connected newg = false.
Proof.
  intros (vs & [Hn Pv] & P) H2 H.
  destruct (delete_edge_ok g eid H) as ([u x] & _ & Hd & Pe).
  eexists. split; [exact Hd|].
  set (rest := remove_nth eid (get_edgelist g)) in *.
  assert (Psrc : Permutation (u :: map fst rest) (seq 0 (vcount g))).
  { eapply perm_trans; [|exact Pv].
    rewrite <- (map_fst_cycle_edges vs).
    eapply perm_trans; [|apply Permutation_map, P].
    apply Permutation_sym. apply (Permutation_map fst) in Pe. exact Pe. }
  assert (ND : NoDup (u :: map fst rest)).
  { apply (Permutation_NoDup (Permutation_sym Psrc)), seq_NoDup. }
  assert (Hu : u < vcount g).
  { assert (Hin : In u (seq 0 (vcount g))) by (apply (Permutation_in _ Psrc); now left).
    apply in_seq in Hin. lia. }
  inversion ND as [|? ? Hnot _]; subst.
  unfold is_connected. simpl vcount. simpl get_edgelist.
  destruct (vcount g) as [|n'] eqn:En; [lia|].
  apply andb_false_iff.
  destruct (Nat.eq_dec u 0) as [->|Nu].
  - left. apply not_true_is_false. intros Hc.
    rewrite covers_spec in Hc. specialize (Hc 1 ltac:(lia)).
    apply expand_sink in Hc.
    + destruct Hc as [Hc|[]]. discriminate.
    + intros v [<-|[]]. exact Hnot.
  - right. apply not_true_is_false. intros Hc.
    rewrite covers_spec in Hc. specialize (Hc u Hu).
    apply expand_heads in Hc. destruct Hc as [[Hc|[]]|(a & Ha)]; [congruence|].
    apply Hnot. unfold reverse_edges in Ha. apply in_map_iff in Ha.
    destruct Ha as ([b c] & E & Hin). simpl in E. inversion E; subst.
    apply in_map_iff. exists (u, a). auto.
Qed.



(** C4.  On a graph that is a single directed cycle (of at least two
    vertices) the pruner raises its exhaustion error whatever the shuffled
    order is, and so never returns a graph. *)
Theorem C4_single_cycle_exhausts_pruner (g : Graph) (w : World) :
  single_directed_cycle g -> 2 <= vcount g ->
  (exists w', remove_arc_conn g w = (Raise (Exception EmptyString), w')) /\
  (forall newg k w', remove_arc_conn g w <> (Ok (newg, k), w')) /\
  (forall eid, eid < ecount g ->
     exists newg, delete_edge g eid = Ok newg /\ is_connected newg = false).
Proof.
  intros HC H2.
  assert (Hall : forall eid, eid < ecount g ->
            exists newg, delete_edge g eid = Ok newg /\ is_connected newg = false).
  { intros eid He. now apply every_removal_disconnects. }
  destruct (shuffle_perm (seq 0 (ecount g)) w) as (order & w' & Es & P & _).
  assert (E : remove_arc_conn g w = (Raise (Exception EmptyString), w')).
  { unfold remove_arc_conn, bind, lift. rewrite Es.
    rewrite try_remove_none; [reflexivity|].
    apply Forall_forall. intros eid Hin. apply Hall.
    apply (Permutation_in _ P) in Hin. apply in_seq in Hin. lia. }
  split; [eauto|]. split; [|exact Hall].
  intros newg k w''. rewrite E. discriminate.
Qed.

Lemma C4_single_cycle_exhausts_pruner_witness :
  exists w',
    remove_arc_conn (mkGraph 4 [(2, 3); (0, 1); (3, 0); (1, 2)])
      (mkWorld (mkRandomState (fun i => Z.of_nat (3 * i)) 0) [])
    = (Raise (Exception EmptyString), w').
Proof.
  apply (C4_single_cycle_exhausts_pruner
           (mkGraph 4 [(2, 3); (0, 1); (3, 0); (1, 2)])
           (mkWorld (mkRandomState (fun i => Z.of_nat (3 * i)) 0) [])).
  - exists [0; 1; 2; 3]. split.
    + split; [simpl; lia|reflexivity].
    + simpl.
      apply Permutation_sym.
      apply (Permutation_cons_app [(2, 3)] [(3, 0); (1, 2)]).
      apply (Permutation_cons_app [(2, 3); (3, 0)] []).
      reflexivity.
  - simpl; lia.
Defined.

(** A single vertex with a loop stays strongly connected without its loop:
    the pruner removes it at the first attempt. *)
Lemma single_loop_is_removed (w : World) :
  exists w', remove_arc_conn (mkGraph 1 [(0, 0)]) w = (Ok (mkGraph 1 [], 1%Z), w').
Proof.
  exists w. reflexivity.
Qed.



(** ** ExperimentDriver *)

Lemma initial_check_too_many (nbatches batchsz : Z) (g : Graph) :
  (3 * Z.of_nat (ecount g) < 4 * (nbatches * batchsz))%Z ->
  initial_check nbatches batchsz g = Raise (Exception "Too may arcs to be removed.").
Proof.
  intros H. unfold initial_check.
  destruct (Z.ltb_spec (3 * Z.of_nat (ecount g)) (4 * (nbatches * batchsz))); [reflexivity|lia].
Qed.

Lemma initial_check_raises (nbatches batchsz : Z) (g : Graph) :
  (3 * Z.of_nat (ecount g) < 4 * (nbatches * batchsz))%Z \/ is_connected g = false ->
  initial_check nbatches batchsz g = Raise (Exception "Too may arcs to be removed.") \/
  initial_check nbatches batchsz g
  = Raise (Exception "Initial graph is not strongly connected.").
Proof.
  intros H. unfold initial_check.
  destruct (Z.ltb_spec (3 * Z.of_nat (ecount g)) (4 * (nbatches * batchsz)));
    [now left|].
  destruct H as [H|H]; [lia|]. rewrite H. now right.
Qed.

(** C6.  When [nbatches * batchsz] exceeds three quarters of the number of
    edges of the initial graph, or that graph is not strongly connected,
    [initial_check] raises, and [run_experiment] (with [nbatches >= 0])
    raises that error in the state left by the graph generation, before any
    simulator is entered; 10 batches of one removal on a graph of 5 edges
    are refused.  A negative [nbatches] is refused before the check, by the
    array of attempts: [np.zeros] raises for a negative length, and the
    store into the empty array raises for [nbatches = -1]. *)
Theorem C6_configuration_is_checked_before_simulation
    (generate_data : string -> nat -> Z -> M Graph)
    (top : string) (n : nat) (k : Z) (mode : degmode) (nbatches batchsz : Z)
    (trimrel : Q) (wepochs fepochs fthesh eepochs : Z) (ei0 ebeta egamma : Q)
    (w : World) :
  (forall g,
     (3 * Z.of_nat (ecount g) < 4 * (nbatches * batchsz))%Z \/ is_connected g = false ->
     initial_check nbatches batchsz g = Raise (Exception "Too may arcs to be removed.") \/
     initial_check nbatches batchsz g
     = Raise (Exception "Initial graph is not strongly connected.")) /\
  (forall gorig tries w1,
     generate_loop generate_data top n k 102 0 w = (Ok (gorig, tries), w1) ->
     (0 <= nbatches)%Z ->
     (3 * Z.of_nat (ecount (to_directed gorig)) < 4 * (nbatches * batchsz))%Z \/
     is_connected (to_directed gorig) = false ->
     exists e,
       run_experiment generate_data top n k mode nbatches batchsz trimrel
         wepochs fepochs fthesh eepochs ei0 ebeta egamma w = (Raise e, w1) /\
       initial_check nbatches batchsz (to_directed gorig) = Raise e /\
       (e = Exception "Too may arcs to be removed." \/
        e = Exception "Initial graph is not strongly connected.")) /\
  (forall gorig tries w1,
     generate_loop generate_data top n k 102 0 w = (Ok (gorig, tries), w1) ->
     (nbatches < 0)%Z ->
     run_experiment generate_data top n k mode nbatches batchsz trimrel
       wepochs fepochs fthesh eepochs ei0 ebeta egamma w
     = (Raise (if (nbatches =? -1)%Z then IndexError else ValueError), w1)) /\
  (forall g, ecount g = 5 ->
     initial_check 10 1 g = Raise (Exception "Too may arcs to be removed.")).
Proof.
  split; [|split; [|split]].
  - intros g H. now apply initial_check_raises.
  - intros gorig tries w1 Eg Hnb H. unfold run_experiment, bind. rewrite Eg.
    destruct (Z.ltb_spec (nbatches + 1) 0) as [Hneg|_]; [lia|].
    destruct (Z.eqb_spec (nbatches + 1) 0) as [Hz|_]; [lia|].
    unfold ret, lift.
    destruct (initial_check_raises nbatches batchsz (to_directed gorig) H) as [E|E];
      rewrite E; eexists; (split; [reflexivity|]); (split; [reflexivity|]);
      [now left|now right].
  - intros gorig tries w1 Eg Hnb. unfold run_experiment, bind. rewrite Eg.
    destruct (Z.eqb_spec nbatches (-1)) as [->|Hne]; [reflexivity|].
    destruct (Z.ltb_spec (nbatches + 1) 0) as [_|Hpos]; [reflexivity|lia].
  - intros g Hg. apply initial_check_too_many. rewrite Hg. lia.
Qed.

Lemma C6_configuration_is_checked_before_simulation_witness :
  exists e w1,
    run_experiment (fun _ _ _ => ret (mkGraph 3 [(0, 1); (1, 2); (2, 0)]))
      "la" 3 2 DegOut 10 1 (1 # 10) 10 10 2 10 (1 # 3) (1 # 2) (1 # 2)
      (mkWorld (mkRandomState (fun i => Z.of_nat i) 0) []) = (Raise e, w1) /\
    calls w1 = [] /\
    (e = Exception "Too may arcs to be removed." \/
     e = Exception "Initial graph is not strongly connected.").
Proof.
  destruct (C6_configuration_is_checked_before_simulation
              (fun _ _ _ => ret (mkGraph 3 [(0, 1); (1, 2); (2, 0)]))
              "la" 3 2 DegOut 10 1 (1 # 10) 10 10 2 10 (1 # 3) (1 # 2) (1 # 2)
              (mkWorld (mkRandomState (fun i => Z.of_nat i) 0) []))
    as (_ & H & _).
  destruct (H (mkGraph 3 [(0, 1); (1, 2); (2, 0)]) 1%Z
              (mkWorld (mkRandomState (fun i => Z.of_nat i) 0) []))
    as (e & E & _ & He).
  - reflexivity.
  - lia.
  - left. vm_compute. reflexivity.
  - exists e, (mkWorld (mkRandomState (fun i => Z.of_nat i) 0) []).
    split; [exact E|]. split; [reflexivity|]. exact He.
Defined.

(** * Further properties of the code *)

(** ** find_closest_factors *)

Lemma factor_search_spec (n : Z) (m : nat) (d : Z) :
  factor_search m n = inr d ->
  (1 <= d <= Z.of_nat m)%Z /\ (n mod d = 0)%Z /\
  forall d', (d < d' <= Z.of_nat m)%Z -> (n mod d' <> 0)%Z.
Proof.
  induction m as [|m IH]; [discriminate|].
  cbn [factor_search].
  destruct (Z.eqb_spec (n mod Z.of_nat (S m)) 0) as [E|E].
  - intros H; inversion H; subst. split; [lia|]. split; [assumption|]. intros; lia.
  - intros H. destruct (IH H) as (Hd & Hm & Hmax).
    split; [lia|]. split; [assumption|].
    intros d' Hd'. destruct (Z.eq_dec d' (Z.of_nat (S m))) as [->|N]; [assumption|].
    apply Hmax. lia.
Qed.

Lemma factor_search_total (n : Z) (m : nat) :
  1 <= m -> exists d, factor_search m n = inr d.
Proof.
  induction m as [|m IH]; [lia|]. intros _.
  cbn [factor_search].
  destruct (Z.eqb_spec (n mod Z.of_nat (S m)) 0) as [E|E]; [eauto|].
  destruct m as [|m'].
  - exfalso. apply E. apply Z.mod_1_r.
  - apply IH. lia.
Qed.

(** X1.  For [1 <= n < 2^52], where the float square root truncates to the
    integer square root and the float quotient of [n] by a divisor is exact,
    the function returns [(m, n/m)] where [m] is the largest divisor of [n]
    that does not exceed the square root of [n]: the two factors multiply to
    [n], [m <= n/m], and no divisor of [n] lies between [m] and the square
    root. *)
Theorem X1_find_closest_factors_returns_largest_small_divisor (n : Z) :
  (1 <= n < 2 ^ 52)%Z ->
  exists m,
    find_closest_factors n = inr (m, (inject_Z n / inject_Z m)%Q) /\
    (inject_Z n / inject_Z m == inject_Z (n / m))%Q /\
    (1 <= m)%Z /\ (m * m <= n)%Z /\ (m * (n / m) = n)%Z /\ (m <= n / m)%Z /\
    forall d, (m < d)%Z -> (d * d <= n)%Z -> (n mod d <> 0)%Z.
Proof.
  intros [Hn _]. unfold find_closest_factors.
  destruct (Z.ltb_spec n 0); [lia|].
  pose proof (Z.sqrt_spec n ltac:(lia)) as [Hlo Hhi].
  assert (Hs : (1 <= Z.sqrt n)%Z).
  { destruct (Z.le_gt_cases 1 (Z.sqrt n)); [assumption|]. nia. }
  destruct (factor_search_total n (Z.to_nat (Z.sqrt n)) ltac:(lia)) as (m & Em).
  rewrite Em. exists m. split; [reflexivity|].
  destruct (factor_search_spec _ _ _ Em) as (Hm & Hdiv & Hmax).
  rewrite Z2Nat.id in Hm, Hmax by lia.
  assert (Hmul : (m * (n / m) = n)%Z).
  { pose proof (Z.div_mod n m ltac:(lia)). lia. }
  split.
  { rewrite <- Hmul at 1. rewrite inject_Z_mult. field.
    intros H0. unfold Qeq in H0. simpl in H0. lia. }
  split; [lia|]. split; [nia|]. split; [assumption|]. split.
  - assert (m * m <= n)%Z by nia.
    destruct (Z.le_gt_cases m (n / m)); [assumption|]. nia.
  - intros d Hd Hdd. apply Hmax. split; [assumption|].
    destruct (Z.le_gt_cases d (Z.sqrt n)); [assumption|]. nia.
Qed.

Lemma X1_find_closest_factors_returns_largest_small_divisor_witness :
  exists m,
    find_closest_factors 600 = inr (m, (inject_Z 600 / inject_Z m)%Q) /\
    (m * (600 / m) = 600)%Z /\ (m <= 600 / m)%Z.
Proof.
  destruct (X1_find_closest_factors_returns_largest_small_divisor 600)
    as (m & H1 & _ & _ & _ & H5 & H6 & _); [split; [lia|reflexivity]|].
  exists m. repeat split; assumption.
Defined.

(** ** randomwalk *)

(** The position drawn through the cumulative sums carries a positive
    weight. *)
Lemma searchsorted_right_positive (p : list Q) (u : Q) :
  forall acc, (acc <= u)%Q -> (u < acc + Qsum p)%Q ->
  (0 < nth (searchsorted_right (cumsum_from acc p) u) p 0)%Q.
Proof.
  induction p as [|x p IH]; intros acc Hle Hlt; simpl in *.
  - lra.
  - destruct (Qlt_bool u (acc + x)) eqn:E.
    + apply Qlt_bool_iff in E. lra.
    + apply Qlt_bool_false in E. apply IH; lra.
Qed.

Lemma count_edges_pos_In (es : list (nat * nat)) (e : nat * nat) :
  (0 < count_edges es e)%Z -> In e es.
Proof.
  unfold count_edges. intros H.
  destruct (filter (edge_eqb e) es) as [|x l] eqn:Ef; [simpl in H; lia|].
  assert (Hx : In x (filter (edge_eqb e) es)) by (rewrite Ef; now left).
  apply filter_In in Hx. destruct Hx as [Hin Heq].
  unfold edge_eqb in Heq. apply andb_true_iff in Heq. destruct Heq as [H1 H2].
  apply Nat.eqb_eq in H1, H2. destruct e, x; simpl in *; subst. assumption.
Qed.

Lemma nth_error_seq0 (n i : nat) : i < n -> nth_error (seq 0 n) i = Some i.
Proof.
  intros H. rewrite (nth_error_nth' _ 0) by now rewrite length_seq.
  now rewrite seq_nth.
Qed.

Lemma adjacency_row_entry (g : Graph) (v j : nat) (row : list Z) :
  nth_error (get_adjacency g) v = Some row -> j < vcount g ->
  nth j row 0%Z = count_edges (get_edgelist g) (v, j).
Proof.
  unfold get_adjacency. rewrite nth_error_map.
  destruct (Nat.lt_ge_cases v (vcount g)) as [Hv|Hv].
  - rewrite (nth_error_seq0 _ _ Hv). simpl. intros E Hj. inversion E; subst; clear E.
    apply nth_error_nth.
    apply (map_nth_error (fun j0 => count_edges (get_edgelist g) (v, j0))).
    now apply nth_error_seq0.
  - assert (E : nth_error (seq 0 (vcount g)) v = None).
    { apply nth_error_None. now rewrite length_seq. }
    rewrite E. discriminate.
Qed.

(** A choice among the normalized row of a vertex lands on a positive
    entry of that row. *)
Lemma choice_p_positive_entry (n : nat) (row : list Z) (w : World) :
  length row = n -> Forall (fun a => 0 <= a)%Z row -> (0 < np_sum row)%Z ->
  exists j w',
    choice_p n (map Some (map (fun a => inject_Z a / inject_Z (np_sum row))%Q row)) w
    = (Ok j, w') /\ j < n /\ (0 < nth j row 0)%Z.
Proof.
  intros L Hpos Hs.
  destruct (choice_p_normalized n row w L Hpos Hs) as (j & w' & E & Hj & _).
  exists j, w'. split; [assumption|]. split; [assumption|].
  unfold choice_p in E. destruct n as [|n']; [lia|].
  rewrite !length_map, L, Nat.eqb_refl in E. cbn [negb] in E.
  rewrite finite_Some in E.
  set (p := map (fun a => inject_Z a / inject_Z (np_sum row))%Q row) in *.
  destruct (existsb (fun x => Qlt_bool x 0) p); [discriminate|].
  destruct (Qeq_bool (Qsum p) 1) eqn:E1; [|discriminate]. cbn [negb] in E.
  apply Qeq_bool_eq in E1.
  unfold bind in E. destruct (random_sample_spec w) as (u & w1 & Eu & H0 & H1 & _).
  rewrite Eu in E. unfold ret in E. inversion E; subst j w1. clear E.
  assert (Hp : (0 < nth (searchsorted_right (cumsum_from 0 p) u) p 0)%Q).
  { apply searchsorted_right_positive; lra. }
  set (j := searchsorted_right (cumsum_from 0 p) u) in *.
  unfold p in Hp.
  rewrite (nth_indep _ 0%Q (inject_Z 0 / inject_Z (np_sum row))%Q) in Hp
    by (rewrite length_map; lia).
  rewrite (map_nth (fun a => inject_Z a / inject_Z (np_sum row))%Q) in Hp.
  destruct (Z.lt_ge_cases 0 (nth j row 0%Z)) as [|Hneg]; [assumption|].
  exfalso. apply (Qlt_not_le _ _ Hp).
  assert (Hrow : (0 <= nth j row 0)%Z).
  { rewrite Forall_forall in Hpos. apply Hpos, nth_In. lia. }
  assert (Hz : nth j row 0%Z = 0%Z) by lia.
  rewrite Hz. unfold Qdiv. rewrite Qmult_0_l. apply Qle_refl.
Qed.

Lemma walk_loop_follows_arcs (g : Graph) (k : nat) :
  graph_wf g -> positive_degree g ->
  forall cur w, cur < vcount g ->
  exists walk w',
    walk_loop (vcount g) (transition_matrix (get_adjacency g)) k cur w = (Ok walk, w') /\
    length walk = k /\ Forall (fun v => v < vcount g) walk /\
    incl (chain_edges (cur :: walk)) (get_edgelist g).
Proof.
  intros WF PD. induction k as [|k IH]; intros cur w Hc; cbn [walk_loop].
  - exists [], w. split; [reflexivity|]. split; [reflexivity|].
    split; [constructor|]. intros e [].
  - destruct (adjacency_row g cur WF PD Hc) as (row & Er & Lr & Hpos & Hs).
    rewrite (transition_row _ _ _ Er) by lia.
    unfold bind.
    destruct (choice_p_positive_entry (vcount g) row w Lr Hpos Hs)
      as (j & w1 & -> & Hj & Hw).
    destruct (IH j w1 Hj) as (walk & w2 & -> & Lw & Hlt & Hin).
    exists (j :: walk), w2. split; [reflexivity|]. split; [simpl; lia|].
    split; [constructor; assumption|].
    rewrite chain_edges_cons. intros e [<-|He]; [|now apply Hin].
    apply count_edges_pos_In.
    now rewrite <- (adjacency_row_entry g cur j row Er Hj).
Qed.

(** X3.  On a graph in which every vertex has an outgoing arc, a walk of
    length [l >= 0] from a vertex returns [l + 1] vertices, the first of
    which is the start vertex, and every step of it follows an arc of the
    graph. *)
Theorem X3_randomwalk_follows_arcs (g : Graph) (l : Z) (startnode : nat) (w : World) :
  graph_wf g -> positive_degree g -> startnode < vcount g -> (0 <= l)%Z ->
  exists walk w',
    randomwalk l startnode (transition_matrix (get_adjacency g)) w = (Ok walk, w') /\
    Z.of_nat (length walk) = (l + 1)%Z /\
    hd_error walk = Some startnode /\
    Forall (fun v => v < vcount g) walk /\
    incl (chain_edges walk) (get_edgelist g).
Proof.
  intros WF PD Hs Hl. unfold randomwalk.
  destruct (Z.ltb_spec (l + 1) 0); [lia|].
  destruct (Z.eqb_spec (l + 1) 0); [lia|].
  assert (Hw : length (hd [] (transition_matrix (get_adjacency g))) = vcount g).
  { destruct (adjacency_row g 0 WF PD ltac:(lia)) as (row & Er & Lr & _).
    destruct (get_adjacency g) as [|r0 rows]; [discriminate|].
    simpl in Er. inversion Er; subst. simpl. now rewrite length_map. }
  rewrite Hw. unfold bind.
  destruct (walk_loop_follows_arcs g (Z.to_nat l) WF PD startnode w Hs)
    as (rest & w' & -> & Lr & Hlt & Hin).
  exists (startnode :: rest), w'. split; [reflexivity|].
  split; [simpl; lia|]. split; [reflexivity|].
  split; [constructor; assumption|assumption].
Qed.

Lemma X3_randomwalk_follows_arcs_witness :
  exists walk w',
    randomwalk 5 2 (transition_matrix (get_adjacency (mkGraph 3 [(0, 1); (1, 2); (2, 0); (0, 2)])))
      (mkWorld (mkRandomState (fun i => Z.of_nat (7 * i)) 0) []) = (Ok walk, w') /\
    Z.of_nat (length walk) = (5 + 1)%Z /\
    incl (chain_edges walk) [(0, 1); (1, 2); (2, 0); (0, 2)].
Proof.
  destruct (X3_randomwalk_follows_arcs (mkGraph 3 [(0, 1); (1, 2); (2, 0); (0, 2)]) 5 2
              (mkWorld (mkRandomState (fun i => Z.of_nat (7 * i)) 0) []))
    as (walk & w' & H1 & H2 & _ & _ & H5).
  - repeat constructor.
  - intros v Hv. simpl in Hv.
    destruct v as [|[|[|v]]]; [exists 1|exists 2|exists 0|lia]; simpl; auto.
  - simpl; lia.
  - lia.
  - exists walk, w'. repeat split; assumption.
Defined.

Lemma np_sum_all_zero (l : list Z) :
  Forall (fun a => a = 0%Z) l -> np_sum l = 0%Z.
Proof.
  induction 1 as [|a l Ha HF IH]; simpl; lia.
Qed.

Lemma length_hd_transition (g : Graph) :
  0 < vcount g ->
  length (hd [] (transition_matrix (get_adjacency g))) = vcount g.
Proof.
  intros Hn. pose proof (square_get_adjacency g) as [L HF].
  destruct (get_adjacency g) as [|r0 rows]; [simpl in L; lia|].
  simpl. rewrite length_map. now inversion HF.
Qed.

(** The row of a vertex without outgoing arc holds no finite value. *)
Lemma transition_row_sink (g : Graph) (v : nat) :
  v < vcount g -> (forall u, ~ In (v, u) (get_edgelist g)) ->
  exists row,
    nth_error (transition_matrix (get_adjacency g)) v = Some row /\
    length row = vcount g /\ finite row = None.
Proof.
  intros Hv Hsink.
  set (arow := map (fun j => count_edges (get_edgelist g) (v, j)) (seq 0 (vcount g))).
  assert (Er : nth_error (get_adjacency g) v = Some arow).
  { unfold get_adjacency. rewrite nth_error_map, (nth_error_seq0 _ _ Hv). reflexivity. }
  assert (Hz : np_sum arow = 0%Z).
  { apply np_sum_all_zero. apply Forall_forall. intros a Ha.
    apply in_map_iff in Ha. destruct Ha as (j & <- & _).
    pose proof (count_edges_nonneg (get_edgelist g) (v, j)).
    destruct (Z.eq_dec (count_edges (get_edgelist g) (v, j)) 0) as [|N]; [assumption|].
    exfalso. apply (Hsink j). apply count_edges_pos_In. lia. }
  exists (map (fun _ : Z => @None Q) arow).
  split; [|split].
  - unfold transition_matrix. rewrite nth_error_map, Er. simpl. f_equal.
    apply map_ext. intros a. now rewrite Hz.
  - unfold arow. now rewrite !length_map, length_seq.
  - unfold arow. destruct (vcount g) as [|n']; [lia|]. reflexivity.
Qed.

(** X4.  A walk of at least one step that starts at a vertex without
    outgoing arc raises [ValueError] (the probabilities of its row are not
    finite) before any number is drawn, while a walk of length 0 from the
    same vertex returns that vertex alone. *)
Theorem X4_randomwalk_fails_at_sink (g : Graph) (l : Z) (startnode : nat) (w : World) :
  startnode < vcount g -> (forall u, ~ In (startnode, u) (get_edgelist g)) ->
  ((1 <= l)%Z ->
   randomwalk l startnode (transition_matrix (get_adjacency g)) w = (Raise ValueError, w)) /\
  randomwalk 0 startnode (transition_matrix (get_adjacency g)) w = (Ok [startnode], w).
Proof.
  intros Hs Hsink. split; [|reflexivity].
  intros Hl. unfold randomwalk.
  destruct (Z.ltb_spec (l + 1) 0); [lia|].
  destruct (Z.eqb_spec (l + 1) 0); [lia|].
  rewrite length_hd_transition by lia.
  destruct (Z.to_nat l) as [|k] eqn:Ek; [lia|].
  unfold bind. cbn [walk_loop].
  destruct (transition_row_sink g startnode Hs Hsink) as (row & -> & Lr & Hf).
  unfold bind, choice_p.
  destruct (vcount g) as [|n'] eqn:En; [lia|].
  rewrite Lr, Nat.eqb_refl, Hf. reflexivity.
Qed.

Lemma X4_randomwalk_fails_at_sink_witness :
  randomwalk 3 2 (transition_matrix (get_adjacency (mkGraph 3 [(0, 1); (1, 2)])))
    (mkWorld (mkRandomState (fun i => Z.of_nat i) 0) [])
  = (Raise ValueError, mkWorld (mkRandomState (fun i => Z.of_nat i) 0) []).
Proof.
  apply (X4_randomwalk_fails_at_sink (mkGraph 3 [(0, 1); (1, 2)]) 3 2).
  - simpl; lia.
  - intros u [H|[H|[]]]; discriminate.
  - lia.
Defined.

(** ** simu_walk *)

Lemma count_of_absent (v : nat) (acl : list (nat * nat)) :
  ~ In v (map fst acl) -> count_of v acl = 0.
Proof.
  induction acl as [|[k c] r IH]; simpl; [reflexivity|].
  intros H. destruct (Nat.eqb_spec v k) as [->|N]; [exfalso; apply H; now left|].
  apply IH. intros Hin. apply H. now right.
Qed.

Lemma sorted_head_absent (k : nat) (keys : list nat) :
  StronglySorted lt (k :: keys) -> forall v, v <= k -> ~ In v keys.
Proof.
  intros HS v Hv Hin. apply StronglySorted_inv in HS. destruct HS as [_ HF].
  rewrite Forall_forall in HF. specialize (HF v Hin). lia.
Qed.

Lemma count_of_bump (v v' : nat) (acl : list (nat * nat)) :
  StronglySorted lt (map fst acl) ->
  count_of v' (bump v acl) = count_of v' acl + (if Nat.eqb v' v then 1 else 0).
Proof.
  induction acl as [|[k c] r IH]; intros HS; simpl.
  - destruct (Nat.eqb v' v); reflexivity.
  - simpl in HS.
    destruct (Nat.ltb_spec v k) as [Hlt|Hge]; [|destruct (Nat.eqb_spec v k) as [->|Hne]];
      simpl.
    + destruct (Nat.eqb_spec v' v) as [->|N].
      * destruct (Nat.eqb_spec v k); [lia|].
        rewrite count_of_absent; [reflexivity|].
        apply (sorted_head_absent k _ HS). lia.
      * lia.
    + destruct (Nat.eqb_spec v' k); lia.
    + apply StronglySorted_inv in HS. destruct HS as [HS _].
      destruct (Nat.eqb_spec v' k) as [->|N1].
      * destruct (Nat.eqb_spec k v); [lia|]. lia.
      * now apply IH.
Qed.

(** The count that [np.unique] returns for a value is its number of
    occurrences. *)
Lemma np_unique_counts_count (v : nat) (a : list nat) :
  count_of v (np_unique_counts a) = occurrences v a.
Proof.
  induction a as [|x a IH]; [reflexivity|].
  cbn [np_unique_counts fold_right]. fold (np_unique_counts a).
  rewrite count_of_bump by apply np_unique_counts_spec.
  rewrite IH. unfold occurrences. simpl.
  destruct (Nat.eqb v x); simpl; lia.
Qed.

Lemma mem_false (v : nat) (s : list nat) : mem v s = false <-> ~ In v s.
Proof.
  rewrite <- mem_In. destruct (mem v s); split; congruence.
Qed.

(** What the loop over the counts leaves at every position. *)
Lemma store_counts_nth (vcs : list (nat * nat)) :
  forall visits visits',
    StronglySorted lt (map fst vcs) ->
    store_counts visits vcs = Ok visits' ->
    length visits' = length visits /\
    forall v, v < length visits ->
      nth v visits' 0%Z
      = if mem v (map fst vcs) then Z.of_nat (count_of v vcs) else nth v visits 0%Z.
Proof.
  induction vcs as [|[k c] r IH]; intros visits visits' HS E; simpl in *.
  - inversion E; subst. auto.
  - destruct (set_nth k (Z.of_nat c) visits) as [v1|] eqn:E1; [|discriminate].
    apply set_nth_Some in E1. destruct E1 as [Hk ->].
    pose proof (sorted_head_absent k _ HS) as Habs.
    apply StronglySorted_inv in HS. destruct HS as [HS _].
    destruct (IH _ _ HS E) as (L & Hn). rewrite length_update in *.
    split; [assumption|]. intros v Hv. rewrite (Hn v Hv).
    destruct (Nat.eqb_spec v k) as [->|N]; simpl.
    + assert (Hm : mem k (map fst r) = false) by (apply mem_false, Habs; lia).
      rewrite Hm. now apply nth_update_eq.
    + destruct (mem v (map fst r)); [reflexivity|].
      apply nth_update_neq. auto.
Qed.

(** X5.  On a graph with at least one vertex in which every vertex has an
    outgoing arc, [simu_walk] returns, for every vertex, its number of
    occurrences in the walk without its first [trimsz] entries, for every
    [trimsz] and every [walklen >= 0]. *)
Theorem X5_simu_walk_counts_visits (idx : nat) (g : Graph) (walklen trimsz : Z) (w : World) :
  graph_wf g -> 0 < vcount g -> positive_degree g -> (0 <= walklen)%Z ->
  exists startnode w1 walk visits w',
    randint 0 (Z.of_nat (vcount g)) w = (Ok startnode, w1) /\
    randomwalk walklen (Z.to_nat startnode) (transition_matrix (get_adjacency g)) w1
    = (Ok walk, w') /\
    simu_walk idx g walklen trimsz w = (Ok visits, w') /\
    length visits = vcount g /\
    forall v, v < vcount g ->
      nth v visits 0%Z = Z.of_nat (occurrences v (slice_from trimsz walk)).
Proof.
  intros WF Hn PD Hl. unfold simu_walk.
  destruct (get_adjacency g) as [|row0 rows] eqn:Eadj.
  { pose proof (square_get_adjacency g) as [L _]. rewrite Eadj in L. simpl in L. lia. }
  rewrite <- Eadj. unfold bind.
  destruct (randint_ok (Z.of_nat (vcount g)) w) as (r & w1 & Er & Hr); [lia|].
  rewrite Er.
  destruct (walk_loop_follows_arcs g (Z.to_nat walklen) WF PD (Z.to_nat r) w1)
    as (rest & w2 & Ew & Lrest & Hrest & _); [lia|].
  assert (Erw : randomwalk walklen (Z.to_nat r) (transition_matrix (get_adjacency g)) w1
                = (Ok (Z.to_nat r :: rest), w2)).
  { unfold randomwalk.
    destruct (Z.ltb_spec (walklen + 1) 0); [lia|].
    destruct (Z.eqb_spec (walklen + 1) 0); [lia|].
    rewrite length_hd_transition by assumption. unfold bind. now rewrite Ew. }
  rewrite Erw. unfold lift.
  set (walk := Z.to_nat r :: rest) in *.
  destruct (np_unique_counts_spec (slice_from trimsz walk)) as (HS & Hk & _).
  assert (Hwalk : Forall (fun v => v < vcount g) walk).
  { constructor; [lia|assumption]. }
  destruct (store_counts_sum (np_unique_counts (slice_from trimsz walk))
              (zeros (vcount g)) HS) as (visits & Es & _ & _).
  { apply Forall_forall. intros k Hin. rewrite length_zeros, nth_zeros.
    split; [|reflexivity].
    rewrite Forall_forall in Hwalk. apply Hwalk.
    apply (In_slice_from trimsz). now apply Hk. }
  rewrite Es.
  destruct (store_counts_nth _ _ _ HS Es) as (Lv & Hv).
  rewrite length_zeros in Lv, Hv.
  exists r, w1, walk, visits, w2.
  split; [reflexivity|]. split; [assumption|]. split; [reflexivity|].
  split; [assumption|].
  intros v Hlt. rewrite (Hv v Hlt), nth_zeros, <- np_unique_counts_count.
  destruct (mem v (map fst (np_unique_counts (slice_from trimsz walk)))) eqn:Em;
    [reflexivity|].
  apply mem_false in Em. now rewrite count_of_absent.
Qed.

Lemma X5_simu_walk_counts_visits_witness :
  exists startnode w1 walk visits w',
    randomwalk 10 (Z.to_nat startnode)
      (transition_matrix (get_adjacency (mkGraph 3 [(0, 1); (1, 2); (2, 0); (0, 2)]))) w1
    = (Ok walk, w') /\
    simu_walk 0 (mkGraph 3 [(0, 1); (1, 2); (2, 0); (0, 2)]) 10 (-4)
      (mkWorld (mkRandomState (fun i => Z.of_nat i) 0) []) = (Ok visits, w') /\
    nth 1 visits 0%Z = Z.of_nat (occurrences 1 (slice_from (-4) walk)).
Proof.
  destruct (X5_simu_walk_counts_visits 0 (mkGraph 3 [(0, 1); (1, 2); (2, 0); (0, 2)]) 10 (-4)
              (mkWorld (mkRandomState (fun i => Z.of_nat i) 0) []))
    as (s & w1 & walk & visits & w' & _ & H2 & H3 & _ & H5).
  - repeat constructor.
  - simpl; lia.
  - intros v Hv. simpl in Hv.
    destruct v as [|[|[|v]]]; [exists 1|exists 2|exists 0|lia]; simpl; auto.
  - lia.
  - exists s, w1, walk, visits, w'. split; [assumption|]. split; [assumption|].
    apply H5. simpl; lia.
Defined.

(** ** remove_arc_conn on any graph *)

Lemma try_remove_inv (g : Graph) (eids : list nat) :
  forall ntries newg k,
    try_remove g eids ntries = Ok (newg, k) ->
    exists pre eid post,
      eids = pre ++ eid :: post /\
      delete_edge g eid = Ok newg /\ is_connected newg = true /\
      k = (ntries + Z.of_nat (length pre))%Z /\
      Forall (fun e => exists g', delete_edge g e = Ok g' /\ is_connected g' = false) pre.
Proof.
  induction eids as [|e eids IH]; intros ntries newg k E; simpl in E; [discriminate|].
  destruct (delete_edge g e) as [g'|x] eqn:Ed; [|discriminate].
  destruct (is_connected g') eqn:Ec.
  - inversion E; subst. exists [], e, eids.
    split; [reflexivity|]. split; [assumption|]. split; [assumption|].
    split; [simpl; lia|constructor].
  - destruct (IH _ _ _ E) as (pre & eid & post & -> & Hd & Hc & -> & HF).
    exists (e :: pre), eid, post.
    split; [reflexivity|]. split; [assumption|]. split; [assumption|].
    split; [simpl; lia|]. constructor; eauto.
Qed.

Lemma try_remove_finds (g : Graph) (eid0 : nat) (eids : list nat) :
  forall ntries,
    Forall (fun e => e < ecount g) eids -> In eid0 eids ->
    is_connected (mkGraph (vcount g) (remove_nth eid0 (get_edgelist g))) = true ->
    exists newg k, try_remove g eids ntries = Ok (newg, k).
Proof.
  induction eids as [|e eids IH]; intros ntries HF Hin Hc; [contradiction|].
  inversion HF as [|? ? He HF']; subst. simpl.
  destruct (delete_edge_ok g e He) as (x & _ & -> & _).
  destruct (is_connected (mkGraph (vcount g) (remove_nth e (get_edgelist g)))) eqn:Ec;
    [eauto|].
  destruct Hin as [->|Hin]; [congruence|]. now apply IH.
Qed.

Lemma try_remove_errors (g : Graph) (eids : list nat) :
  forall ntries e,
    Forall (fun e => e < ecount g) eids ->
    try_remove g eids ntries = Raise e -> e = Exception EmptyString.
Proof.
  induction eids as [|x eids IH]; intros ntries e HF E; simpl in E.
  - now inversion E.
  - inversion HF as [|? ? He HF']; subst.
    destruct (delete_edge_ok g x He) as (y & _ & Ed & _). rewrite Ed in E.
    destruct (is_connected (mkGraph (vcount g) (remove_nth x (get_edgelist g))));
      [discriminate|]. eapply IH; eauto.
Qed.

Lemma shuffled_edge_ids (g : Graph) (w : World) :
  exists order w',
    shuffle (seq 0 (ecount g)) w = (Ok order, w') /\
    Permutation order (seq 0 (ecount g)) /\
    Forall (fun e => e < ecount g) order.
Proof.
  destruct (shuffle_perm (seq 0 (ecount g)) w) as (order & w' & E & P & _).
  exists order, w'. split; [assumption|]. split; [assumption|].
  apply Forall_forall. intros e He. apply (Permutation_in _ P) in He.
  apply in_seq in He. lia.
Qed.

Lemma expand_sound (es : list (nat * nat)) (k : nat) :
  forall s v, In v (expand k es s) -> exists u j, In u s /\ walk es u v j.
Proof.
  induction k as [|k IH]; intros s v H; simpl in H.
  - exists v, 0. split; [assumption|constructor].
  - destruct (IH _ _ H) as (u & j & Hu & W).
    apply in_app_or in Hu. destruct Hu as [Hu|Hu]; [eauto|].
    unfold successors in Hu. apply in_map_iff in Hu.
    destruct Hu as ([a b] & <- & Hf). apply filter_In in Hf. destruct Hf as [He Hm].
    apply mem_In in Hm. simpl in *.
    exists a, (S j). split; [assumption|]. econstructor; eauto.
Qed.

Lemma reverse_edges_involutive (es : list (nat * nat)) :
  reverse_edges (reverse_edges es) = es.
Proof.
  unfold reverse_edges. rewrite map_map. rewrite <- (map_id es) at 2.
  apply map_ext. now intros [a b].
Qed.

(** In a graph that [is_connected] accepts, every vertex reaches every
    other one along its edges. *)
Lemma is_connected_walks (g : Graph) :
  is_connected g = true ->
  forall u v, u < vcount g -> v < vcount g ->
  exists j, walk (get_edgelist g) u v j.
Proof.
  unfold is_connected. destruct (vcount g) as [|n'] eqn:En; [discriminate|].
  intros H u v Hu Hv. apply andb_true_iff in H. destruct H as [Hf Hb].
  rewrite covers_spec in Hf, Hb.
  destruct (expand_sound _ _ _ _ (Hf v Hv)) as (a & j1 & [<-|[]] & W1).
  destruct (expand_sound _ _ _ _ (Hb u Hu)) as (b & j2 & [<-|[]] & W2).
  apply walk_reverse in W2. rewrite reverse_edges_involutive in W2.
  exists (j2 + j1). eapply walk_app; eauto.
Qed.

(** X6.  Whatever the graph, when the pruner returns [(newg, k)] then
    [newg] has the same vertices and the edges of [g] but one, it passes
    the strong connectivity test (every vertex reaches every other one),
    [k] lies between 1 and the number of edges of [g], and the removal of
    each of the [k - 1] candidates tried before breaks strong
    connectivity. *)
Theorem X6_pruner_result_is_sound (g newg : Graph) (k : Z) (w w' : World) :
  remove_arc_conn g w = (Ok (newg, k), w') ->
  vcount newg = vcount g /\
  ecount newg + 1 = ecount g /\
  (exists eid e,
     nth_error (get_edgelist g) eid = Some e /\
     get_edgelist newg = remove_nth eid (get_edgelist g) /\
     Permutation (get_edgelist g) (e :: get_edgelist newg)) /\
  is_connected newg = true /\
  (forall u v, u < vcount g -> v < vcount g -> exists j, walk (get_edgelist newg) u v j) /\
  (1 <= k <= Z.of_nat (ecount g))%Z /\
  exists order pre eid post,
    shuffle (seq 0 (ecount g)) w = (Ok order, w') /\
    order = pre ++ eid :: post /\ k = Z.of_nat (length pre + 1) /\
    Forall (fun e => exists g', delete_edge g e = Ok g' /\ is_connected g' = false) pre.
Proof.
  unfold remove_arc_conn, bind, lift. intros E.
  destruct (shuffled_edge_ids g w) as (order & w1 & Es & P & HF).
  rewrite Es in E.
  destruct (try_remove g order 1) as [[ng k0]|x] eqn:Et; inversion E; subst; clear E.
  destruct (try_remove_inv _ _ _ _ _ Et) as (pre & eid & post & -> & Hd & Hc & -> & Hpre).
  assert (He : eid < ecount g).
  { rewrite Forall_forall in HF. apply HF. apply in_or_app. right. now left. }
  destruct (delete_edge_ok g eid He) as (e & En & Hd' & Pe).
  rewrite Hd in Hd'. inversion Hd'; subst newg. simpl.
  destruct (delete_edge_ecount _ _ _ Hd) as [Hec Hvc].
  split; [reflexivity|]. split; [exact Hec|].
  split; [exists eid, e; auto|]. split; [assumption|].
  split.
  { intros u v Hu Hv. apply (is_connected_walks _ Hc); assumption. }
  assert (Hlen : length (pre ++ eid :: post) = ecount g).
  { rewrite (Permutation_length P). apply length_seq. }
  rewrite length_app in Hlen. simpl in Hlen.
  split; [lia|].
  exists (pre ++ eid :: post), pre, eid, post.
  split; [assumption|]. split; [reflexivity|]. split; [lia|assumption].
Qed.

Lemma X6_pruner_result_is_sound_witness :
  exists newg k w',
    remove_arc_conn (mkGraph 3 [(0, 1); (1, 2); (2, 0); (0, 2)])
      (mkWorld (mkRandomState (fun i => Z.of_nat i) 0) []) = (Ok (newg, k), w') /\
    is_connected newg = true /\ ecount newg + 1 = 4 /\ (1 <= k <= 4)%Z.
Proof.
  destruct (remove_arc_conn (mkGraph 3 [(0, 1); (1, 2); (2, 0); (0, 2)])
              (mkWorld (mkRandomState (fun i => Z.of_nat i) 0) []))
    as [[[newg k]|e] w'] eqn:E; [|vm_compute in E; discriminate].
  destruct (X6_pruner_result_is_sound _ _ _ _ _ E) as (_ & H2 & _ & H4 & _ & H6 & _).
  exists newg, k, w'. repeat split; try assumption; apply H6.
Defined.

(** X7.  The pruner raises its exhaustion error exactly when the removal of
    every single edge breaks strong connectivity (in particular on a graph
    without edges); it raises no other error, and returns otherwise. *)
Theorem X7_pruner_fails_iff_every_edge_is_critical (g : Graph) (w : World) :
  ((exists w', remove_arc_conn g w = (Raise (Exception EmptyString), w')) <->
   (forall eid, eid < ecount g ->
      is_connected (mkGraph (vcount g) (remove_nth eid (get_edgelist g))) = false)) /\
  (forall e w', remove_arc_conn g w = (Raise e, w') -> e = Exception EmptyString).
Proof.
  destruct (shuffled_edge_ids g w) as (order & w1 & Es & P & HF).
  split; [split|].
  - intros (w' & E) eid He.
    destruct (is_connected (mkGraph (vcount g) (remove_nth eid (get_edgelist g))))
      eqn:Ec; [|reflexivity].
    exfalso. unfold remove_arc_conn, bind, lift in E. rewrite Es in E.
    destruct (try_remove_finds g eid order 1 HF) as (newg & k & Et); [|assumption|].
    + apply (Permutation_in _ (Permutation_sym P)), in_seq. lia.
    + rewrite Et in E. discriminate.
  - intros Hall. exists w1. unfold remove_arc_conn, bind, lift. rewrite Es.
    rewrite try_remove_none; [reflexivity|].
    rewrite Forall_forall in HF |- *. intros eid Hin.
    destruct (delete_edge_ok g eid (HF eid Hin)) as (e & _ & Hd & _).
    eexists. split; [exact Hd|]. apply Hall. now apply HF.
  - intros e w' E. unfold remove_arc_conn, bind, lift in E. rewrite Es in E.
    destruct (try_remove g order 1) as [[ng k0]|x] eqn:Et; inversion E; subst.
    eapply try_remove_errors; eauto.
Qed.

(** ** Batches of removals *)

Lemma remove_arc_conn_inv (g newg : Graph) (k : Z) (w w' : World) :
  remove_arc_conn g w = (Ok (newg, k), w') ->
  vcount newg = vcount g /\
  ecount newg + 1 = ecount g /\
  (exists e, Permutation (get_edgelist g) (e :: get_edgelist newg)) /\
  is_connected newg = true /\
  (1 <= k <= Z.of_nat (ecount g))%Z.
Proof.
  unfold remove_arc_conn, bind, lift. intros E.
  destruct (shuffled_edge_ids g w) as (order & w1 & Es & P & HF).
  rewrite Es in E.
  destruct (try_remove g order 1) as [[ng k0]|x] eqn:Et; inversion E; subst; clear E.
  destruct (try_remove_inv _ _ _ _ _ Et) as (pre & eid & post & -> & Hd & Hc & -> & _).
  assert (He : eid < ecount g).
  { rewrite Forall_forall in HF. apply HF. apply in_or_app. right. now left. }
  destruct (delete_edge_ok g eid He) as (e & _ & Hd' & Pe).
  rewrite Hd in Hd'. inversion Hd'; subst newg.
  destruct (delete_edge_ecount _ _ _ Hd) as [Hec Hvc].
  split; [reflexivity|]. split; [exact Hec|]. split; [exists e; exact Pe|].
  split; [assumption|].
  assert (Hlen : length (pre ++ eid :: post) = ecount g).
  { rewrite (Permutation_length P). apply length_seq. }
  rewrite length_app in Hlen. simpl in Hlen. lia.
Qed.

(** X8.  A batch of [j] removals that succeeds removes exactly [j] edges
    and no vertex, leaves a strongly connected graph, and adds between [j]
    and [j * ecount] attempts to the counter; a batch that fails raises
    the error naming its step, whatever failed inside. *)
Theorem X8_prune_batch_removes_j_edges (i j : nat) :
  forall (g : Graph) (a : Z) (w : World),
    (forall g' a' w',
       prune_batch i j g a w = (Ok (g', a'), w') ->
       vcount g' = vcount g /\
       ecount g' + j = ecount g /\
       (exists removed,
          length removed = j /\
          Permutation (get_edgelist g) (removed ++ get_edgelist g')) /\
       (0 < j -> is_connected g' = true) /\
       (a + Z.of_nat j <= a' <= a + Z.of_nat j * Z.of_nat (ecount g))%Z) /\
    (forall e w',
       prune_batch i j g a w = (Raise e, w') ->
       e = Exception ("Could not remove arc in step "
                      ++ NilEmpty.string_of_uint (Nat.to_uint i))).
Proof.
  induction j as [|j IH]; intros g a w; cbn [prune_batch].
  - split.
    + intros g' a' w' E. inversion E; subst.
      split; [reflexivity|]. split; [lia|].
      split; [exists []; split; reflexivity|]. split; [lia|lia].
    + intros e w' E. discriminate.
  - unfold bind, try_except.
    destruct (remove_arc_conn g w) as [[[g1 m]|x] w1] eqn:Er.
    + destruct (remove_arc_conn_inv _ _ _ _ _ Er) as (Hv & He & (e1 & P1) & Hc & Hm).
      destruct (IH g1 (a + m)%Z w1) as [IHok IHerr].
      split.
      * intros g' a' w' E. destruct (IHok _ _ _ E) as (Hv' & He' & (rem & Lr & Pr) & Hc' & Ha).
        split; [congruence|]. split; [lia|].
        split.
        { exists (e1 :: rem). split; [simpl; lia|].
          eapply perm_trans; [exact P1|]. simpl. now apply perm_skip. }
        split.
        { intros _. destruct j as [|j']; [|apply Hc'; lia].
          cbn [prune_batch] in E. inversion E; subst. assumption. }
        assert (ecount g1 <= ecount g) by lia. nia.
      * intros e w' E. now apply (IHerr e w').
    + split; [intros g' a' w' E; discriminate|].
      intros e w' E. now inversion E.
Qed.

Lemma X8_prune_batch_removes_j_edges_witness :
  exists g' a' w',
    prune_batch 0 2 (mkGraph 3 [(0, 1); (1, 2); (2, 0); (0, 2); (2, 1); (1, 0)]) 0
      (mkWorld (mkRandomState (fun i => Z.of_nat i) 0) []) = (Ok (g', a'), w') /\
    ecount g' + 2 = 6 /\ is_connected g' = true.
Proof.
  destruct (prune_batch 0 2 (mkGraph 3 [(0, 1); (1, 2); (2, 0); (0, 2); (2, 1); (1, 0)]) 0
              (mkWorld (mkRandomState (fun i => Z.of_nat i) 0) []))
    as [[[g' a']|e] w'] eqn:E; [|vm_compute in E; discriminate].
  destruct (X8_prune_batch_removes_j_edges 0 2
              (mkGraph 3 [(0, 1); (1, 2); (2, 0); (0, 2); (2, 1); (1, 0)]) 0
              (mkWorld (mkRandomState (fun i => Z.of_nat i) 0) [])) as [H _].
  destruct (H g' a' w' E) as (_ & H2 & _ & H4 & _).
  exists g', a', w'. split; [reflexivity|]. split; [exact H2|]. apply H4. lia.
Defined.

(** ** The generation loop and the pre-flight check *)

Section GenerationLoop.

Variable generate_data : string -> nat -> Z -> M Graph.
Variables (top : string) (n : nat) (k : Z).

Lemma generate_loop_inv (fuel : nat) :
  forall tries w g t w',
    (0 <= tries)%Z ->
    generate_loop generate_data top n k fuel tries w = (Ok (g, t), w') ->
    is_connected (to_directed g) = true /\ (tries < t <= 101)%Z.
Proof.
  induction fuel as [|fuel IH]; intros tries w g t w' Ht E; cbn [generate_loop] in E;
    [discriminate|].
  unfold bind in E.
  destruct (generate_data top n k w) as [[gorig|e] w1]; [|discriminate].
  unfold maxtries in E.
  destruct (Z.ltb_spec 100 tries); [discriminate|].
  destruct (is_connected (to_directed gorig)) eqn:Ec.
  - inversion E; subst. split; [assumption|lia].
  - assert (Ht' : (0 <= tries + 1)%Z) by lia.
    destruct (IH _ _ _ _ _ Ht' E) as [Hc Hb]. split; [assumption|lia].
Qed.

Lemma generate_loop_fuel (fuel1 : nat) :
  forall fuel2 tries w,
    (0 <= tries <= 101)%Z ->
    (102 - tries <= Z.of_nat fuel1)%Z -> (102 - tries <= Z.of_nat fuel2)%Z ->
    generate_loop generate_data top n k fuel1 tries w
    = generate_loop generate_data top n k fuel2 tries w.
Proof.
  induction fuel1 as [|fuel1 IH]; intros fuel2 tries w Ht H1 H2; [lia|].
  destruct fuel2 as [|fuel2]; [lia|].
  cbn [generate_loop]. unfold bind.
  destruct (generate_data top n k w) as [[gorig|e] w1]; [|reflexivity].
  unfold maxtries.
  destruct (Z.ltb_spec 100 tries); [reflexivity|].
  destruct (is_connected (to_directed gorig)); [reflexivity|].
  apply IH; lia.
Qed.

Lemma generate_loop_errors (fuel : nat) :
  forall tries w e w',
    generate_loop generate_data top n k fuel tries w = (Raise e, w') ->
    e = Exception "Could not find strongly connected graph" \/
    exists w0 w1, generate_data top n k w0 = (Raise e, w1).
Proof.
  induction fuel as [|fuel IH]; intros tries w e w' E; cbn [generate_loop] in E.
  - inversion E. now left.
  - unfold bind in E.
    destruct (generate_data top n k w) as [[gorig|x] w1] eqn:Eg.
    + destruct (maxtries <? tries)%Z; [inversion E; now left|].
      destruct (is_connected (to_directed gorig)); [discriminate|].
      eapply IH; eauto.
    + inversion E; subst. right. eauto.
Qed.

(** X9.  The generation loop of [run_experiment] returns only a graph
    whose directed version is strongly connected, with a number of tries
    between 1 and 101; it makes at most 102 calls to the generator (more
    fuel changes nothing), and when it fails and the generator did not, the
    error is 'Could not find strongly connected graph'. *)
Theorem X9_generation_loop_returns_connected_graph (w : World) :
  (forall g tries w',
     generate_loop generate_data top n k 102 0 w = (Ok (g, tries), w') ->
     is_connected (to_directed g) = true /\ (1 <= tries <= 101)%Z) /\
  (forall fuel, 102 <= fuel ->
     generate_loop generate_data top n k fuel 0 w
     = generate_loop generate_data top n k 102 0 w) /\
  (forall e w',
     generate_loop generate_data top n k 102 0 w = (Raise e, w') ->
     e = Exception "Could not find strongly connected graph" \/
     exists w0 w1, generate_data top n k w0 = (Raise e, w1)).
Proof.
  split; [|split].
  - intros g tries w' E.
    destruct (generate_loop_inv _ _ _ _ _ _ (Z.le_refl 0) E). split; [assumption|lia].
  - intros fuel Hf. apply generate_loop_fuel; lia.
  - intros e w' E. eapply generate_loop_errors; eauto.
Qed.

End GenerationLoop.

Lemma X9_generation_loop_returns_connected_graph_witness :
  exists g tries w',
    generate_loop (fun _ _ _ => ret (mkGraph 3 [(0, 1); (1, 2)])) "la" 3 2 102 0
      (mkWorld (mkRandomState (fun i => Z.of_nat i) 0) []) = (Ok (g, tries), w') /\
    is_connected (to_directed g) = true /\ (1 <= tries <= 101)%Z.
Proof.
  destruct (X9_generation_loop_returns_connected_graph
              (fun _ _ _ => ret (mkGraph 3 [(0, 1); (1, 2)])) "la" 3 2
              (mkWorld (mkRandomState (fun i => Z.of_nat i) 0) [])) as (H & _ & _).
  exists (mkGraph 3 [(0, 1); (1, 2)]), 1%Z,
         (mkWorld (mkRandomState (fun i => Z.of_nat i) 0) []).
  split; [reflexivity|].
  apply (H _ _ (mkWorld (mkRandomState (fun i => Z.of_nat i) 0) [])). reflexivity.
Defined.

(** ** FiringSimulator: charges over time *)

(** X11.  For a threshold and a graph in range, the initial charges lie in
    [0, int(1.3*threshold)), and at every tick every charge lies between 0
    and the larger of [int(1.3*threshold) - 1] and
    [threshold - 1 + ecount]: the charges never become negative and stay
    far below 2^53, so that the floats of the code hold them exactly. *)
Theorem X11_charges_stay_in_range
    (g : Graph) (A : list (list Z)) (threshold : Z) (acc0 : list Z) (w w' : World) :
  graph_wf g -> sparse_propagator g = Ok A ->
  threshold_in_range threshold -> graph_in_range g ->
  randint_size (charge_bound threshold) (vcount g) w = (Ok acc0, w') ->
  Forall (fun a => 0 <= a < charge_bound threshold)%Z acc0 /\
  forall t,
    Forall (fun a => 0 <= a <= Z.max (charge_bound threshold - 1)
                                 (threshold - 1 + Z.of_nat (ecount g)))%Z
      (charge_at A threshold acc0 t) /\
    charges_in_range g (charge_at A threshold acc0 t).
Proof.
  intros WF EA Ht Hg Er. destruct (randint_size_inv _ _ _ _ _ Er) as [Hr L0].
  split; [assumption|].
  intros t. apply (run_charges_in_range g A threshold acc0 w w'); assumption.
Qed.

Lemma X11_charges_stay_in_range_witness :
  Forall (fun a => 0 <= a <= Z.max (charge_bound 4 - 1) (4 - 1 + Z.of_nat 12))%Z
    (charge_at [[0; 0; 4]; [4; 0; 0]; [0; 4; 0]]%Z 4 [4; 2; 0]%Z 25).
Proof.
  destruct (X11_charges_stay_in_range
              (mkGraph 3 [(0, 1); (0, 1); (0, 1); (0, 1); (1, 2); (1, 2); (1, 2); (1, 2);
                          (2, 0); (2, 0); (2, 0); (2, 0)])
              [[0; 0; 4]; [4; 0; 0]; [0; 4; 0]]%Z 4 [4; 2; 0]%Z
              (mkWorld (mkRandomState (fun i => Z.of_nat (3 * i + 4)) 0) [])
              (snd (randint_size (charge_bound 4) 3
                      (mkWorld (mkRandomState (fun i => Z.of_nat (3 * i + 4)) 0) []))))
    as [_ H].
  - repeat constructor.
  - reflexivity.
  - split; reflexivity.
  - reflexivity.
  - reflexivity.
  - apply (H 25).
Defined.

Lemma np_sum_vadd (u v : list Z) :
  length u = length v -> np_sum (vadd u v) = (np_sum u + np_sum v)%Z.
Proof.
  revert v. induction u as [|a u IH]; intros [|b v] H; simpl in *; try lia.
  unfold vadd in IH. rewrite IH by lia. lia.
Qed.

Lemma np_sum_vsub (u v : list Z) :
  length u = length v -> np_sum (vsub u v) = (np_sum u - np_sum v)%Z.
Proof.
  revert v. induction u as [|a u IH]; intros [|b v] H; simpl in *; try lia.
  unfold vsub in IH. rewrite IH by lia. lia.
Qed.

Lemma np_sum_nth_seq (l : list Z) :
  np_sum l = np_sum (map (fun i => nth i l 0%Z) (seq 0 (length l))).
Proof.
  induction l as [|a l IH]; [reflexivity|].
  simpl. rewrite <- seq_shift, map_map. now rewrite <- IH.
Qed.

Lemma outflow_cons (e : nat * nat) (es : list (nat * nat)) (mask : list bool) :
  outflow (e :: es) mask = (bool_to_Z (nth (fst e) mask false) + outflow es mask)%Z.
Proof.
  unfold outflow, count_where. simpl.
  destruct (nth (fst e) mask false); cbn [length bool_to_Z]; lia.
Qed.

(** Every arc that leaves a vertex of the mask enters exactly one vertex. *)
Lemma sum_inflow_outflow (n : nat) (es : list (nat * nat)) (mask : list bool) :
  Forall (fun e => fst e < n /\ snd e < n) es ->
  np_sum (map (fun v => inflow es mask v) (seq 0 n)) = outflow es mask.
Proof.
  induction 1 as [|[a b] es [Ha Hb] HF IH].
  - unfold inflow, outflow, count_where. simpl. induction (seq 0 n); simpl; auto.
  - rewrite outflow_cons, <- IH. simpl in Ha, Hb. cbn [fst snd].
    rewrite (np_sum_map_ext _
      (fun v => ((if Nat.eqb v b then bool_to_Z (nth a mask false) else 0)
                 + inflow es mask v)%Z)).
    + rewrite np_sum_map_add, np_sum_indicator.
      destruct (Nat.leb_spec 0 b), (Nat.ltb_spec b (0 + n)); simpl; try lia; reflexivity.
    + intros v _. rewrite inflow_cons. simpl. rewrite (Nat.eqb_sym b v).
      destruct (Nat.eqb v b); simpl; [reflexivity|lia].
Qed.

Lemma np_sum_dot_outflow (g : Graph) (A : list (list Z)) (mask : list bool) :
  graph_wf g -> sparse_propagator g = Ok A -> length mask = vcount g ->
  np_sum (dot A mask) = outflow (get_edgelist g) mask.
Proof.
  intros WF EA Lm.
  assert (SA := propagator_square g A WF EA). destruct SA as [LA _].
  rewrite np_sum_nth_seq, length_dot, LA.
  rewrite <- (sum_inflow_outflow (vcount g)) by exact WF.
  apply np_sum_map_ext. intros v Hv. apply in_seq in Hv.
  apply (dot_inflow g); auto. lia.
Qed.

(** X12.  In one tick a spiking vertex is reset to the charge it receives,
    and the total charge changes by what the spiking vertices lose and the
    number of arcs that leave them: one unit travels along every arc out of
    a spiking vertex.  The threshold and the charges are integers that the
    floats of the code hold exactly. *)
Theorem X12_tick_charge_balance
    (g : Graph) (A : list (list Z)) (threshold : Z) (acc : list Z) :
  graph_wf g -> sparse_propagator g = Ok A -> length acc = vcount g ->
  held_exactly threshold -> charges_in_range g acc ->
  (forall v, v < vcount g -> (threshold <= nth v acc 0)%Z ->
     nth v (snd (tick A threshold acc)) 0%Z
     = inflow (get_edgelist g) (spiking threshold acc) v) /\
  np_sum (snd (tick A threshold acc))
  = (np_sum acc - np_sum (vmul acc (map bool_to_Z (spiking threshold acc)))
     + outflow (get_edgelist g) (spiking threshold acc))%Z.
Proof.
  intros WF EA La _ _. split.
  - intros v Hv Hs. rewrite (tick_charge_inflow g) by assumption.
    destruct (Z.leb_spec threshold (nth v acc 0%Z)); lia.
  - assert (SA := propagator_square g A WF EA). destruct SA as [LA _].
    unfold tick. cbn [snd]. fold (spiking threshold acc).
    rewrite np_sum_vadd, np_sum_vsub.
    + now rewrite (np_sum_dot_outflow g) by (auto; now rewrite length_spiking).
    + unfold vmul. rewrite length_zip_with, length_map, length_spiking. lia.
    + unfold vsub, vmul. rewrite !length_zip_with, length_map, length_spiking, length_dot.
      lia.
Qed.

Lemma X12_tick_charge_balance_witness :
  np_sum (snd (tick [[0; 0; 1]; [1; 0; 0]; [1; 1; 0]]%Z 3 [5; 1; 4]%Z))
  = Z.add
      (Z.sub (np_sum [5; 1; 4]%Z)
             (np_sum (vmul [5; 1; 4]%Z (map bool_to_Z (spiking 3 [5; 1; 4]%Z)))))
      (outflow [(0, 1); (1, 2); (2, 0); (0, 2)] (spiking 3 [5; 1; 4]%Z)).
Proof.
  apply (X12_tick_charge_balance (mkGraph 3 [(0, 1); (1, 2); (2, 0); (0, 2)])
           [[0; 0; 1]; [1; 0; 0]; [1; 1; 0]]%Z 3 [5; 1; 4]%Z).
  - repeat constructor.
  - reflexivity.
  - reflexivity.
  - unfold held_exactly. rewrite pow_2_53. lia.
  - unfold charges_in_range, ecount. rewrite pow_2_53. cbn [get_edgelist length].
    repeat (constructor; [lia|]). constructor.
Defined.

Lemma tick_quiet (g : Graph) (A : list (list Z)) (threshold : Z) (acc : list Z) :
  graph_wf g -> sparse_propagator g = Ok A -> length acc = vcount g ->
  Forall (fun a => a < threshold)%Z acc ->
  snd (tick A threshold acc) = acc.
Proof.
  intros WF EA La Hq.
  assert (SA := propagator_square g A WF EA). destruct SA as [LA _].
  assert (Hlow : forall v, v < vcount g -> (nth v acc 0 < threshold)%Z).
  { intros v Hv. rewrite Forall_forall in Hq. apply Hq, nth_In. lia. }
  apply (nth_ext _ _ 0%Z 0%Z).
  - rewrite (length_tick (vcount g)); auto.
  - intros v Hv. rewrite (length_tick (vcount g)) in Hv by assumption.
    rewrite (tick_charge_inflow g) by assumption.
    specialize (Hlow v Hv) as Hl.
    destruct (Z.leb_spec threshold (nth v acc 0%Z)); [lia|].
    rewrite inflow_quiet; [lia|].
    intros u Hu.
    assert (Hu' : u < vcount g).
    { unfold graph_wf in WF. rewrite Forall_forall in WF. apply (WF (u, v) Hu). }
    rewrite nth_spiking by lia. specialize (Hlow u Hu').
    destruct (Z.leb_spec threshold (nth u acc 0%Z)); [lia|reflexivity].
Qed.

Lemma spiking_quiet (threshold : Z) (acc : list Z) :
  Forall (fun a => a < threshold)%Z acc ->
  spiking threshold acc = repeat false (length acc).
Proof.
  induction 1 as [|a acc Ha HF IH]; simpl; [reflexivity|].
  rewrite IH. destruct (Z.leb_spec threshold a); [lia|reflexivity].
Qed.

Lemma charge_at_quiet (g : Graph) (A : list (list Z)) (threshold : Z) (acc : list Z) :
  graph_wf g -> sparse_propagator g = Ok A -> length acc = vcount g ->
  Forall (fun a => a < threshold)%Z acc ->
  forall t, charge_at A threshold acc t = acc.
Proof.
  intros WF EA La Hq t. induction t as [|t IH]; cbn [charge_at]; [reflexivity|].
  now rewrite (tick_quiet g).
Qed.

(** X13.  A state in which no vertex is at the threshold is absorbing: the
    tick leaves every charge as it is, so the charges never change again
    and no vertex spikes in any later tick.  The threshold and the charges
    are integers that the floats of the code hold exactly. *)
Theorem X13_quiet_state_is_absorbing
    (g : Graph) (A : list (list Z)) (threshold : Z) (acc : list Z) :
  graph_wf g -> sparse_propagator g = Ok A -> length acc = vcount g ->
  held_exactly threshold -> charges_in_range g acc ->
  Forall (fun a => a < threshold)%Z acc ->
  forall t,
    charge_at A threshold acc t = acc /\
    (forall v, spikes_at A threshold acc t v = false) /\
    (forall first len v, fire_count A threshold acc first len v = 0%Z).
Proof.
  intros WF EA La _ _ Hq.
  assert (Hs : forall t v, spikes_at A threshold acc t v = false).
  { intros t v. unfold spikes_at. rewrite (charge_at_quiet g) by assumption.
    rewrite spiking_quiet by assumption.
    destruct (Nat.lt_ge_cases v (length acc)).
    - now apply nth_repeat_lt.
    - apply nth_overflow. now rewrite repeat_length. }
  intros t. split; [now apply (charge_at_quiet g)|]. split; [apply Hs|].
  intros first len v. unfold fire_count.
  replace (filter (fun t0 => spikes_at A threshold acc t0 v) (seq first len))
    with (@nil nat); [reflexivity|].
  symmetry. induction (seq first len) as [|x l IH]; simpl; [reflexivity|].
  now rewrite Hs.
Qed.

Lemma X13_quiet_state_is_absorbing_witness :
  charge_at [[0; 0; 1]; [1; 0; 0]; [1; 1; 0]]%Z 5 [4; 1; 3]%Z 7 = [4; 1; 3]%Z.
Proof.
  apply (X13_quiet_state_is_absorbing (mkGraph 3 [(0, 1); (1, 2); (2, 0); (0, 2)])
           [[0; 0; 1]; [1; 0; 0]; [1; 1; 0]]%Z 5 [4; 1; 3]%Z).
  - repeat constructor.
  - reflexivity.
  - reflexivity.
  - unfold held_exactly. rewrite pow_2_53. lia.
  - unfold charges_in_range, ecount. rewrite pow_2_53. cbn [get_edgelist length].
    repeat (constructor; [lia|]). constructor.
  - repeat (constructor; [lia|]). constructor.
Defined.

Lemma np_sum_bool_quiet (n : nat) : np_sum_bool (repeat false n) = 0%Z.
Proof.
  unfold np_sum_bool. induction n as [|n IH]; simpl; [reflexivity|]. rewrite IH. lia.
Qed.

Lemma charge_bound_low (threshold : Z) :
  (1 <= threshold <= 3)%Z -> charge_bound threshold = threshold.
Proof.
  intros H. unfold charge_bound.
  assert (E : threshold = 1%Z \/ threshold = 2%Z \/ threshold = 3%Z) by lia.
  destruct E as [->|[->| ->]]; reflexivity.
Qed.

(** X14.  With a threshold of 1, 2 or 3 the initial charges are all below
    the threshold ([int(1.3*threshold) = threshold]), so nothing ever
    fires: the simulator returns a zero fire count for every vertex and 0
    spikes in the last tick. *)
Theorem X14_low_threshold_never_fires
    (g : Graph) (threshold tmax trimsz : Z) (w : World) :
  graph_wf g -> get_edgelist g <> [] -> (1 <= threshold <= 3)%Z -> (trimsz < tmax)%Z ->
  exists w',
    simu_intandfire g threshold tmax trimsz w = (Ok (zeros (vcount g), 0%Z), w').
Proof.
  intros WF NE Ht Hlen.
  pose proof (charge_bound_low threshold Ht) as Eb.
  destruct (simu_intandfire_run g threshold tmax trimsz w WF NE)
    as (A & acc0 & w' & fires & EA & Er & L0 & Lf & _ & Hf & Erun);
    [rewrite int64_max_value; lia|].
  destruct (randint_size_inv _ _ _ _ _ Er) as [Hr _].
  assert (Hq : Forall (fun a => a < threshold)%Z acc0).
  { eapply Forall_impl; [|exact Hr]. simpl. intros; lia. }
  exists w'. rewrite Erun. unfold final_mask.
  destruct (Z.to_nat (tmax - trimsz)) as [|l] eqn:El; [lia|].
  rewrite (charge_at_quiet g) by assumption.
  rewrite spiking_quiet, np_sum_bool_quiet by assumption.
  f_equal. f_equal. f_equal.
  apply (nth_ext _ _ 0%Z 0%Z); [now rewrite length_zeros|].
  intros v Hv. rewrite Lf in Hv. rewrite (Hf v Hv), nth_zeros.
  unfold fire_count.
  replace (filter (fun t => spikes_at A threshold acc0 t v) (seq (Z.to_nat trimsz) (S l)))
    with (@nil nat); [reflexivity|].
  symmetry. induction (seq (Z.to_nat trimsz) (S l)) as [|x s IH]; [reflexivity|].
  cbn [filter]. unfold spikes_at at 1.
  rewrite (charge_at_quiet g), spiking_quiet by assumption.
  rewrite L0, nth_repeat_lt by assumption. exact IH.
Qed.

Lemma X14_low_threshold_never_fires_witness :
  exists w',
    simu_intandfire (mkGraph 3 [(0, 1); (1, 2); (2, 0); (0, 2)]) 3 20 5
      (mkWorld (mkRandomState (fun i => Z.of_nat (5 * i + 2)) 0) [])
    = (Ok (zeros 3, 0%Z), w').
Proof.
  apply (X14_low_threshold_never_fires (mkGraph 3 [(0, 1); (1, 2); (2, 0); (0, 2)]) 3 20 5).
  - repeat constructor.
  - discriminate.
  - lia.
  - lia.
Defined.

Lemma np_sum_bool_bounds (m : list bool) :
  (0 <= np_sum_bool m <= Z.of_nat (length m))%Z.
Proof.
  unfold np_sum_bool. induction m as [|b m IH]; simpl; [lia|].
  destruct b; cbn [bool_to_Z]; lia.
Qed.

Lemma fire_count_bounds (A : list (list Z)) (threshold : Z) (acc : list Z)
    (first len v : nat) :
  (0 <= fire_count A threshold acc first len v <= Z.of_nat len)%Z.
Proof.
  unfold fire_count. split; [lia|].
  pose proof (filter_length_le (fun t => spikes_at A threshold acc t v) (seq first len)) as H.
  rewrite length_seq in H. lia.
Qed.

(** X15.  When the simulator returns, it returns one fire count per vertex,
    each between 0 and the number [tmax - trimsz] of measured ticks, and a
    last-tick spike count between 0 and the number of vertices. *)
Theorem X15_fire_counts_are_bounded
    (g : Graph) (threshold tmax trimsz : Z) (w w' : World) (fires : list Z) (last : Z) :
  graph_wf g ->
  simu_intandfire g threshold tmax trimsz w = (Ok (fires, last), w') ->
  length fires = vcount g /\
  Forall (fun f => 0 <= f <= Z.max 0 (tmax - trimsz))%Z fires /\
  (0 <= last <= Z.of_nat (vcount g))%Z.
Proof.
  intros WF E.
  assert (NE : get_edgelist g <> []).
  { intros En. unfold simu_intandfire, bind, lift in E.
    destruct (randint_size (charge_bound threshold) (vcount g) w) as [[acc|e] w1];
      [|discriminate].
    unfold sparse_propagator in E. rewrite En in E. discriminate. }
  assert (Hn : 0 < vcount g).
  { destruct (get_edgelist g) as [|e es] eqn:Ee; [congruence|].
    unfold graph_wf in WF. rewrite Ee in WF. inversion WF; lia. }
  assert (Hb : (0 < charge_bound threshold <= int64_max + 1)%Z).
  { unfold simu_intandfire, bind, randint_size in E.
    destruct (vcount g) as [|n']; [lia|].
    destruct (Z.leb_spec (charge_bound threshold) 0); [discriminate|].
    destruct (Z.ltb_spec int64_max (charge_bound threshold - 1)); [discriminate|]. lia. }
  destruct (simu_intandfire_run g threshold tmax trimsz w WF NE Hb)
    as (A & acc0 & w1 & fires1 & EA & Er & L0 & Lf & _ & Hf & Erun).
  rewrite Erun in E.
  assert (LA : length A = vcount g) by (apply (propagator_square g A WF EA)).
  destruct (final_mask A threshold acc0 (Z.to_nat trimsz) (Z.to_nat (tmax - trimsz)))
    as [sp|] eqn:Em; inversion E; subst; clear E.
  split; [assumption|]. split.
  - apply Forall_of_nth. intros v Hv. rewrite Lf in Hv. rewrite (Hf v Hv).
    pose proof (fire_count_bounds A threshold acc0 (Z.to_nat trimsz)
                  (Z.to_nat (tmax - trimsz)) v). lia.
  - pose proof (np_sum_bool_bounds sp) as Hb'.
    assert (Ls : length sp = vcount g).
    { unfold final_mask in Em.
      destruct (Z.to_nat (tmax - trimsz)); [destruct (Z.to_nat trimsz); [discriminate|]|];
        inversion Em; subst; rewrite length_spiking;
        now apply length_charge_at. }
    rewrite Ls in Hb'. exact Hb'.
Qed.

Lemma X15_fire_counts_are_bounded_witness :
  exists fires last w',
    simu_intandfire (mkGraph 3 [(0, 1); (1, 2); (2, 0); (0, 2)]) 4 12 2
      (mkWorld (mkRandomState (fun i => Z.of_nat (3 * i + 4)) 0) [])
    = (Ok (fires, last), w') /\
    Forall (fun f => 0 <= f <= Z.max 0 (12 - 2))%Z fires /\ (0 <= last <= 3)%Z.
Proof.
  destruct (simu_intandfire (mkGraph 3 [(0, 1); (1, 2); (2, 0); (0, 2)]) 4 12 2
              (mkWorld (mkRandomState (fun i => Z.of_nat (3 * i + 4)) 0) []))
    as [[[fires last]|e] w'] eqn:E; [|vm_compute in E; discriminate].
  assert (WF : graph_wf (mkGraph 3 [(0, 1); (1, 2); (2, 0); (0, 2)]))
    by (repeat constructor).
  destruct (X15_fire_counts_are_bounded _ _ _ _ _ _ _ _ WF E) as (_ & H2 & H3).
  exists fires, last, w'. split; [reflexivity|]. split; assumption.
Defined.




(** ** EpidemicSimulator: extinction, persistence and saturation *)

Lemma where_from_none {X} (nz : X -> bool) (v : list X) :
  Forall (fun x => nz x = false) v -> forall i, where_from nz i v = [].
Proof.
  induction 1 as [|x v Hx HF IH]; intros i; simpl; [reflexivity|].
  rewrite Hx. apply IH.
Qed.

Lemma where_from_all {X} (nz : X -> bool) (v : list X) :
  Forall (fun x => nz x = true) v -> forall i, where_from nz i v = seq i (length v).
Proof.
  induction 1 as [|x v Hx HF IH]; intros i; simpl; [reflexivity|].
  rewrite Hx. f_equal. apply IH.
Qed.

Lemma take_all_from {X} (v : list X) :
  forall pre, take (pre ++ v) (seq (length pre) (length v)) = Ok v.
Proof.
  induction v as [|x v IH]; intros pre; simpl; [reflexivity|].
  rewrite nth_error_app2, Nat.sub_diag by lia. simpl.
  replace (pre ++ x :: v) with ((pre ++ [x]) ++ v) by (now rewrite <- app_assoc).
  replace (S (length pre)) with (length (pre ++ [x])) by (rewrite length_app; simpl; lia).
  now rewrite IH.
Qed.

Lemma take_all {X} (v : list X) : take v (seq 0 (length v)) = Ok v.
Proof. apply (take_all_from v []). Qed.

Lemma random_sample_inv (w w' : World) (u : Q) :
  random_sample w = (Ok u, w') -> (0 <= u)%Q /\ (u < 1)%Q.
Proof.
  intros E. destruct (random_sample_spec w) as (u' & w1 & E' & H0 & H1 & _).
  rewrite E in E'. inversion E'; subst. auto.
Qed.

Lemma rand_inv (k : Z) (w w' : World) (xs : list Q) :
  rand k w = (Ok xs, w') ->
  Forall (fun u => 0 <= u /\ u < 1)%Q xs /\ length xs = Z.to_nat k /\ (0 <= k)%Z.
Proof.
  unfold rand. destruct (Z.ltb_spec k 0); [discriminate|]. intros E.
  destruct (draws_inv random_sample (fun u => 0 <= u /\ u < 1)%Q
              (fun w0 x w1 => random_sample_inv w0 w1 x) _ _ _ _ E).
  auto.
Qed.

Lemma rand_zero (w : World) : rand 0 w = (Ok [], w).
Proof. reflexivity. Qed.

Lemma all_zero_is_zeros (l : list Z) :
  Forall (fun a => a = 0%Z) l -> l = zeros (length l).
Proof.
  induction 1 as [|a l Ha HF IH]; simpl; [reflexivity|]. subst.
  unfold zeros in *. simpl. now rewrite <- IH.
Qed.

Lemma vsub_self (l : list Z) : vsub l l = zeros (length l).
Proof.
  induction l as [|a l IH]; [reflexivity|].
  unfold vsub, zeros in *. simpl. rewrite IH. f_equal. lia.
Qed.

Lemma mask_rows_none (adj : list (list Z)) (n : nat) :
  0 < n -> length adj = n ->
  mask_rows adj (map nonzero (zeros n)) = Ok [].
Proof.
  intros Hn L. unfold mask_rows.
  destruct adj as [|r adj]; [simpl in L; lia|].
  rewrite length_map, length_zeros, L, Nat.eqb_refl.
  f_equal. clear Hn. revert n L. generalize (r :: adj) as rows.
  induction rows as [|x rows IH]; intros n L; [reflexivity|].
  destruct n as [|n]; [discriminate|]. simpl. apply (IH n). simpl in L. lia.
Qed.

Lemma zero_probs (q : list Q) :
  Forall (fun p => nonzeroQ p = false)
         (zip_with (fun qi k => (1 - Qpower qi k)%Q) q (zeros (length q))).
Proof.
  induction q as [|x q IH]; simpl; constructor; [|exact IH].
  unfold nonzeroQ. apply negb_false_iff, Qeq_bool_iff. simpl. ring.
Qed.

(** Without infected vertex the infection phase changes nothing and draws
    nothing. *)
Lemma infection_disease_free (n : nat) (adj : list (list Z)) (beta : Q) (w : World) :
  0 < n -> square n adj ->
  infection adj (zeros n) beta w = (Ok (zeros n), w).
Proof.
  intros Hn [L HF]. unfold infection, bind, lift, infected_in_neighbors.
  rewrite (mask_rows_none adj n Hn L). cbn [sum_axis0 fold_right].
  assert (L0 : length (hd [] adj) = n).
  { destruct adj as [|r adj]; [simpl in L; lia|]. now inversion HF. }
  rewrite L0. unfold infection_probs.
  rewrite length_map, length_zeros, L, Nat.eqb_refl.
  set (q := map (fun _ : list Z => (1 - beta)%Q) adj).
  assert (Lq : length q = n) by (unfold q; now rewrite length_map).
  assert (Hz : np_where nonzeroQ (zip_with (fun qi k => (1 - Qpower qi k)%Q) q (zeros n)) = []).
  { unfold np_where. apply where_from_none. rewrite <- Lq. apply zero_probs. }
  rewrite Hz. reflexivity.
Qed.

Lemma recovery_disease_free (n : nat) (gamma : Q) (w : World) :
  recovery (zeros n) gamma w = (Ok (zeros n), w).
Proof.
  unfold recovery. rewrite np_sum_zeros. unfold bind. rewrite rand_zero.
  cbn [map np_where where_from take lift]. reflexivity.
Qed.

(** X17.  Without infected vertex a tick changes nothing, reports no new
    infection and draws no random number; [simu_sis] started with
    [i0 = 0] therefore returns only zeros. *)
Theorem X17_disease_free_state_is_absorbing
    (g : Graph) (beta gamma : Q) (trimsz tmax : Z) (w : World) :
  0 < vcount g ->
  infection_step (get_adjacency g) (zeros (vcount g)) beta gamma w
  = (Ok (zeros (vcount g), zeros (vcount g)), w) /\
  ((trimsz < tmax)%Z ->
   exists w', simu_sis g beta gamma 0 trimsz tmax w = (Ok (zeros (vcount g), 0%Z), w')).
Proof.
  intros Hn. pose proof (square_get_adjacency g) as SA.
  set (n := vcount g) in *. set (adj := get_adjacency g) in *.
  assert (Hstep : forall w0,
            infection_step adj (zeros n) beta gamma w0 = (Ok (zeros n, zeros n), w0)).
  { intros w0. unfold infection_step, bind.
    rewrite recovery_disease_free.
    rewrite (infection_disease_free n adj beta w0 Hn SA). unfold ret.
    now rewrite vsub_self, length_zeros. }
  split; [apply Hstep|]. intros Ht.
  assert (Htrim : forall k w0, sis_trim_loop adj beta gamma k (zeros n) w0 = (Ok (zeros n), w0)).
  { induction k as [|k IH]; intros w0; cbn [sis_trim_loop]; [reflexivity|].
    unfold bind. rewrite Hstep. apply IH. }
  assert (Hcount : forall k ninfec newinf w0,
            length ninfec = n ->
            sis_count_loop adj beta gamma k (zeros n) ninfec newinf w0
            = (Ok (zeros n, ninfec,
                   match k with O => newinf | S _ => Some (zeros n) end), w0)).
  { induction k as [|k IH]; intros ninfec newinf w0 Ln; cbn [sis_count_loop];
      [reflexivity|].
    unfold bind. rewrite Hstep.
    assert (Ev : vadd ninfec (zeros n) = ninfec).
    { apply (nth_ext _ _ 0%Z 0%Z).
      - unfold vadd. rewrite length_zip_with, length_zeros. lia.
      - intros v Hv. unfold vadd in *. rewrite length_zip_with, length_zeros in Hv.
        rewrite (nth_zip_with Z.add _ _ _ 0 0 0)%Z by (rewrite ?length_zeros; lia).
        rewrite nth_zeros. lia. }
    rewrite Ev, IH by assumption. destruct k; reflexivity. }
  unfold simu_sis. fold n adj. unfold bind.
  destruct (set_initial_status_ok n 0 w) as (s0 & w1 & E0); [assumption|lia|].
  rewrite E0.
  assert (Es0 : s0 = zeros n).
  { unfold set_initial_status, choice_without_replacement, bind, lift in E0.
    cbn [Z.ltb Z.compare] in E0.
    destruct (Z.ltb_spec (Z.of_nat n) 0); [lia|].
    destruct (shuffle (seq 0 n) w) as [[perm|e] w2]; [|discriminate].
    unfold ret in E0. cbn [Z.to_nat firstn put] in E0.
    destruct n; [lia|]. now inversion E0. }
  subst s0. rewrite Htrim, Hcount by apply length_zeros.
  destruct (Z.to_nat (tmax - trimsz)) as [|l] eqn:El; [lia|].
  exists w1. unfold ret. now rewrite np_sum_zeros.
Qed.

Lemma X17_disease_free_state_is_absorbing_witness :
  exists w',
    simu_sis (mkGraph 3 [(0, 1); (1, 2); (2, 0)]) (1 # 2) (1 # 3) 0 2 9
      (mkWorld (mkRandomState (fun i => Z.of_nat i) 0) []) = (Ok (zeros 3, 0%Z), w').
Proof.
  apply (X17_disease_free_state_is_absorbing (mkGraph 3 [(0, 1); (1, 2); (2, 0)])
           (1 # 2) (1 # 3) 2 9); [simpl|]; lia.
Defined.

Lemma recovery_unfold (status0 : list Z) (gamma : Q) (w w1 : World) (randvals : list Q) :
  rand (np_sum status0) w = (Ok randvals, w1) ->
  recovery status0 gamma w
  = match take (np_where nonzero status0)
            (np_where (fun b : bool => b) (map (fun r => Qlt_bool r gamma) randvals)) with
    | Raise e => (Raise e, w1)
    | Ok recinds =>
        match put status0 recinds 0%Z with
        | Raise e => (Raise e, w1)
        | Ok s => (Ok s, w1)
        end
    end.
Proof.
  intros E. unfold recovery, bind, lift. rewrite E.
  destruct (take _ _); [|reflexivity]. destruct (put _ _ _); reflexivity.
Qed.

(** With [gamma >= 1] every infected vertex recovers. *)
Lemma recovery_certain (status0 : list Z) (gamma : Q) (w : World) :
  binary status0 -> (1 <= gamma)%Q ->
  exists w1, recovery status0 gamma w = (Ok (zeros (length status0)), w1).
Proof.
  intros B Hg.
  destruct (rand_ok (np_sum status0) w) as (randvals & w1 & Er & Lr).
  { apply binary_sum_bounds; assumption. }
  exists w1. rewrite (recovery_unfold _ _ _ _ _ Er).
  destruct (rand_inv _ _ _ _ Er) as (Hr & _ & _).
  assert (Hl : np_where (fun b : bool => b) (map (fun r => Qlt_bool r gamma) randvals)
               = seq 0 (length (np_where nonzero status0))).
  { unfold np_where at 1. rewrite where_from_all.
    - rewrite length_map, Lr, (binary_count _ B), Nat2Z.id. reflexivity.
    - apply Forall_forall. intros b Hb. apply in_map_iff in Hb.
      destruct Hb as (r & <- & Hin). rewrite Forall_forall in Hr.
      destruct (Hr r Hin) as [_ H1]. apply Qlt_bool_iff. lra. }
  rewrite Hl, take_all.
  destruct (put_ok 0%Z (np_where nonzero status0) status0 (np_where_lt _ _)) as (s1 & Ep).
  rewrite Ep. f_equal. f_equal.
  destruct (put_spec 0%Z 0%Z _ _ _ Ep) as (L & _ & Hn).
  rewrite <- L. apply all_zero_is_zeros. apply Forall_of_nth. intros v Hv.
  rewrite L in Hv. rewrite (Hn v Hv).
  destruct (mem v (np_where nonzero status0)) eqn:Em; [reflexivity|].
  apply mem_false in Em.
  destruct (Z.eq_dec (nth v status0 0%Z) 0) as [|N]; [assumption|].
  exfalso. apply Em. apply np_where_In. exists (nth v status0 0%Z).
  split; [now apply nth_error_nth'|].
  unfold nonzero. now apply negb_true_iff, Z.eqb_neq.
Qed.

(** X18.  With [gamma >= 1] every infected vertex recovers at the start of
    the tick, before it can infect any other: whatever [beta] is, the tick
    returns a status without infected vertex and reports no new
    infection. *)
Theorem X18_certain_recovery_ends_the_epidemic
    (n : nat) (adj : list (list Z)) (status0 : list Z) (beta gamma : Q) (w : World) :
  0 < n -> square n adj -> length status0 = n -> binary status0 -> (1 <= gamma)%Q ->
  exists w', infection_step adj status0 beta gamma w = (Ok (zeros n, zeros n), w').
Proof.
  intros Hn SA L0 B Hg.
  destruct (recovery_certain status0 gamma w B Hg) as (w1 & Er).
  exists w1. unfold infection_step, bind. rewrite Er, L0.
  rewrite (infection_disease_free n adj beta w1 Hn SA). unfold ret.
  now rewrite vsub_self, length_zeros.
Qed.

Lemma X18_certain_recovery_ends_the_epidemic_witness :
  exists w',
    infection_step [[0; 1; 1]; [0; 0; 1]; [1; 0; 0]]%Z [1; 1; 0]%Z 1 1
      (mkWorld (mkRandomState (fun i => Z.of_nat (11 * i)) 0) [])
    = (Ok (zeros 3, zeros 3), w').
Proof.
  apply (X18_certain_recovery_ends_the_epidemic 3
           [[0; 1; 1]; [0; 0; 1]; [1; 0; 0]]%Z [1; 1; 0]%Z 1 1).
  - lia.
  - split; [reflexivity|]. repeat (constructor; [reflexivity|]). constructor.
  - reflexivity.
  - repeat (constructor; [auto|]). constructor.
  - apply Qle_refl.
Defined.

(** With [gamma <= 0] no vertex recovers. *)
Lemma recovery_never (status0 : list Z) (gamma : Q) (w : World) :
  binary status0 -> (gamma <= 0)%Q ->
  exists w1, recovery status0 gamma w = (Ok status0, w1).
Proof.
  intros B Hg.
  destruct (rand_ok (np_sum status0) w) as (randvals & w1 & Er & Lr).
  { apply binary_sum_bounds; assumption. }
  exists w1. rewrite (recovery_unfold _ _ _ _ _ Er).
  destruct (rand_inv _ _ _ _ Er) as (Hr & _ & _).
  assert (Hl : np_where (fun b : bool => b) (map (fun r => Qlt_bool r gamma) randvals) = []).
  { unfold np_where. apply where_from_none.
    apply Forall_forall. intros b Hb. apply in_map_iff in Hb.
    destruct Hb as (r & <- & Hin). rewrite Forall_forall in Hr.
    destruct (Hr r Hin) as [H0 _]. apply Qlt_bool_false. lra. }
  rewrite Hl. reflexivity.
Qed.

(** X19.  With [gamma <= 0] no vertex recovers: every vertex infected
    before the tick is infected after it, so the number of infected
    vertices never decreases. *)
Theorem X19_without_recovery_infection_persists
    (n : nat) (adj : list (list Z)) (status0 : list Z) (beta gamma : Q) (w : World) :
  0 < n -> square n adj -> length status0 = n -> binary status0 -> (gamma <= 0)%Q ->
  exists status2 w',
    infection_step adj status0 beta gamma w = (Ok (status2, vsub status2 status0), w') /\
    (forall v, nth v status0 0%Z = INFECTED -> nth v status2 0%Z = INFECTED) /\
    (np_sum status0 <= np_sum status2)%Z.
Proof.
  intros Hn SA L0 B Hg.
  destruct (recovery_never status0 gamma w B Hg) as (w1 & Er).
  destruct (infection_ok n adj status0 beta w1 Hn SA L0) as (status2 & w2 & Ei).
  exists status2, w2. unfold infection_step, bind. rewrite Er, Ei.
  split; [reflexivity|].
  destruct (infection_inv _ _ _ _ _ _ Ei) as (kins & probs & _ & _ & L2 & H2).
  assert (Hge : forall v, (nth v status0 0 <= nth v status2 0)%Z).
  { intros v. destruct (H2 v) as [->|[-> _]]; [lia|].
    destruct (binary_nth status0 v B); lia. }
  split.
  - intros v Hv. unfold INFECTED in *.
    destruct (H2 v) as [->|[-> _]]; [assumption|reflexivity].
  - clear -Hge L2. revert status2 L2 Hge.
    induction status0 as [|a s0 IH]; intros [|b s2] L Hge; simpl in *; try lia.
    specialize (IH s2 ltac:(lia) (fun v => Hge (S v))).
    specialize (Hge 0). simpl in Hge. lia.
Qed.

Lemma X19_without_recovery_infection_persists_witness :
  exists status2 w',
    infection_step [[0; 1; 1]; [0; 0; 1]; [1; 0; 0]]%Z [1; 1; 0]%Z (1 # 2) 0
      (mkWorld (mkRandomState (fun i => Z.of_nat (11 * i)) 0) [])
    = (Ok (status2, vsub status2 [1; 1; 0]%Z), w') /\
    (np_sum [1; 1; 0] <= np_sum status2)%Z.
Proof.
  destruct (X19_without_recovery_infection_persists 3
              [[0; 1; 1]; [0; 0; 1]; [1; 0; 0]]%Z [1; 1; 0]%Z (1 # 2) 0
              (mkWorld (mkRandomState (fun i => Z.of_nat (11 * i)) 0) []))
    as (status2 & w' & H1 & _ & H3).
  - lia.
  - split; [reflexivity|]. repeat (constructor; [reflexivity|]). constructor.
  - reflexivity.
  - repeat (constructor; [auto|]). constructor.
  - apply Qle_refl.
  - exists status2, w'. split; assumption.
Defined.



Lemma take_length {X} (v : list X) (idx : list nat) (xs : list X) :
  take v idx = Ok xs -> length xs = length idx.
Proof.
  revert xs. induction idx as [|k idx IH]; intros xs E; simpl in E.
  - now inversion E.
  - destruct (nth_error v k); [|discriminate].
    destruct (take v idx) as [ys|]; [|discriminate].
    inversion E; subst. simpl. f_equal. now apply IH.
Qed.




(** ** EpidemicSimulator: the counts of new infections *)

Lemma np_sum_le_nth (u : list Z) :
  forall v, length u = length v ->
    (forall i, (nth i u 0 <= nth i v 0)%Z) -> (np_sum u <= np_sum v)%Z.
Proof.
  induction u as [|a u IH]; intros [|b v] L H; simpl in *; try lia.
  pose proof (H 0) as H0. simpl in H0.
  assert (np_sum u <= np_sum v)%Z; [|lia].
  apply IH; [lia|]. intros i. apply (H (S i)).
Qed.

Lemma np_sum_nonneg_nth (u : list Z) :
  (forall i, (0 <= nth i u 0)%Z) -> (0 <= np_sum u)%Z.
Proof.
  induction u as [|a u IH]; intros H; simpl; [lia|].
  pose proof (H 0) as H0. simpl in H0.
  assert (0 <= np_sum u)%Z; [|lia]. apply IH. intros i. apply (H (S i)).
Qed.

(** The three status vectors of a tick and the vector of new infections. *)
Lemma infection_step_delta (adj : list (list Z)) (status0 : list Z) (beta gamma : Q)
    (w w2 : World) (status2 delta : list Z) :
  binary status0 ->
  infection_step adj status0 beta gamma w = (Ok (status2, delta), w2) ->
  exists status1,
    length status1 = length status0 /\ length status2 = length status0 /\
    binary status1 /\ binary status2 /\ delta = vsub status2 status1 /\
    (forall v, nth v status1 0%Z = nth v status0 0%Z \/ nth v status1 0%Z = 0%Z) /\
    (forall v, nth v status2 0%Z = nth v status1 0%Z \/ nth v status2 0%Z = 1%Z).
Proof.
  intros B E.
  destruct (infection_step_binary _ _ _ _ _ _ _ _ B E) as [B2 L2].
  destruct (infection_step_inv _ _ _ _ _ _ _ _ E) as (status1 & w1 & Er & Ei & ->).
  destruct (recovery_inv _ _ _ _ _ Er) as (L1 & H1).
  destruct (infection_inv _ _ _ _ _ _ Ei) as (kins & probs & _ & _ & L2' & H2).
  exists status1. repeat (split; [first [assumption|reflexivity]|]).
  split.
  { apply binary_of_nth. intros v _.
    destruct (H1 v) as [->| ->]; [now apply binary_nth|now left]. }
  split; [assumption|]. split; [reflexivity|]. split; [assumption|].
  intros v. destruct (H2 v) as [H|[H _]]; auto.
Qed.

Lemma delta_binary (status1 status2 : list Z) :
  length status1 = length status2 -> binary status1 -> binary status2 ->
  (forall v, nth v status2 0%Z = nth v status1 0%Z \/ nth v status2 0%Z = 1%Z) ->
  binary (vsub status2 status1) /\ length (vsub status2 status1) = length status2 /\
  forall v, v < length status2 ->
    nth v (vsub status2 status1) 0%Z = (nth v status2 0 - nth v status1 0)%Z.
Proof.
  intros L B1 B2 H.
  assert (Hn : forall v, v < length status2 ->
            nth v (vsub status2 status1) 0%Z = (nth v status2 0 - nth v status1 0)%Z).
  { intros v Hv. unfold vsub. apply nth_zip_with; lia. }
  assert (Ld : length (vsub status2 status1) = length status2).
  { unfold vsub. rewrite length_zip_with. lia. }
  split; [|split; assumption].
  apply binary_of_nth. intros v Hv. rewrite Ld in Hv. rewrite (Hn v Hv).
  destruct (H v) as [->|E]; [left; lia|].
  rewrite E. destruct (binary_nth status1 v B1) as [->| ->]; [right|left]; reflexivity.
Qed.

(** X21.  The second value of a tick marks the vertices that are infected
    at its end and were not after its recovery phase: it has entries in
    {0, 1}, marks only infected vertices and every vertex that was
    susceptible and became infected; its sum is at least the net growth
    [np.sum(status2) - np.sum(status0)] of the number of infected vertices,
    since a vertex that recovers and is infected again in the same tick is
    counted. *)
Theorem X21_new_infections_against_recovered_status
    (adj : list (list Z)) (status0 : list Z) (beta gamma : Q)
    (w w2 : World) (status2 delta : list Z) :
  binary status0 ->
  infection_step adj status0 beta gamma w = (Ok (status2, delta), w2) ->
  binary delta /\ length delta = length status0 /\
  (forall v, nth v delta 0%Z = 1%Z -> nth v status2 0%Z = INFECTED) /\
  (forall v, v < length status0 ->
     nth v status0 0%Z = SUSCEPTIBLE -> nth v status2 0%Z = INFECTED ->
     nth v delta 0%Z = 1%Z) /\
  (0 <= np_sum delta <= np_sum status2)%Z /\
  (np_sum status2 - np_sum status0 <= np_sum delta)%Z.
Proof.
  intros B E.
  destruct (infection_step_delta _ _ _ _ _ _ _ _ B E)
    as (status1 & L1 & L2 & B1 & B2 & -> & H1 & H2).
  destruct (delta_binary status1 status2) as (Bd & Ld & Hn); try congruence; try assumption.
  split; [assumption|]. split; [congruence|].
  split; [|split; [|split]].
  - intros v Hv. unfold INFECTED.
    destruct (Nat.lt_ge_cases v (length status2)) as [Hlt|Hge].
    + rewrite (Hn v Hlt) in Hv.
      destruct (binary_nth status2 v B2) as [E2|E2]; [|assumption].
      destruct (binary_nth status1 v B1) as [E1|E1]; rewrite E1, E2 in Hv; discriminate.
    + rewrite nth_overflow in Hv by lia. discriminate.
  - unfold SUSCEPTIBLE, INFECTED. intros v Hv H0 H2'.
    rewrite Hn by lia. rewrite H2'.
    destruct (H1 v) as [->| ->]; [rewrite H0|]; reflexivity.
  - rewrite np_sum_vsub by congruence.
    pose proof (binary_sum_bounds _ B1) as S1.
    pose proof (binary_sum_bounds _ Bd) as Sd.
    rewrite np_sum_vsub in Sd by congruence. lia.
  - rewrite np_sum_vsub by congruence.
    assert (np_sum status1 <= np_sum status0)%Z; [|lia].
    apply np_sum_le_nth; [assumption|]. intros v.
    destruct (H1 v) as [->| ->]; [lia|].
    destruct (binary_nth status0 v B) as [->| ->]; lia.
Qed.

Lemma X21_new_infections_against_recovered_status_witness :
  exists status2 delta w2,
    infection_step [[0; 1; 1]; [0; 0; 1]; [1; 0; 0]]%Z [1; 0; 1]%Z (1 # 2) (1 # 3)
      (mkWorld (mkRandomState (fun i => Z.of_nat (5 * i)) 0) [])
    = (Ok (status2, delta), w2) /\
    binary delta /\ (np_sum status2 - 2 <= np_sum delta <= np_sum status2)%Z.
Proof.
  destruct (infection_step [[0; 1; 1]; [0; 0; 1]; [1; 0; 0]]%Z [1; 0; 1]%Z (1 # 2) (1 # 3)
              (mkWorld (mkRandomState (fun i => Z.of_nat (5 * i)) 0) []))
    as [[[status2 delta]|e] w2] eqn:E; [|vm_compute in E; discriminate].
  assert (B : binary [1; 0; 1]%Z) by (repeat (constructor; [auto|]); constructor).
  destruct (X21_new_infections_against_recovered_status _ _ _ _ _ _ _ _ B E)
    as (H1 & _ & _ & _ & H5 & H6).
  exists status2, delta, w2. split; [reflexivity|]. split; [assumption|].
  cbn [np_sum] in H6. lia.
Defined.

(** ** EpidemicSimulator: the initial status *)

Lemma put_fresh_sum (idx : list nat) :
  forall v v', NoDup idx -> (forall i, In i idx -> nth i v 0%Z = 0%Z) ->
    put v idx 1%Z = Ok v' -> np_sum v' = (np_sum v + Z.of_nat (length idx))%Z.
Proof.
  induction idx as [|i idx IH]; simpl; intros v v' ND Hz E.
  - inversion E; subst. lia.
  - destruct (set_nth i 1%Z v) as [v1|] eqn:E1; [|discriminate].
    apply set_nth_Some in E1. destruct E1 as [Hi ->].
    inversion ND as [|? ? Hni ND']; subst.
    assert (Hz' : forall j, In j idx -> nth j (update i 1%Z v) 0%Z = 0%Z).
    { intros j Hj. rewrite nth_update_neq; [apply Hz; now right|].
      intros Hij. subst j. contradiction. }
    rewrite (IH _ _ ND' Hz' E).
    rewrite np_sum_update by assumption.
    rewrite (Hz i (or_introl eq_refl)). lia.
Qed.

(** X22.  For [n >= 1], [set_initial_status] infects exactly [i0] vertices
    when [0 <= i0 <= n]; for every [n] it raises [ValueError] without
    consuming randomness when [i0] is negative or exceeds [n]; and with no
    vertex and [i0 = 0] it raises [IndexError], the empty sample being an
    array of floats. *)
Theorem X22_initial_status_infects_exactly_i0 (n : nat) (i0 : Z) (w : World) :
  (0 < n -> (0 <= i0 <= Z.of_nat n)%Z ->
   exists status w',
     set_initial_status n i0 w = (Ok status, w') /\
     length status = n /\ binary status /\ np_sum status = i0) /\
  ((i0 < 0 \/ Z.of_nat n < i0)%Z ->
   set_initial_status n i0 w = (Raise ValueError, w)) /\
  set_initial_status 0 0 w = (Raise IndexError, w).
Proof.
  split; [|split].
  - intros Hn H.
    destruct (set_initial_status_ok n i0 w Hn H) as (status & w' & E).
    destruct (set_initial_status_inv _ _ _ _ _ E) as [B L].
    exists status, w'. split; [assumption|]. split; [assumption|]. split; [assumption|].
    unfold set_initial_status, choice_without_replacement, bind, lift in E.
    destruct (Z.ltb_spec i0 0); [lia|].
    destruct (Z.ltb_spec (Z.of_nat n) i0); [lia|].
    destruct (shuffle_perm (seq 0 n) w) as (perm & w1 & Es & P & _).
    rewrite Es in E. unfold ret in E.
    destruct n as [|n']; [lia|]. set (n := S n') in *.
    destruct (put (zeros n) (firstn (Z.to_nat i0) perm) INFECTED) as [s|e] eqn:Ep;
      inversion E; subst s w1; clear E.
    unfold INFECTED in Ep.
    assert (ND : NoDup (firstn (Z.to_nat i0) perm)).
    { assert (ND : NoDup perm).
      { apply (Permutation_NoDup (Permutation_sym P)). apply seq_NoDup. }
      rewrite <- (firstn_skipn (Z.to_nat i0) perm) in ND.
      now apply NoDup_app_remove_r in ND. }
    assert (Hz : forall i, In i (firstn (Z.to_nat i0) perm) -> nth i (zeros n) 0%Z = 0%Z).
    { intros i _. unfold zeros.
      destruct (Nat.lt_ge_cases i n).
      - apply nth_repeat_lt. assumption.
      - apply nth_overflow. rewrite repeat_length. assumption. }
    rewrite (put_fresh_sum _ _ _ ND Hz Ep).
    rewrite np_sum_zeros, length_firstn, (Permutation_length P), length_seq. lia.
  - intros H. unfold set_initial_status, choice_without_replacement, bind, raise.
    destruct (Z.ltb_spec i0 0); [reflexivity|].
    destruct (Z.ltb_spec (Z.of_nat n) i0); [reflexivity|lia].
  - reflexivity.
Qed.

Lemma X22_initial_status_infects_exactly_i0_witness :
  (exists status w',
     set_initial_status 5 2 (mkWorld (mkRandomState (fun i => Z.of_nat (3 * i)) 0) [])
     = (Ok status, w') /\
     length status = 5 /\ binary status /\ np_sum status = 2%Z) /\
  set_initial_status 5 6 (mkWorld (mkRandomState (fun i => Z.of_nat (3 * i)) 0) [])
  = (Raise ValueError, mkWorld (mkRandomState (fun i => Z.of_nat (3 * i)) 0) []).
Proof.
  destruct (X22_initial_status_infects_exactly_i0 5 2
              (mkWorld (mkRandomState (fun i => Z.of_nat (3 * i)) 0) [])) as [H _].
  destruct (X22_initial_status_infects_exactly_i0 5 6
              (mkWorld (mkRandomState (fun i => Z.of_nat (3 * i)) 0) [])) as (_ & H' & _).
  split; [apply H; lia|apply H'; right; reflexivity].
Defined.

(** ** EpidemicSimulator: the counts a run returns *)

Lemma sis_count_loop_bounds (n : nat) (adj : list (list Z)) (beta gamma : Q) (k : nat) :
  0 < n -> square n adj ->
  forall status ninfec newinf w c,
    binary status -> length status = n -> length ninfec = n ->
    (forall v, (0 <= nth v ninfec 0 <= c)%Z) ->
    last_delta_ok n newinf ninfec ->
    exists status' ninfec' newinf' w',
      sis_count_loop adj beta gamma k status ninfec newinf w
      = (Ok (status', ninfec', newinf'), w') /\
      length ninfec' = n /\
      (forall v, (0 <= nth v ninfec' 0 <= c + Z.of_nat k)%Z) /\
      last_delta_ok n newinf' ninfec' /\
      (0 < k \/ newinf <> None -> newinf' <> None).
Proof.
  intros Hn SA. induction k as [|k IH]; intros status ninfec newinf w c B L Ln Hc Hd.
  - exists status, ninfec, newinf, w. split; [reflexivity|]. split; [assumption|].
    split; [intros v; specialize (Hc v); lia|]. split; [assumption|].
    intros [H|H]; [lia|assumption].
  - cbn [sis_count_loop]. unfold bind.
    destruct (infection_step_ok n adj status beta gamma w Hn SA L B)
      as (s & d & w1 & Es).
    rewrite Es.
    destruct (infection_step_delta _ _ _ _ _ _ _ _ B Es)
      as (s1 & L1 & L2 & B1 & B2 & -> & _ & H2).
    destruct (delta_binary s1 s) as (Bd & Ld & _); try congruence; try assumption.
    assert (Lv : length (vadd ninfec (vsub s s1)) = n).
    { unfold vadd. rewrite length_zip_with. lia. }
    assert (Hv : forall v, (0 <= nth v (vadd ninfec (vsub s s1)) 0 <= (c + 1))%Z).
    { intros v. destruct (Nat.lt_ge_cases v n) as [Hlt|Hge].
      - unfold vadd. rewrite (nth_zip_with Z.add _ _ _ 0%Z 0%Z 0%Z) by lia.
        specialize (Hc v). destruct (binary_nth _ v Bd) as [->| ->]; lia.
      - rewrite nth_overflow by lia. specialize (Hc 0). lia. }
    assert (Hd1 : last_delta_ok n (Some (vsub s s1)) (vadd ninfec (vsub s s1))).
    { cbn [last_delta_ok]. split; [assumption|]. split; [lia|].
      rewrite np_sum_vadd by lia.
      assert (0 <= np_sum ninfec)%Z; [|lia].
      apply np_sum_nonneg_nth. intros i. apply Hc. }
    assert (Ls : length s = n) by congruence.
    destruct (IH s (vadd ninfec (vsub s s1)) (Some (vsub s s1)) w1 (c + 1)%Z
                B2 Ls Lv Hv Hd1)
      as (status' & ninfec' & newinf' & w' & E & Ln' & Hc' & Hd' & Hs').
    exists status', ninfec', newinf', w'. split; [assumption|]. split; [assumption|].
    split; [intros v; specialize (Hc' v); lia|]. split; [assumption|].
    intros _. apply Hs'. right. discriminate.
Qed.

(** X23.  On a graph with at least one vertex, with [0 <= i0 <= n] and
    [trimsz < tmax], [simu_sis] returns: the vector of new infections has one
    entry per vertex, each between 0 and the number [tmax - trimsz] of
    measured ticks, and the scalar returned with it, the number of new
    infections of the last tick, lies between 0 and [n] and is at most the
    total of the vector. *)
Theorem X23_simu_sis_returns_bounded_counts
    (gin : Graph) (beta gamma : Q) (i0 trimsz tmax : Z) (w : World) :
  0 < vcount gin -> (0 <= i0 <= Z.of_nat (vcount gin))%Z -> (trimsz < tmax)%Z ->
  exists ninfec last w',
    simu_sis gin beta gamma i0 trimsz tmax w = (Ok (ninfec, last), w') /\
    length ninfec = vcount gin /\
    (forall v, (0 <= nth v ninfec 0 <= tmax - trimsz)%Z) /\
    (0 <= last <= Z.of_nat (vcount gin))%Z /\
    (last <= np_sum ninfec)%Z.
Proof.
  intros Hn Hi Ht. unfold simu_sis, bind.
  pose proof (square_get_adjacency gin) as SA.
  destruct (set_initial_status_ok (vcount gin) i0 w Hn Hi) as (s0 & w0 & E0). rewrite E0.
  destruct (set_initial_status_inv _ _ _ _ _ E0) as [B0 L0].
  destruct (sis_trim_loop_ok (vcount gin) (get_adjacency gin) beta gamma
              (Z.to_nat trimsz) Hn SA s0 w0 B0 L0) as (s1 & w1 & E1).
  rewrite E1.
  destruct (sis_trim_loop_binary _ _ _ _ _ _ _ _ B0 E1) as [B1 L1].
  destruct (sis_count_loop_bounds (vcount gin) (get_adjacency gin) beta gamma
              (Z.to_nat (tmax - trimsz)) Hn SA s1 (zeros (vcount gin)) None w1 0%Z)
    as (s2 & ninfec & newinf & w2 & E2 & Ln & Hc & Hd & Hs);
    try assumption; [congruence|apply length_zeros| |exact I|].
  { intros v. unfold zeros. destruct (Nat.lt_ge_cases v (vcount gin)).
    - rewrite nth_repeat_lt by assumption. lia.
    - rewrite nth_overflow by (rewrite repeat_length; assumption). lia. }
  rewrite E2.
  destruct newinf as [d|]; [|exfalso; apply Hs; [left; lia|reflexivity]].
  cbn [last_delta_ok] in Hd. destruct Hd as (Bd & Ld & Hle).
  exists ninfec, (np_sum d), w2. split; [reflexivity|]. split; [assumption|].
  split; [intros v; specialize (Hc v); lia|].
  split; [|assumption].
  rewrite <- Ld. apply binary_sum_bounds. assumption.
Qed.

Lemma X23_simu_sis_returns_bounded_counts_witness :
  exists ninfec last w',
    simu_sis (mkGraph 3 [(0, 1); (1, 2); (2, 0); (0, 2)]) (1 # 2) (1 # 3) 1 2 6
      (mkWorld (mkRandomState (fun i => Z.of_nat (7 * i)) 0) [])
    = (Ok (ninfec, last), w') /\
    length ninfec = 3 /\ (0 <= last <= 3)%Z /\ (last <= np_sum ninfec)%Z.
Proof.
  destruct (X23_simu_sis_returns_bounded_counts
              (mkGraph 3 [(0, 1); (1, 2); (2, 0); (0, 2)]) (1 # 2) (1 # 3) 1 2 6
              (mkWorld (mkRandomState (fun i => Z.of_nat (7 * i)) 0) []))
    as (ninfec & last & w' & E & L & _ & Hl & Hs).
  - simpl. lia.
  - simpl. lia.
  - lia.
  - exists ninfec, last, w'. repeat split; try assumption; apply Hl.
Defined.

(** ** ExperimentDriver: the snapshots behind the rows *)

Lemma ecount_to_directed (g : Graph) : ecount (to_directed g) = 2 * ecount g.
Proof.
  unfold ecount, to_directed, reverse_edges. cbn [get_edgelist].
  rewrite length_app, length_map. lia.
Qed.

Lemma prune_batch_inv (i j : nat) :
  forall (g g' : Graph) (a a' : Z) (w w' : World),
    is_connected g = true ->
    prune_batch i j g a w = (Ok (g', a'), w') ->
    vcount g' = vcount g /\ ecount g' + j = ecount g /\ is_connected g' = true /\
    (a + Z.of_nat j <= a')%Z.
Proof.
  induction j as [|j IH]; intros g g' a a' w w' Hc E; cbn [prune_batch] in E.
  - inversion E; subst. repeat split; [lia|assumption|lia].
  - unfold bind, try_except in E.
    destruct (remove_arc_conn g w) as [[[g1 m]|x] w1] eqn:Er; [|discriminate].
    destruct (remove_arc_conn_inv _ _ _ _ _ Er) as (Hv & He & _ & Hc1 & Hm).
    destruct (IH _ _ _ _ _ _ Hc1 E) as (Hv' & He' & Hc' & Ha).
    split; [congruence|]. split; [lia|]. split; [assumption|lia].
Qed.

Section Snapshots.

Variables (n : nat) (mode : degmode) (batchsz : Z).
Variables (trimrel : Q) (wepochs fepochs fthesh eepochs : Z).
Variables (ei0 ebeta egamma : Q).

Lemma measure_inv (i : nat) (g : Graph) (a : Z) (w w' : World) (row : BatchStatistics) :
  measure n mode trimrel wepochs fepochs fthesh eepochs ei0 ebeta egamma i g a w
  = (Ok row, w') ->
  degrees row = degree g mode /\ nattempts row = a.
Proof.
  unfold measure, bind, enter, ret. intros E.
  repeat match type of E with
         | context [match ?m ?x with _ => _ end] =>
             let r := fresh "r" in
             destruct (m x) as [[r|?] ?]; [|discriminate]; try destruct r as [? ?]
         end.
  inversion E; subst. split; reflexivity.
Qed.

Lemma batch_loop_inv (steps : nat) :
  forall (i : nat) (g : Graph) (w w' : World) (rows : list BatchStatistics),
    is_connected g = true ->
    batch_loop n mode batchsz trimrel wepochs fepochs fthesh eepochs ei0 ebeta egamma
      steps i g w = (Ok rows, w') ->
    length rows = steps /\
    forall j row, nth_error rows j = Some row ->
      exists gj,
        degrees row = degree gj mode /\ vcount gj = vcount g /\
        is_connected gj = true /\
        ecount gj + S j * Z.to_nat batchsz = ecount g /\
        (Z.of_nat (Z.to_nat batchsz) <= nattempts row)%Z.
Proof.
  induction steps as [|steps IH]; intros i g w w' rows Hc E; cbn [batch_loop] in E.
  - inversion E; subst. split; [reflexivity|]. intros [|j] row H; discriminate.
  - unfold bind in E.
    destruct (prune_batch i (Z.to_nat batchsz) g 0 w) as [[[g1 a1]|x] w1] eqn:Ep;
      [|discriminate].
    destruct (prune_batch_inv _ _ _ _ _ _ _ _ Hc Ep) as (Hv1 & He1 & Hc1 & Ha1).
    destruct (measure n mode trimrel wepochs fepochs fthesh eepochs ei0 ebeta egamma
                (S i) g1 a1 w1) as [[row1|x] w2] eqn:Em; [|discriminate].
    destruct (measure_inv _ _ _ _ _ _ Em) as [Hd1 Hn1].
    destruct (batch_loop n mode batchsz trimrel wepochs fepochs fthesh eepochs
                ei0 ebeta egamma steps (S i) g1 w2) as [[rest|x] w3] eqn:Eb;
      [|discriminate].
    inversion E; subst rows w3; clear E.
    destruct (IH _ _ _ _ _ Hc1 Eb) as [Lr Hr].
    split; [simpl; congruence|].
    intros [|j] row H; simpl in H.
    + inversion H; subst row. exists g1.
      split; [assumption|]. split; [assumption|]. split; [assumption|].
      split; [lia|]. rewrite Hn1. lia.
    + destruct (Hr j row H) as (gj & Hd & Hv & Hcj & He & Ha).
      exists gj. split; [assumption|]. split; [congruence|]. split; [assumption|].
      split; [lia|assumption].
Qed.

End Snapshots.

(** X24.  When [run_experiment] returns (with [0 <= nbatches]), it returns
    [nbatches + 1] rows; row [i] holds the degrees of a strongly connected
    graph on the vertices of the generated graph that has exactly
    [i * batchsz] arcs less than its directed version, and the
    configuration passed the pre-flight bound.  Row 0 is measured on the
    directed version itself and carries the number of generation tries;
    every later row carries at least [batchsz] removal attempts. *)
Theorem X24_rows_are_measured_on_connected_snapshots
    (generate_data : string -> nat -> Z -> M Graph)
    (top : string) (n : nat) (k : Z) (mode : degmode) (nbatches batchsz : Z)
    (trimrel : Q) (wepochs fepochs fthesh eepochs : Z) (ei0 ebeta egamma : Q)
    (w w' : World) (rows : list BatchStatistics) :
  (0 <= nbatches)%Z ->
  run_experiment generate_data top n k mode nbatches batchsz trimrel
    wepochs fepochs fthesh eepochs ei0 ebeta egamma w = (Ok rows, w') ->
  exists gorig tries w1,
    generate_loop generate_data top n k 102 0 w = (Ok (gorig, tries), w1) /\
    (4 * (nbatches * batchsz) <= 3 * Z.of_nat (2 * ecount gorig))%Z /\
    length rows = S (Z.to_nat nbatches) /\
    forall i row, nth_error rows i = Some row ->
      exists g,
        degrees row = degree g mode /\ vcount g = vcount gorig /\
        is_connected g = true /\
        ecount g + i * Z.to_nat batchsz = 2 * ecount gorig /\
        (i = 0 -> g = to_directed gorig /\ nattempts row = tries) /\
        (0 < i -> (Z.of_nat (Z.to_nat batchsz) <= nattempts row)%Z).
Proof.
  intros Hnb E. unfold run_experiment, bind in E.
  destruct (generate_loop generate_data top n k 102 0 w) as [[[gorig tries]|x] w1] eqn:Eg;
    [|discriminate].
  destruct (Z.ltb_spec (nbatches + 1) 0) as [Hneg|_]; [lia|].
  destruct (Z.eqb_spec (nbatches + 1) 0) as [Hz|_]; [lia|].
  unfold ret, lift in E.
  destruct (initial_check nbatches batchsz (to_directed gorig)) as [[]|x] eqn:Ei;
    [|discriminate].
  unfold initial_check in Ei.
  destruct (Z.ltb_spec (3 * Z.of_nat (ecount (to_directed gorig)))
              (4 * (nbatches * batchsz))) as [|Hb]; [discriminate|].
  destruct (is_connected (to_directed gorig)) eqn:Hc; [|discriminate].
  rewrite ecount_to_directed in Hb.
  destruct (measure n mode trimrel wepochs fepochs fthesh eepochs ei0 ebeta egamma
              0 (to_directed gorig) tries w1) as [[row0|x] w2] eqn:Em; [|discriminate].
  destruct (measure_inv _ _ _ _ _ _ _ _ _ _ _ _ _ _ _ _ Em) as [Hd0 Hn0].
  destruct (batch_loop n mode batchsz trimrel wepochs fepochs fthesh eepochs
              ei0 ebeta egamma (Z.to_nat nbatches) 0 (to_directed gorig) w2)
    as [[rest|x] w3] eqn:Eb; [|discriminate].
  inversion E; subst rows w3; clear E.
  destruct (batch_loop_inv _ _ _ _ _ _ _ _ _ _ _ _ _ _ _ _ _ Hc Eb) as [Lr Hr].
  exists gorig, tries, w1. split; [reflexivity|]. split; [assumption|].
  split; [simpl; congruence|].
  intros [|i] row H; simpl in H.
  - inversion H; subst row. exists (to_directed gorig).
    split; [assumption|]. split; [reflexivity|]. split; [assumption|].
    split; [rewrite ecount_to_directed; lia|]. split; [auto|lia].
  - destruct (Hr i row H) as (gi & Hd & Hv & Hci & He & Ha).
    exists gi. split; [assumption|]. split; [assumption|]. split; [assumption|].
    split; [rewrite ecount_to_directed in He; lia|]. split; [discriminate|auto].
Qed.

Lemma X24_rows_are_measured_on_connected_snapshots_witness :
  exists rows w',
    run_experiment (fun _ _ _ => ret (mkGraph 3 [(0, 1); (1, 2); (2, 0)]))
      "la" 3 2 DegOut 1 1 (1 # 4) 4 4 2 4 (1 # 3) (1 # 2) (1 # 2)
      (mkWorld (mkRandomState (fun i => Z.of_nat (3 * i)) 0) []) = (Ok rows, w') /\
    length rows = 2.
Proof.
  destruct (run_experiment (fun _ _ _ => ret (mkGraph 3 [(0, 1); (1, 2); (2, 0)]))
              "la" 3 2 DegOut 1 1 (1 # 4) 4 4 2 4 (1 # 3) (1 # 2) (1 # 2)
              (mkWorld (mkRandomState (fun i => Z.of_nat (3 * i)) 0) []))
    as [[rows|e] w'] eqn:E; [|vm_compute in E; discriminate].
  assert (Hnb : (0 <= 1)%Z) by lia.
  destruct (X24_rows_are_measured_on_connected_snapshots _ _ _ _ _ _ _ _ _ _ _ _ _ _ _
              _ _ _ Hnb E) as (_ & _ & _ & _ & _ & L & _).
  exists rows, w'. split; [reflexivity|exact L].
Defined.
